(** * svelte5-utils: the loading-state tree and the lockable store

    A shallow embedding of [src/lib/loading.svelte.ts] and
    [src/lib/lockable.svelte.ts].

    - [Module Loading] embeds [create] with its getters [current], [or],
      the child factories [scoped], [derived], [promised], the callbacks that
      [promised] hands to the timer and to the promise, and the teardown
      callback handed to [onDestroy].  The objects live in a heap indexed by
      references, because what is proved is about aliasing: a store is returned
      to its creator and at the same time held in its parent's [values] set.
    - [Module Lockable] embeds [from]: the [value] getter and setter, [locked],
      [force], [onupdateprevented], with the listener registry as a JavaScript
      [Set] that is iterated while listeners run. *)

From Stdlib Require Import ZArith String Lia.
From stdpp Require Import base option list.
From stdpp Require Import gmap strings.

(** ** JavaScript values and the [Boolean] coercion

    [or(other: any)] coerces its argument with [Boolean(other)].  The values
    below are the ones [ToBoolean] distinguishes; a number is kept as an
    integer or [NaN], which is all the coercion looks at. *)

Inductive any :=
| Undefined
| Null
| Bool (b : bool)
| Number (z : Z)
| NaN
| Str (s : string)
| Object (address : nat).

Definition Boolean (x : any) : bool :=
  match x with
  | Undefined | Null | NaN => false
  | Bool b => b
  | Number z => negb (Z.eqb z 0)
  | Str s => negb (String.eqb s EmptyString)
  | Object _ => true
  end.

Module Loading.

(** A reference to a store object (its address in the heap). *)
Abbreviation ref := nat (only parsing).

(** What a store operation can throw.
    - [ReadonlyProperty] is [new Error('Readonly property')] of
      [readonly_error];
    - [GetterOnly] is the [TypeError] of an assignment to an accessor property
      that has a getter and no setter (module code is strict);
    - [NotAFunction] is the [TypeError] of calling a property that the object
      does not have. *)
Inductive error := ReadonlyProperty | GetterOnly | NotAFunction.

Section Loading.

(** The state that the [from] callbacks of derived stores read. *)
Context {Env : Type}.

(** The [get] argument of [create], together with the [set] that comes with
    it: [GState] is the pair [() => value], [(val) => (value = val)] over a
    [$state] cell, [GDerived] is [from] with the default [set], which is
    [readonly_error]. *)
Inductive getter :=
| GState (value : bool)
| GDerived (from : Env → bool).

(** A store object.
    - [Store get values]: the object returned by [create(get, set)], with its
      private [values] set, kept in insertion order;
    - [PromisedStore value timeout]: the object literal of [promised], over its
      [$state] cell [value]; [timeout] is the time at which the pending timer
      fires, [None] once it has fired or has been cleared. *)
Inductive node :=
| Store (get : getter) (values : list ref)
| PromisedStore (value : bool) (timeout : option nat).

(** [hooks] are the callbacks registered with [onDestroy], each one
    [values.delete.bind(values, store)]: the owner of [values] and [store]. *)
Record world := World {
  env : Env;
  heap : list node;
  hooks : list (ref * ref);
  now : nat
}.

Inductive outcome (A : Type) :=
| Returns (a : A) (w : world)
| Throws (e : error) (w : world)
| Stuck.
Arguments Returns {A} a w.
Arguments Throws {A} e w.
Arguments Stuck {A}.

Definition M (A : Type) := world → outcome A.

Definition ret {A} (a : A) : M A := λ w, Returns a w.

Definition bind {A B} (m : M A) (k : A → M B) : M B :=
  λ w, match m w with
       | Returns a w' => k a w'
       | Throws e w' => Throws e w'
       | Stuck => Stuck
       end.

Definition throw {A} (e : error) : M A := λ w, Throws e w.

(** [readonly_error()], the default [set] of [create]. *)
Definition readonly_error {A} : M A := throw ReadonlyProperty.

Definition load (n : ref) : M node :=
  λ w, match heap w !! n with Some nd => Returns nd w | None => Stuck end.

Definition update (n : ref) (nd : node) (w : world) : world :=
  World (env w) (<[n:=nd]> (heap w)) (hooks w) (now w).

Definition store_at (n : ref) (nd : node) : M unit :=
  λ w, Returns tt (update n nd w).

Definition alloc (nd : node) : M ref :=
  λ w, Returns (length (heap w))
         (World (env w) (heap w ++ [nd]) (hooks w) (now w)).

Definition onDestroy (hook : ref * ref) : M unit :=
  λ w, Returns tt (World (env w) (heap w) (hooks w ++ [hook]) (now w)).

Definition run_getter (e : Env) (g : getter) : bool :=
  match g with
  | GState value => value
  | GDerived from => from e
  end.

Definition children (nd : node) : list ref :=
  match nd with
  | Store _ values => values
  | PromisedStore _ _ => []
  end.

(** [Set.prototype.add] and [Set.prototype.delete] on an insertion-ordered
    set. *)
Definition set_add (x : ref) (s : list ref) : list ref :=
  if decide (x ∈ s) then s else s ++ [x].

Definition set_delete (x : ref) (s : list ref) : list ref :=
  filter (λ y, y ≠ x) s.

(** One round of [value = value || v.value]: the right operand is evaluated
    only when [value] is false. *)
Definition or_step (read : ref → option bool) (acc : option bool) (v : ref)
  : option bool :=
  match acc with
  | Some false => read v
  | _ => acc
  end.

(** What the [value] getter of the store at [n] returns: [current()] for a
    [Store], the cell for a [PromisedStore].  [current] calls the [value]
    getter of the members of [values], which are stores again; [fuel] bounds
    the depth of these calls. *)
Fixpoint current (fuel : nat) (e : Env) (h : list node) (n : ref)
  : option bool :=
  match fuel with
  | O => None
  | S k =>
      match h !! n with
      | None => None
      | Some (PromisedStore value _) => Some value
      | Some (Store get values) =>
          foldl (or_step (current k e h)) (Some (run_getter e get)) values
      end
  end.

(** [store.value] *)
Definition get_value (n : ref) : M bool :=
  λ w, match current (length (heap w)) (env w) (heap w) n with
       | Some b => Returns b w
       | None => Stuck
       end.

(** [store.value = val] *)
Definition set_value (n : ref) (val : bool) : M unit :=
  bind (load n) (λ nd,
    match nd with
    | Store (GState _) values => store_at n (Store (GState val) values)
    | Store (GDerived _) _ => readonly_error
    | PromisedStore _ _ => throw GetterOnly
    end).

(** [store.or(other)] *)
Definition or_ (n : ref) (other : any) : M bool :=
  bind (load n) (λ nd,
    match nd with
    | Store _ _ => bind (get_value n) (λ c, ret (c || Boolean other))
    | PromisedStore value _ => ret (value || Boolean other)
    end).

(** [values.add(store)] in the closure of the store at [p]. *)
Definition values_add (p store : ref) : M unit :=
  bind (load p) (λ nd,
    match nd with
    | Store get values => store_at p (Store get (set_add store values))
    | PromisedStore _ _ => throw NotAFunction
    end).

(** [values.delete(store)] in the closure of the store at [p]: the callback
    that [scoped], [derived] and [promised] pass to [onDestroy]. *)
Definition values_delete (p store : ref) : M unit :=
  bind (load p) (λ nd,
    match nd with
    | Store get values => store_at p (Store get (set_delete store values))
    | PromisedStore _ _ => throw NotAFunction
    end).

Definition is_store (p : ref) : M unit :=
  bind (load p) (λ nd,
    match nd with
    | Store _ _ => ret tt
    | PromisedStore _ _ => throw NotAFunction
    end).

(** [create(get, set)] *)
Definition create (get : getter) : M ref := alloc (Store get []).

(** [p.scoped(initial)] *)
Definition scoped (p : ref) (initial : bool) : M ref :=
  bind (is_store p) (λ _,
  bind (create (GState initial)) (λ store,
  bind (onDestroy (p, store)) (λ _,
  bind (values_add p store) (λ _,
  ret store)))).

(** [p.derived(from)] *)
Definition derived (p : ref) (from : Env → bool) : M ref :=
  bind (is_store p) (λ _,
  bind (create (GDerived from)) (λ store,
  bind (onDestroy (p, store)) (λ _,
  bind (values_add p store) (λ _,
  ret store)))).

(** [setTimeout] keeps the delay of a timer in a signed 32-bit integer, of
    which [TIMEOUT_MAX] is the largest.  A delay above it does not get there:
    the timer is set to 1 ms instead. *)
Definition TIMEOUT_MAX : Z := 2 ^ 31 - 1.

Definition timer_delay (delay : nat) : nat :=
  if (Z.of_nat delay <=? TIMEOUT_MAX)%Z then delay else 1.

(** [p.promised(promise, delay)]: [setTimeout(..., delay)] arms the timer for
    [now + timer_delay delay]; the callbacks given to [setTimeout] and to
    [promise.finally] are [timeout_callback] and [finally_callback] below,
    which the host runs. *)
Definition promised (p : ref) (delay : nat) : M ref :=
  bind (is_store p) (λ _ w,
  bind (alloc (PromisedStore false (Some (now w + timer_delay delay)))) (λ store,
  bind (onDestroy (p, store)) (λ _,
  bind (values_add p store) (λ _,
  ret store))) w).

(** [useLoading(initial)] and [useLoading.derived(from)] *)
Definition useLoading (initial : bool) : M ref := create (GState initial).
Definition useLoading_derived (from : Env → bool) : M ref :=
  create (GDerived from).

(** The callback given to [setTimeout]: [value = true]. *)
Definition timeout_callback (n : ref) : M unit :=
  bind (load n) (λ nd,
    match nd with
    | PromisedStore _ timeout => store_at n (PromisedStore true timeout)
    | Store _ _ => ret tt
    end).

(** [cleanup], which is [clearTimeout.bind(window, timeout)]: the timer is no
    longer pending; on a timer that has fired or was cleared, nothing
    changes. *)
Definition cleanup (n : ref) : M unit :=
  bind (load n) (λ nd,
    match nd with
    | PromisedStore value _ => store_at n (PromisedStore value None)
    | Store _ _ => ret tt
    end).

(** The callback given to [promise.finally]: [value = false; cleanup()]. *)
Definition finally_callback (n : ref) : M unit :=
  bind (load n) (λ nd,
    match nd with
    | PromisedStore _ timeout =>
        bind (store_at n (PromisedStore false timeout)) (λ _, cleanup n)
    | Store _ _ => ret tt
    end).

(** *** The host: timers and the promise

    [setTimeout(callback, delay)] runs [callback] once, in the first turn of
    the event loop in which the clock has reached the timer's time, unless the
    timer was cleared before.  [promise.finally(callback)] runs [callback]
    once, when the promise settles, whether it is fulfilled or rejected. *)

Inductive settlement := Fulfilled | Rejected.

Definition timer_due (n : ref) (w : world) : bool :=
  match heap w !! n with
  | Some (PromisedStore _ (Some t)) => t <=? now w
  | _ => false
  end.

(** A timer that fires is no longer pending. *)
Definition expire (n : ref) : M unit :=
  bind (load n) (λ nd,
    match nd with
    | PromisedStore value _ => store_at n (PromisedStore value None)
    | Store _ _ => ret tt
    end).

Definition run_timer (n : ref) : M unit :=
  λ w, if timer_due n w
       then bind (expire n) (λ _, timeout_callback n) w
       else Returns tt w.

Definition promise_settles (o : settlement) (n : ref) : M unit :=
  match o with
  | Fulfilled => finally_callback n
  | Rejected => finally_callback n
  end.

Definition run_promise (settles_at : nat) (o : settlement) (n : ref)
  : M unit :=
  λ w, if now w =? settles_at then promise_settles o n w else Returns tt w.

Definition tick : M unit :=
  λ w, Returns tt (World (env w) (heap w) (hooks w) (S (now w))).

(** One turn of the event loop at the current time, for the promised store at
    [n] whose promise settles at [settles_at].  When the timer and the promise
    are due in the same turn, [timer_first] says which callback runs first. *)
Definition turn (timer_first : bool) (settles_at : nat) (o : settlement)
    (n : ref) : M unit :=
  if timer_first
  then bind (run_timer n) (λ _, run_promise settles_at o n)
  else bind (run_promise settles_at o n) (λ _, run_timer n).

(** The event loop from the current time on, for [ms] milliseconds. *)
Fixpoint elapse (timer_first : bool) (settles_at : nat) (o : settlement)
    (n : ref) (ms : nat) : M unit :=
  match ms with
  | O => turn timer_first settles_at o n
  | S k =>
      bind (elapse timer_first settles_at o n k) (λ _,
      bind tick (λ _, turn timer_first settles_at o n))
  end.

(** The heap after a child factory has run on the store at [p], whose node
    was [Store g vs]: the new object [nd] is allocated and its reference is
    appended to [values]. *)
Definition with_child (h : list node) (p : ref) (g : getter)
    (vs : list ref) (nd : node) : list node :=
  <[p:=Store g (vs ++ [length h])]> (h ++ [nd]).

(** The promised store [delay] and [settles] milliseconds being the times of
    the timer and of the settlement after its creation at [created]: what the
    store is once the event loop has run for [ms] milliseconds. *)
Definition promised_after (created delay settles ms : nat) : node :=
  PromisedStore (bool_decide (delay ≤ ms < settles))
    (if decide (ms < delay ∧ ms < settles) then Some (created + delay)
     else None).

(** The claim that a store made by [promised] with [delay], whatever the
    delay is, is off all the time when the promise settles [settles < delay]
    milliseconds later, and on from [delay] until the settlement when
    [delay < settles]. *)
Definition timeline_for_every_delay (w : world) (p : ref)
    (delay settles : nat) : Prop :=
  ∀ o tf, ∃ c w0,
    promised p delay w = Returns c w0 ∧
    get_value c w0 = Returns false w0 ∧
    (settles < delay → ∀ ms, ∃ w',
        elapse tf (now w + settles) o c ms w0 = Returns tt w' ∧
        get_value c w' = Returns false w') ∧
    (delay < settles → ∀ ms, ∃ w',
        elapse tf (now w + settles) o c ms w0 = Returns tt w' ∧
        get_value c w' = Returns (bool_decide (delay ≤ ms < settles)) w').

(** *** The shape of the heap

    Every store is put into exactly one [values] set, the one of the store
    whose [scoped], [derived] or [promised] created it, and it is created
    after that store.  [wf] says so: the members of a [values] set are
    allocated, younger than the owner of the set, without repetition, and in
    no other [values] set. *)
Record wf (h : list node) : Prop := {
  wf_order : ∀ i nd c, h !! i = Some nd → c ∈ children nd → i < c < length h;
  wf_nodup : ∀ i nd, h !! i = Some nd → NoDup (children nd);
  wf_parent : ∀ i j ni nj c,
    h !! i = Some ni → h !! j = Some nj →
    c ∈ children ni → c ∈ children nj → i = j
}.

(** [subtree h c x]: [x] is [c], or is reached from [c] through [values]
    sets. *)
Inductive subtree (h : list node) (c : ref) : ref → Prop :=
| subtree_root : subtree h c c
| subtree_child x nd y :
    subtree h c x → h !! x = Some nd → y ∈ children nd → subtree h c y.

(** [detached h c]: no [values] set holds [c]. *)
Definition detached (h : list node) (c : ref) : Prop :=
  ∀ j nj, h !! j = Some nj → c ∉ children nj.

(** *** Everything that happens to a heap

    The calls of the exported functions and of the methods of the stores, and
    what the host does: it runs a teardown callback that [onDestroy] has
    registered, fires a timer, settles a promise, lets time pass, or changes
    the state that [from] callbacks read. *)
Inductive event :=
| UseLoading (initial : bool)
| UseLoadingDerived (from : Env → bool)
| Scoped (p : ref) (initial : bool)
| Derived (p : ref) (from : Env → bool)
| Promised (p : ref) (delay : nat)
| SetValue (n : ref) (val : bool)
| Destroy (p store : ref)
| TimerFires (n : ref)
| PromiseSettles (o : settlement) (n : ref)
| Tick
| EnvChanges (e : Env).

(** The state a call leaves behind, whether it returns or throws. *)
Definition run {A} (m : M A) (w : world) : world :=
  match m w with
  | Returns _ w' => w'
  | Throws _ w' => w'
  | Stuck => w
  end.

Definition after (w : world) (ev : event) : world :=
  match ev with
  | UseLoading initial => run (useLoading initial) w
  | UseLoadingDerived from => run (useLoading_derived from) w
  | Scoped p initial => run (scoped p initial) w
  | Derived p from => run (derived p from) w
  | Promised p delay => run (promised p delay) w
  | SetValue n val => run (set_value n val) w
  | Destroy p store =>
      if decide ((p, store) ∈ hooks w) then run (values_delete p store) w
      else w
  | TimerFires n => run (run_timer n) w
  | PromiseSettles o n => run (promise_settles o n) w
  | Tick => run tick w
  | EnvChanges e => World e (heap w) (hooks w) (now w)
  end.

Definition reachable (w : world) : Prop :=
  ∃ e evs, w = foldl after (World e [] [] 0) evs.

End Loading.

Arguments getter : clear implicits.
Arguments node : clear implicits.
Arguments world : clear implicits.
Arguments M : clear implicits.
Arguments outcome : clear implicits.
Arguments event : clear implicits.
Arguments timer_delay : simpl never.
Arguments Returns {Env A} a w.
Arguments Throws {Env A} e w.
Arguments Stuck {Env A}.

(** *** An example

    A root with a scoped child that is on, a promised child with a delay of
    50 ms, and under the scoped child a derived store that reads a flag from
    outside, which is on. *)
Definition example_world : world bool :=
  foldl after (World true [] [] 0)
    [UseLoading false; Scoped 0 true; Promised 0 50; Derived 1 (λ e, e)].

End Loading.

Module Lockable.

(** The identity of a listener function, and of an [AbortSignal]. *)
Abbreviation listener := nat (only parsing).
Abbreviation signal := nat (only parsing).

(** The two places of [from] that call [accessor.set]: the [value] setter in
    its unlocked branch, and the function returned by the [force] getter. *)
Inductive site := Setter | Forced.

Section Lockable.

(** [T] is the type of the stored value; [W] is the state outside the store,
    which [lock] and the accessor read and write. *)
Context {T W : Type}.

(** The [accessor] argument of [from]: a [get]/[set] pair, or an object with a
    [value] property, given by what reading and writing that property do.
    [set] is told the place it is called from, because that decides its
    [this]: the setter calls [accessor.set(v)], while [force] is the function
    [accessor.set] taken off the accessor and called on the store. *)
Inductive accessor :=
| GetSet (get : W → T) (set : site → T → W → W)
| Value (read : W → T) (write : T → W → W).

(** The [CustomEvent] handed to a listener: its [detail], and [event_id], the
    identity of the object, which is the number of events constructed before
    it. *)
Record LockedEvent := {
  event_id : nat;
  value : T;
  newValue : T
}.

(** What is done with a store, one call after the other, by its users and by
    a listener while it runs:
    - [Force v] is [store.force(v)];
    - [Unregister l] is a call of the function that [onupdateprevented]
      returned for [l];
    - [Register l] is [store.onupdateprevented(l)], and [Attach l s] is
      [store.onupdateprevented(l, s)] with the signal [s];
    - [Cancel s] is the abort of the signal [s];
    - [Write v] is [store.value = v];
    - [Change change] is a change of the state outside, which [lock] and the
      accessor read: a write to the location, the lock going on or off;
    - [Throw] is a [throw]. *)
Inductive action :=
| Force (v : T)
| Unregister (l : listener)
| Register (l : listener)
| Attach (l : listener) (s : signal)
| Cancel (s : signal)
| Write (v : T)
| Change (change : W → W)
| Throw.

(** What can be observed of a store from outside: the calls of
    [accessor.set], with the place they come from, the calls of listeners,
    and the changes of the state outside. *)
Inductive entry :=
| AccessorSet (from_site : site) (v : T)
| Invoked (l : listener) (ev : LockedEvent)
| Changed (change : W → W).

(** - [listeners] is the [SetData] of the [listeners] set: the elements in
      insertion order, a deleted element leaving an empty slot behind;
    - [abort_handlers]: the [cleanup] functions attached to signals with
      [addEventListener('abort', cleanup, {once: true})];
    - [aborted]: the signals that have been aborted;
    - [created]: how many [CustomEvent] objects have been constructed;
    - [trace]: the calls made so far, oldest first. *)
Record state := State {
  world : W;
  listeners : list (option listener);
  abort_handlers : list (signal * listener);
  aborted : list signal;
  created : nat;
  trace : list entry
}.

(** How a call ends: it returns, it throws what a listener has thrown, or it
    has not come to an end within the rounds and the depth of calls that the
    fuel allows. *)
Inductive result :=
| Returned (st : state)
| Threw (st : state)
| Unfinished.

(** The state a call leaves behind, whether it returns or throws. *)
Definition final (r : result) : option state :=
  match r with
  | Returned st => Some st
  | Threw st => Some st
  | Unfinished => None
  end.

Variable lock : W → bool.
Variable arg : accessor.
Variable behaviour : listener → LockedEvent → list action.

(** [if ('value' in accessor)]: an object with a [value] property is wrapped
    into a [get]/[set] pair over that property. *)
Definition accessor_get : W → T :=
  match arg with
  | GetSet get _ => get
  | Value read _ => λ w, read w
  end.

Definition accessor_set : site → T → W → W :=
  match arg with
  | GetSet _ set => set
  | Value _ write => λ _ v w, write v w
  end.

(** [Set.prototype.add], [Set.prototype.delete] and [size] on [SetData]. *)
Definition set_add (l : listener) (s : list (option listener))
  : list (option listener) :=
  if decide (Some l ∈ s) then s else s ++ [Some l].

Definition set_delete (l : listener) (s : list (option listener))
  : list (option listener) :=
  (λ slot, if decide (slot = Some l) then None else slot) <$> s.

Definition size (s : list (option listener)) : nat :=
  length (omap id s).

(** [from(lock, accessor)] in the state [w] of the outside, with [signals]
    the signals already aborted. *)
Definition from (w : W) (signals : list signal) : state :=
  State w [] [] signals 0 [].

(** [store.value] *)
Definition get_value (st : state) : T := accessor_get (world st).

(** [store.locked] *)
Definition locked (st : state) : bool := lock (world st).

(** [store.force(v)]: the getter returns [accessor.set], which is then
    called with [v]. *)
Definition force (v : T) (st : state) : state :=
  State (accessor_set Forced v (world st)) (listeners st) (abort_handlers st)
    (aborted st) (created st) (trace st ++ [AccessorSet Forced v]).

(** [cleanup], which is [listeners.delete.bind(listeners, listener)]: the
    function that [onupdateprevented] returns and attaches to the signal. *)
Definition cleanup (l : listener) (st : state) : state :=
  State (world st) (set_delete l (listeners st)) (abort_handlers st)
    (aborted st) (created st) (trace st).

(** [store.onupdateprevented(listener, signal)] *)
Definition onupdateprevented (l : listener) (sig : option signal)
    (st : state) : state :=
  State (world st) (set_add l (listeners st))
    (match sig with
     | Some s => abort_handlers st ++ [(s, l)]
     | None => abort_handlers st
     end)
    (aborted st) (created st) (trace st).

(** The host aborts the signal [s]: nothing happens when it is aborted
    already; otherwise the handlers attached to [s] run in the order they were
    attached, and are detached ([once]). *)
Definition abort (s : signal) (st : state) : state :=
  if decide (s ∈ aborted st) then st
  else
    let mine := filter (λ h, h.1 = s) (abort_handlers st) in
    let rest := filter (λ h, h.1 ≠ s) (abort_handlers st) in
    foldl (λ st' h, cleanup h.2 st')
      (State (world st) (listeners st) rest (s :: aborted st) (created st)
         (trace st))
      mine.

(** A change of the state outside the store. *)
Definition outside (change : W → W) (st : state) : state :=
  State (change (world st)) (listeners st) (abort_handlers st) (aborted st)
    (created st) (trace st ++ [Changed change]).

(** [accessor.set(v)], as the setter calls it in its [else] branch. *)
Definition assign (v : T) (st : state) : state :=
  State (accessor_set Setter v (world st)) (listeners st) (abort_handlers st)
    (aborted st) (created st) (trace st ++ [AccessorSet Setter v]).

(** One round of [for (const listener of listeners)] up to the call of the
    listener: the event is built from a fresh [accessor.get()] and handed to
    the listener. *)
Definition event_for (v : T) (st : state) : LockedEvent :=
  {| event_id := created st; value := accessor_get (world st); newValue := v |}.

Definition call (l : listener) (v : T) (st : state) : state :=
  State (world st) (listeners st) (abort_handlers st) (aborted st)
    (S (created st)) (trace st ++ [Invoked l (event_for v st)]).

Section Calls.

(** [write v] is [store.value = v] as a listener can call it. *)
Variable write : T → state → result.

Definition run_action (a : action) (st : state) : result :=
  match a with
  | Force v => Returned (force v st)
  | Unregister l => Returned (cleanup l st)
  | Register l => Returned (onupdateprevented l None st)
  | Attach l s => Returned (onupdateprevented l (Some s) st)
  | Cancel s => Returned (abort s st)
  | Write v => write v st
  | Change change => Returned (outside change st)
  | Throw => Threw st
  end.

(** The body of a listener: what it throws, or what a call it makes throws,
    ends it. *)
Fixpoint run_actions (acts : list action) (st : state) : result :=
  match acts with
  | [] => Returned st
  | a :: acts' =>
      match run_action a st with
      | Returned st' => run_actions acts' st'
      | Threw st' => Threw st'
      | Unfinished => Unfinished
      end
  end.

(** One round of the loop. *)
Definition notify (l : listener) (v : T) (st : state) : result :=
  run_actions (behaviour l (event_for v st)) (call l v st).

(** [for (const listener of listeners)]: the set iterator keeps an index
    into [SetData], skips the empty slots, and stops when the index is past
    the end, which is looked up again in every round.  A listener that throws
    ends the loop.  [fuel] bounds the number of rounds. *)
Fixpoint dispatch (fuel : nat) (index : nat) (v : T) (st : state) : result :=
  match fuel with
  | O => Unfinished
  | S k =>
      match listeners st !! index with
      | None => Returned st
      | Some None => dispatch k (S index) v st
      | Some (Some l) =>
          match notify l v st with
          | Returned st' => dispatch k (S index) v st'
          | Threw st' => Threw st'
          | Unfinished => Unfinished
          end
      end
  end.

End Calls.

(** [store.value = v].  [fuel] bounds the rounds of the loop and the depth
    to which listeners assign to the store in turn. *)
Fixpoint set_value (fuel : nat) (v : T) (st : state) : result :=
  let locked := lock (world st) in
  if locked then
    if size (listeners st) =? 0 then Returned st
    else
      dispatch
        (match fuel with
         | O => λ _ _, Unfinished
         | S k => set_value k
         end)
        fuel 0 v st
  else Returned (assign v st).

(** The calls of the users of a store, from outside any listener, one after
    the other: a call that throws leaves the state of the throw to the next
    one. *)
Fixpoint run_ops (fuel : nat) (ops : list action) (st : state)
  : option state :=
  match ops with
  | [] => Some st
  | a :: ops' =>
      match final (run_action (set_value fuel) a st) with
      | Some st' => run_ops fuel ops' st'
      | None => None
      end
  end.

(** *** Reading the registry and the trace *)

(** The listeners in the registry, in the order they were registered. *)
Definition live (s : list (option listener)) : list listener := omap id s.

(** The listener calls of a trace, oldest first. *)
Definition invocations (tr : list entry) : list (listener * LockedEvent) :=
  omap (λ e, match e with Invoked l ev => Some (l, ev) | _ => None end) tr.

(** The outside state after the [accessor.set] calls and the changes of a
    trace. *)
Definition replay (tr : list entry) (w : W) : W :=
  foldl (λ w' e,
           match e with
           | AccessorSet s v => accessor_set s v w'
           | Changed change => change w'
           | Invoked _ _ => w'
           end)
    w tr.

Definition is_force (a : action) : Prop :=
  match a with Force _ => True | _ => False end.

Definition is_write (a : action) : Prop :=
  match a with Write _ => True | _ => False end.

Definition is_change (a : action) : Prop :=
  match a with Change _ => True | _ => False end.

Definition registers (l : listener) (a : action) : Prop :=
  a = Register l ∨ ∃ s, a = Attach l s.

Definition forced (acts : list action) : list T :=
  omap (λ a, match a with Force v => Some v | _ => None end) acts.

(** What the [force] calls and the changes of a listener do to the state
    outside. *)
Definition effect (acts : list action) (w : W) : W :=
  foldl (λ w' a,
           match a with
           | Force x => accessor_set Forced x w'
           | Change change => change w'
           | _ => w'
           end)
    w acts.

(** What a locked write of [v] hands to the listeners [ls], one after the
    other, when the outside state is [w] and [next] events exist already:
    each listener gets an event of its own, whose [value] is [accessor.get()]
    at the moment of its call, that is, after what the listeners before it
    have done. *)
Fixpoint deliveries (v : T) (ls : list listener) (w : W) (next : nat)
  : list (listener * LockedEvent) :=
  match ls with
  | [] => []
  | l :: ls' =>
      let ev := {| event_id := next; value := accessor_get w; newValue := v |} in
      (l, ev) :: deliveries v ls' (effect (behaviour l ev) w) (S next)
  end.

(** What all listeners may or may not do. *)
Definition only_forces : Prop :=
  ∀ l ev, Forall is_force (behaviour l ev).
Definition orderly : Prop :=
  ∀ l ev, Forall (λ a, is_force a ∨ is_change a) (behaviour l ev).
Definition never_forces : Prop :=
  ∀ l ev, Forall (λ a, ¬ is_force a) (behaviour l ev).
Definition never_writes : Prop :=
  ∀ l ev, Forall (λ a, ¬ is_write a) (behaviour l ev).
Definition never_sets : Prop :=
  ∀ l ev, Forall (λ a, ¬ is_force a ∧ ¬ is_write a) (behaviour l ev).
Definition quiet : Prop :=
  ∀ l ev,
    Forall (λ a, ¬ is_force a ∧ ¬ is_write a ∧ ¬ is_change a) (behaviour l ev).
Definition leave_value : Prop :=
  ∀ l ev w, accessor_get (effect (behaviour l ev) w) = accessor_get w.
Definition never_registers (l : listener) : Prop :=
  ∀ l' ev, Forall (λ a, ¬ registers l a) (behaviour l' ev).
Definition never_register : Prop := ∀ l, never_registers l.
Definition never_cancels (s : signal) : Prop :=
  ∀ l ev, Forall (λ a, a ≠ Cancel s) (behaviour l ev).

(** The calls of the listener [l] in a trace. *)
Definition calls_of (l : listener) (tr : list entry)
  : list (listener * LockedEvent) :=
  filter (λ c, c.1 = l) (invocations tr).

(** The claim that a locked write builds one event for the whole attempt:
    every listener in the registry is called once, in order, with that one
    event, which carries [accessor.get()] and the value of the attempt. *)
Definition one_event_per_attempt (v : T) (st : state) : Prop :=
  ∃ st' new ev,
    set_value (S (length (listeners st))) v st = Returned st' ∧
    trace st' = trace st ++ new ∧
    created st' = S (created st) ∧
    invocations new = (λ l, (l, ev)) <$> live (listeners st) ∧
    value ev = accessor_get (world st) ∧
    newValue ev = v.

(** [read_at_call w c new]: every listener call in the trace [new], which
    starts in the outside state [w] with [c] events built, hands over an
    event whose [value] is [accessor.get()] in the outside state of the moment
    of the call, and which is a new object. *)
Definition read_at_call (w : W) (c : nat) (new : list entry) : Prop :=
  ∀ k l ev,
    new !! k = Some (Invoked l ev) →
    value ev = accessor_get (replay (take k new) w) ∧
    event_id ev = c + length (invocations (take k new)).

Definition traced (st st' : state) : Prop :=
  ∃ new, trace st' = trace st ++ new ∧
         world st' = replay new (world st) ∧
         created st' = created st + length (invocations new) ∧
         read_at_call (world st) (created st) new.

(** The claim that a rejected write leaves everything as it was: while
    [lock()] is true, [store.value = v] comes with no call of [accessor.set],
    the outside state is the same afterwards, and so is what [store.value]
    reads. *)
Definition rejected_write_changes_nothing (v : T) (st : state) : Prop :=
  lock (world st) = true →
  ∀ fuel st',
    set_value fuel v st = Returned st' →
    (∀ s x, AccessorSet s x ∉ drop (length (trace st)) (trace st')) ∧
    world st' = world st ∧
    accessor_get (world st') = accessor_get (world st).

(** The claim that after [store.force(v)] a read returns [v]. *)
Definition force_stores (v : T) (st : state) : Prop :=
  get_value (force v st) = v.

(** [absent l st st']: [l] is not in the registry of [st'], and [st'] has no
    call of [l] that [st] has not. *)
Definition absent (l : listener) (st st' : state) : Prop :=
  (Some l ∉ listeners st') ∧
  calls_of l (trace st') = calls_of l (trace st).

(** [stays_out l st st']: when [l] is not in the registry of [st], it is
    [absent] from [st']. *)
Definition stays_out (l : listener) (st st' : state) : Prop :=
  Some l ∉ listeners st → absent l st st'.

End Lockable.

Arguments accessor : clear implicits.
Arguments LockedEvent : clear implicits.
Arguments action : clear implicits.
Arguments entry : clear implicits.
Arguments state : clear implicits.
Arguments result : clear implicits.

(** [lockable(lock, value)]: the accessor is a [get]/[set] pair over a fresh
    [$state] cell [val]; the state outside the store is what [lock] reads,
    and that cell. *)
Definition lockable_lock {T E} (lock : E → bool) : E * T → bool :=
  λ w, lock w.1.

Definition lockable_accessor {T E} : accessor T (E * T) :=
  GetSet (λ w, w.2) (λ _ v w, (w.1, v)).

Definition lockable {T E} (e : E) (value : T) : state T (E * T) :=
  from (e, value) [].

(** An accessor written with methods: [{ current, get() { return this.current },
    set(v) { this.current = v } }].  The state outside is the [current]
    property of the accessor, and the [current] property that the store
    object gets when [set] is called on it. *)
Definition method_accessor {T} : accessor T (T * option T) :=
  GetSet (λ w, w.1)
    (λ s v w,
       match s with
       | Setter => (v, w.2)
       | Forced => (w.1, Some v)
       end).

(** *** An example

    The store of the documentation's dialog: [lock] reads a loading flag, which
    is on, the value is ["A"], and two listeners are registered.  [passive]
    listeners only look at the event; of the [overriding] ones, listener [0]
    calls [force("C")]. *)
Definition example_lock : bool * string → bool :=
  lockable_lock (λ loading, loading).

Definition passive
  : nat → LockedEvent string → list (action string (bool * string)) :=
  λ _ _, [].

Definition overriding
  : nat → LockedEvent string → list (action string (bool * string)) :=
  λ l _, if l =? 0 then [Force "C"%string] else [].

Definition example_store : state string (bool * string) :=
  onupdateprevented 1 None (onupdateprevented 0 None (lockable true "A"%string)).

(** The second listener is unregistered; then come a write, a [force] and
    another write. *)
Definition example_ops : list (action string (bool * string)) :=
  [Write "B"%string; Force "D"%string; Write "E"%string].

Definition example_store_later : state string (bool * string) :=
  Eval vm_compute in
    default example_store
      (run_ops example_lock lockable_accessor passive 3 example_ops
         (cleanup 1 example_store)).

(** Listener [0] unregisters listener [1] when it is called. *)
Definition meddling
  : nat → LockedEvent string → list (action string (bool * string)) :=
  λ l _, if l =? 0 then [Unregister 1] else [].

(** The second listener is registered with the signal [7]. *)
Definition example_store_signal : state string (bool * string) :=
  onupdateprevented 1 (Some 7)
    (onupdateprevented 0 None (lockable true "A"%string)).

(** Listener [0] opens the lock and assigns ["C"] to the store; listener [1]
    throws. *)
Definition unlocking
  : nat → LockedEvent string → list (action string (bool * string)) :=
  λ l _, if l =? 0 then [Change (λ w, (false, w.2)); Write "C"%string]
         else [Throw].

(** The store with the accessor written with methods, whose [current] is
    ["A"], locked for good. *)
Definition example_method_store : state string (string * option string) :=
  from ("A"%string, None) [].

End Lockable.


(** * More of the library

    What follows covers the code around the stores: the flag a store
    contributes by itself, the intersection observer component, the snippet
    helpers and the component wrapper. *)

Module LoadingViews.
Import Loading.

Section LoadingViews.
Context {Env : Type}.

(** What a store object contributes by itself to an aggregate: [get()] for
    a store made by [create], the cell for a promised store. *)
Definition own (e : Env) (nd : node Env) : bool :=
  match nd with
  | Store g _ => run_getter e g
  | PromisedStore value _ => value
  end.

(** The three child factories, as events. *)
Definition creates_child (p : nat) (ev : event Env) : Prop :=
  (∃ initial, ev = Scoped p initial) ∨
  (∃ from, ev = Derived p from) ∨
  (∃ delay, ev = Promised p delay).

End LoadingViews.
End LoadingViews.

Module LockableViews.
Import Lockable.

Section LockableViews.
Context {T W : Type}.
Variable behaviour : nat → LockedEvent T → list (action T W).

(** The listeners whose [cleanup] is attached to the signal [s]. *)
Definition attached (s : nat) (st : state T W) : list nat :=
  (filter (λ h, h.1 = s) (abort_handlers st)).*2.

(** Listeners that, apart from calling [force], only ever call their own
    unregister function. *)
Definition self_only : Prop :=
  ∀ l ev, Forall (λ a, is_force a ∨ a = Unregister l) (behaviour l ev).

(** The listener [l] unregisters and registers itself again each time it is
    called. *)
Definition resubscribes (l : nat) : Prop :=
  ∀ ev, behaviour l ev = [Unregister l; Register l].

End LockableViews.

(** Listener [0] unregisters itself on its first call. *)
Definition once
  : nat → LockedEvent string → list (action string (bool * string)) :=
  λ l _, if l =? 0 then [Unregister 0] else [].

(** Listener [0] unregisters itself and registers itself again. *)
Definition restless
  : nat → LockedEvent string → list (action string (bool * string)) :=
  λ l _, if l =? 0 then [Unregister 0; Register 0] else [].

End LockableViews.


(** ** [IntersectionObserver.svelte]

    The component keeps the set [observing] of the elements its [observe]
    action is attached to, and the current [observer], which an effect builds
    anew whenever [ref], [root], [rootMargin] or [threshold] change. *)
Module Observer.

Section Observer.

(** [rootMargin] and [threshold], as they are handed to the constructor. *)
Context {Options : Type}.

(** An [IntersectionObserver] of the platform: the options it was made with
    and its observation targets. *)
Record IntersectionObserver := {
  root : nat;
  options : Options;
  targets : list nat
}.

(** The props the effect depends on; an element is [Some] of its identity,
    [null] is [None]. *)
Record props := {
  prop_ref : option nat;
  prop_root : option nat;
  prop_options : Options
}.

Record component := {
  observing : list nat;
  observer : option IntersectionObserver
}.

(** [Set.prototype.add] and [Set.prototype.delete]. *)
Definition set_add (x : nat) (s : list nat) : list nat :=
  if decide (x ∈ s) then s else s ++ [x].

Definition set_delete (x : nat) (s : list nat) : list nat :=
  filter (λ y, y ≠ x) s.

(** [observer.observe(el)] does nothing for a target it has already;
    [observer.unobserve(el)] takes the target out. *)
Definition io_observe (el : nat) (o : IntersectionObserver)
  : IntersectionObserver :=
  {| root := root o; options := options o; targets := set_add el (targets o) |}.

Definition io_unobserve (el : nat) (o : IntersectionObserver)
  : IntersectionObserver :=
  {| root := root o; options := options o;
     targets := set_delete el (targets o) |}.

(** [new Set()] and [let observer = null]. *)
Definition mount : component := {| observing := []; observer := None |}.

(** The function the effect returns: [observer.disconnect(); observer = null].
    It exists only when the effect has made an observer; otherwise there is
    no observer to drop. *)
Definition teardown (c : component) : component :=
  {| observing := observing c; observer := None |}.

(** [root || ref] and [root ?? ref] *)
Definition root_or_ref (p : props) : bool :=
  bool_decide (is_Some (prop_root p)) || bool_decide (is_Some (prop_ref p)).

Definition root_else_ref (p : props) : option nat :=
  match prop_root p with
  | Some r => Some r
  | None => prop_ref p
  end.

(** The body of the effect. *)
Definition effect_body (p : props) (c : component) : component :=
  if negb (root_or_ref p) then c
  else
    match root_else_ref p with
    | None => c
    | Some r =>
        {| observing := observing c;
           observer :=
             Some (foldl (λ o el, io_observe el o)
                     {| root := r; options := prop_options p; targets := [] |}
                     (observing c)) |}
    end.

(** A run of the effect after its dependencies have changed: the function
    returned by the run before is called first. *)
Definition effect (p : props) (c : component) : component :=
  effect_body p (teardown c).

(** The action [observe(node)] *)
Definition observe (node : nat) (c : component) : component :=
  {| observing := set_add node (observing c);
     observer := io_observe node <$> observer c |}.

(** The [destroy] of the action *)
Definition destroy (node : nat) (c : component) : component :=
  match observer c with
  | Some o =>
      {| observing := set_delete node (observing c);
         observer := Some (io_unobserve node o) |}
  | None => c
  end.

Inductive op :=
| Effect (p : props)
| Unmount
| Observe (node : nat)
| Destroy (node : nat).

Definition run (c : component) (o : op) : component :=
  match o with
  | Effect p => effect p c
  | Unmount => teardown c
  | Observe node => observe node c
  | Destroy node => destroy node c
  end.

End Observer.

Arguments IntersectionObserver : clear implicits.
Arguments props : clear implicits.
Arguments component : clear implicits.
Arguments op : clear implicits.

End Observer.

(** ** [snippet.ts] and [MaybeSnippet.svelte] *)
Module Snippets.

Section Snippets.

(** [Anchor] is what a snippet is rendered at (the anchor node in the
    browser, the payload on the server), [V] the values handed to snippets,
    [R] what rendering gives. *)
Context {Anchor V R : Type}.

(** An argument as a snippet gets it: in the browser a function that returns
    the value, on the server the value. *)
Inductive arg :=
| Getter (get : unit → V)
| Plain (v : V).

Definition read (a : arg) : V :=
  match a with
  | Getter get => get tt
  | Plain v => v
  end.

Definition is_getter (a : arg) : bool :=
  match a with
  | Getter _ => true
  | Plain _ => false
  end.

Definition Snippet := Anchor → list arg → R.

(** [params.map((v) => () => v)] in the browser, [params] on the server. *)
Definition as_args (BROWSER : bool) (params : list V) : list arg :=
  if BROWSER then (λ v, Getter (λ _, v)) <$> params else Plain <$> params.

(** [wrapSnippet(snippet, ...params)] *)
Definition wrapSnippet (BROWSER : bool) (snippet : Snippet) (params : list V)
  : Snippet :=
  if BROWSER then
    let p := (λ v, Getter (λ _, v)) <$> params in
    λ anchor args, snippet anchor (p ++ args)
  else
    λ anchor args, snippet anchor ((Plain <$> params) ++ args).

(** The [value] and [children] props of [MaybeSnippet]. *)
Inductive SnippetOrString :=
| IsSnippet (snippet : Snippet)
| IsString (value : string)
| IsNull
| IsUndefined.

(** How a string becomes a value, and the snippet [_renderValue] of the
    component, which renders its argument as text. *)
Variable of_string : string → V.
Variable _renderValue : Snippet.

Definition createRenderValue (BROWSER : bool) (value : string) : Anchor → R :=
  if BROWSER
  then λ anchor, _renderValue anchor [Getter (λ _, of_string value)]
  else λ anchor, _renderValue anchor [Plain (of_string value)].

Definition createRenderSnippet (BROWSER : bool) (snippet : Snippet)
    (params : list V) : Anchor → R :=
  if BROWSER
  then λ anchor, snippet anchor ((λ p, Getter (λ _, p)) <$> params)
  else λ anchor, snippet anchor (Plain <$> params).

Definition wrapMaybeSnippet (BROWSER : bool) (snippet : SnippetOrString)
    (params : list V) : option (Anchor → R) :=
  match snippet with
  | IsSnippet s => Some (createRenderSnippet BROWSER s params)
  | IsString value => Some (createRenderValue BROWSER value)
  | IsNull | IsUndefined => None
  end.

(** [renderValue ?? renderFallback] *)
Definition renderer (BROWSER : bool) (value children : SnippetOrString)
    (params : list V) : option (Anchor → R) :=
  match wrapMaybeSnippet BROWSER value params with
  | Some r => Some r
  | None => wrapMaybeSnippet BROWSER children params
  end.

(** [{@render renderer?.()}] *)
Definition render (BROWSER : bool) (value children : SnippetOrString)
    (params : list V) (anchor : Anchor) : option R :=
  (λ r, r anchor) <$> renderer BROWSER value children params.

Definition nullish (s : SnippetOrString) : Prop :=
  s = IsNull ∨ s = IsUndefined.

End Snippets.

Arguments arg : clear implicits.
Arguments Snippet : clear implicits.
Arguments SnippetOrString : clear implicits.

End Snippets.

(** ** [Componentize.svelte] *)
Module Componentize.

Section Componentize.

(** [V] are the values of props, [Ctx] is what [getAllContexts()] returns. *)
Context {Anchor V Ctx R : Type}.

(** A snippet of two arguments, the props and the contexts. *)
Definition Snippet := Anchor → gmap string V → Ctx → R.

(** The props of the component [Self]. *)
Record props := {
  slots : option V;
  events : option V;
  legacy : option V;
  snippet : Snippet;
  params : option (gmap string V)
}.

(** The component of the file: [let { snippet, params = {} } = $props()],
    [const contexts = getAllContexts()], [{@render snippet(params, contexts)}]. *)
Definition Self (getAllContexts : Ctx) (anchor : Anchor) (p : props) : R :=
  snippet p anchor (default ∅ (params p)) getAllContexts.

(** [componentize(snippet)]: the props object is built, the three keys are
    deleted from [params], which the props object holds, and [Self] is
    called. *)
Definition componentize (getAllContexts : Ctx) (snippet : Snippet)
  : Anchor → gmap string V → R :=
  λ anchor params,
    let props := (params !! "$$slots", params !! "$$events",
                  params !! "$$legacy") in
    let params :=
      delete "$$legacy" (delete "$$events" (delete "$$slots" params)) in
    Self getAllContexts anchor
      {| slots := props.1.1; events := props.1.2; legacy := props.2;
         snippet := snippet; params := Some params |}.

Definition reserved : list string := ["$$slots"; "$$events"; "$$legacy"].

End Componentize.
End Componentize.

(** * Properties of the loading-state tree *)

Section LoadingTheory.
Import Loading.

Context {Env : Type}.
Implicit Types (h : list (node Env)) (w : world Env) (e : Env).
Implicit Types (n p c : ref) (vs : list ref) (g : getter Env).

(** ** The loop of [current] *)

Lemma foldl_or_step_None (read : ref → option bool) vs :
  foldl (or_step read) None vs = None.
Proof. induction vs as [|v vs IH]; simpl; auto. Qed.

Lemma foldl_or_step_true (read : ref → option bool) vs :
  foldl (or_step read) (Some true) vs = Some true.
Proof. induction vs as [|v vs IH]; simpl; auto. Qed.

Lemma foldl_or_step (read : ref → option bool) vs kids a :
  Forall2 (λ c b, read c = Some b) vs kids →
  foldl (or_step read) (Some a) vs = Some (a || existsb id kids).
Proof.
  intros HF. revert a.
  induction HF as [|c b vs kids Hc _ IH]; intros a; simpl.
  - by rewrite orb_false_r.
  - destruct a; simpl.
    + apply foldl_or_step_true.
    + rewrite Hc. apply IH.
Qed.

Lemma foldl_or_step_ext (r1 r2 : ref → option bool) vs acc :
  (∀ c, c ∈ vs → r1 c = r2 c) →
  foldl (or_step r1) acc vs = foldl (or_step r2) acc vs.
Proof.
  revert acc. induction vs as [|v vs IH]; intros acc Hr; simpl; [done|].
  assert (or_step r1 acc v = or_step r2 acc v) as ->.
  { destruct acc as [[]|]; simpl; auto. apply Hr. left. }
  apply IH. intros c Hc. apply Hr. by right.
Qed.

Lemma foldl_or_step_mono (r1 r2 : ref → option bool) vs acc b :
  (∀ c x, c ∈ vs → r1 c = Some x → r2 c = Some x) →
  foldl (or_step r1) acc vs = Some b →
  foldl (or_step r2) acc vs = Some b.
Proof.
  revert acc. induction vs as [|v vs IH]; intros acc Hr; simpl; [done|].
  intros H. apply IH; [intros c x Hc; apply Hr; by right|].
  destruct acc as [[]|]; simpl in *; auto.
  destruct (r1 v) as [x|] eqn:E.
  - rewrite (Hr v x); [done|left|done].
  - by rewrite foldl_or_step_None in H.
Qed.

Lemma foldl_or_step_is_Some (read : ref → option bool) vs a :
  (∀ c, c ∈ vs → is_Some (read c)) →
  is_Some (foldl (or_step read) (Some a) vs).
Proof.
  revert a. induction vs as [|v vs IH]; intros a Hr; simpl; [by eexists|].
  destruct a; simpl.
  - apply IH. intros c Hc. apply Hr. by right.
  - destruct (Hr v) as [x ->]; [left|].
    apply IH. intros c Hc. apply Hr. by right.
Qed.

(** ** Fuel *)

Lemma current_unfold k e h n :
  current (S k) e h n =
  match h !! n with
  | None => None
  | Some (PromisedStore value _) => Some value
  | Some (Store get values) =>
      foldl (or_step (current k e h)) (Some (run_getter e get)) values
  end.
Proof. reflexivity. Qed.

Lemma current_S fuel e h n b :
  current fuel e h n = Some b → current (S fuel) e h n = Some b.
Proof.
  revert n b. induction fuel as [|k IH]; intros n b; [done|].
  rewrite (current_unfold (S k)), (current_unfold k).
  destruct (h !! n) as [[g vs|v t]|]; try done.
  apply foldl_or_step_mono. intros c x _. apply IH.
Qed.

Lemma current_le k k' e h n b :
  k ≤ k' → current k e h n = Some b → current k' e h n = Some b.
Proof.
  induction 1 as [|k' _ IH]; [done|]. intros H. by apply current_S, IH.
Qed.

Lemma current_total fuel e h n :
  wf h → n < length h → length h - n ≤ fuel →
  is_Some (current fuel e h n).
Proof.
  intros Hwf. revert n. induction fuel as [|k IH]; intros n Hn Hk; [lia|].
  rewrite current_unfold.
  destruct (lookup_lt_is_Some_2 h n Hn) as [nd Hnd]. rewrite Hnd.
  destruct nd as [g vs|v t]; [|by eexists].
  apply foldl_or_step_is_Some. intros c Hc.
  destruct (wf_order h Hwf n _ c Hnd Hc). apply IH; lia.
Qed.

(** With the heap's size as fuel, [store.value] returns. *)
Lemma get_value_returns w n :
  wf (heap w) → n < length (heap w) →
  ∃ b, get_value n w = Returns b w.
Proof.
  intros Hwf Hn. unfold get_value.
  destruct (current_total (length (heap w)) (env w) (heap w) n Hwf Hn)
    as [b ->]; [lia|]. by exists b.
Qed.

Lemma get_value_inv w n b w' :
  get_value n w = Returns b w' →
  w' = w ∧ current (length (heap w)) (env w) (heap w) n = Some b.
Proof.
  unfold get_value. destruct (current _ _ _ _); [|done].
  by intros [= -> ->].
Qed.

(** C1.  Reading [n.value] on a store made by [create] returns its own flag
    ([get()]) or-ed with what the [value] getter of every member of its
    [values] set returns at that moment; the read leaves the state as it is,
    so nothing is kept from one read to the next. *)
Theorem value_is_or_of_children w n g vs :
  wf (heap w) →
  heap w !! n = Some (Store g vs) →
  ∃ kids : list bool,
    Forall2 (λ c b, get_value c w = Returns b w) vs kids ∧
    get_value n w = Returns (run_getter (env w) g || existsb id kids) w.
Proof.
  intros Hwf Hn.
  assert (n < length (heap w)) as Hlt by (by eapply lookup_lt_Some).
  set (L := length (heap w)) in *.
  set (value c := default false (current L (env w) (heap w) c)).
  assert (∀ c, c ∈ vs → current (pred L) (env w) (heap w) c = Some (value c)
                        ∧ current L (env w) (heap w) c = Some (value c))
    as Hkids.
  { intros c Hc. destruct (wf_order _ Hwf n _ c Hn Hc) as [Hnc HcL].
    destruct (current_total (pred L) (env w) (heap w) c Hwf HcL) as [b Hb];
      [unfold L; lia|].
    assert (current L (env w) (heap w) c = Some b) as Hb'.
    { eapply current_le; [|exact Hb]. lia. }
    unfold value. by rewrite Hb'. }
  exists (value <$> vs). split.
  - apply Forall2_fmap_r, Forall_Forall2_diag, Forall_forall.
    intros c Hc. unfold get_value. fold L.
    by rewrite (proj2 (Hkids c Hc)).
  - unfold get_value. fold L. destruct L as [|k] eqn:EL; [lia|].
    rewrite current_unfold, Hn.
    erewrite foldl_or_step; [done|].
    apply Forall2_fmap_r, Forall_Forall2_diag, Forall_forall.
    intros c Hc. apply (Hkids c Hc).
Qed.

(** ** The shape of the heap is kept *)

Lemma wf_nil : wf (@nil (node Env)).
Proof. constructor; intros *; by rewrite lookup_nil. Qed.

Lemma wf_alloc h nd : wf h → children nd = [] → wf (h ++ [nd]).
Proof.
  intros Hwf Hnd.
  assert (∀ i x, (h ++ [nd]) !! i = Some x → children x ≠ [] → h !! i = Some x)
    as Hold.
  { intros i x Hi Hx. apply lookup_app_Some in Hi as [Hi|[_ Hi]]; [done|].
    apply list_lookup_singleton_Some in Hi as [_ <-]. congruence. }
  assert (∀ i x c, (h ++ [nd]) !! i = Some x → c ∈ children x → h !! i = Some x)
    as Hold'.
  { intros i x c Hi Hc. apply Hold; [done|]. intros E. rewrite E in Hc.
    by apply not_elem_of_nil in Hc. }
  constructor.
  - intros i x c Hi Hc. rewrite length_app. simpl.
    destruct (wf_order h Hwf i x c (Hold' _ _ _ Hi Hc) Hc). lia.
  - intros i x Hi. destruct (children x) as [|c l] eqn:E; [constructor|].
    rewrite <- E. eapply (wf_nodup h Hwf i), Hold; [done|congruence].
  - intros i j ni nj c Hi Hj Hci Hcj.
    eapply (wf_parent h Hwf); eauto.
Qed.

Lemma wf_insert h i nd nd' :
  wf h → h !! i = Some nd →
  (∀ c, c ∈ children nd' → c ∈ children nd) → NoDup (children nd') →
  wf (<[i:=nd']> h).
Proof.
  intros Hwf Hi Hsub Hnd.
  assert (∀ j x c, <[i:=nd']> h !! j = Some x → c ∈ children x →
            ∃ y, h !! j = Some y ∧ c ∈ children y) as Hold.
  { intros j x c Hj Hc.
    apply list_lookup_insert_Some in Hj as [(<- & <- & _)|[_ Hj]]; eauto. }
  constructor.
  - intros j x c Hj Hc. rewrite length_insert.
    destruct (Hold _ _ _ Hj Hc) as (y & Hy & Hcy).
    eapply (wf_order h Hwf); eauto.
  - intros j x Hj.
    apply list_lookup_insert_Some in Hj as [(<- & <- & _)|[_ Hj]]; [done|].
    eapply (wf_nodup h Hwf); eauto.
  - intros j k nj nk c Hj Hk Hcj Hck.
    destruct (Hold _ _ _ Hj Hcj) as (y & Hy & Hcy).
    destruct (Hold _ _ _ Hk Hck) as (z & Hz & Hcz).
    eapply (wf_parent h Hwf); eauto.
Qed.

Lemma wf_register h p g vs c :
  wf h → h !! p = Some (Store g vs) → p < c < length h → detached h c →
  wf (<[p:=Store g (set_add c vs)]> h).
Proof.
  intros Hwf Hp Hc Hdet.
  assert (c ∉ vs) as Hcvs by apply (Hdet p _ Hp).
  unfold set_add. rewrite decide_False by done.
  assert (∀ j x y, <[p:=Store g (vs ++ [c])]> h !! j = Some x → y ∈ children x →
            (j = p ∧ y = c) ∨ ∃ z, h !! j = Some z ∧ y ∈ children z) as Hold.
  { intros j x y Hj Hy.
    apply list_lookup_insert_Some in Hj as [(<- & <- & _)|[_ Hj]]; [|eauto].
    simpl in Hy. apply elem_of_app in Hy as [Hy|Hy]; [eauto|].
    apply list_elem_of_singleton in Hy. auto. }
  constructor.
  - intros j x y Hj Hy. rewrite length_insert.
    destruct (Hold _ _ _ Hj Hy) as [[-> ->]|(z & Hz & Hyz)]; [done|].
    eapply (wf_order h Hwf); eauto.
  - intros j x Hj.
    apply list_lookup_insert_Some in Hj as [(<- & <- & _)|[_ Hj]].
    + simpl. apply NoDup_app. split; [apply (wf_nodup h Hwf p _ Hp)|].
      split; [|apply NoDup_singleton].
      intros y Hy Hy'. apply list_elem_of_singleton in Hy' as ->. done.
    + eapply (wf_nodup h Hwf); eauto.
  - intros j k nj nk y Hj Hk Hyj Hyk.
    destruct (Hold _ _ _ Hj Hyj) as [[? ?]|(z & Hz & Hyz)];
      destruct (Hold _ _ _ Hk Hyk) as [[? ?]|(z' & Hz' & Hyz')];
      subst; try done.
    + by destruct (Hdet _ _ Hz').
    + by destruct (Hdet _ _ Hz).
    + eapply (wf_parent h Hwf); eauto.
Qed.

Lemma elem_of_set_delete (x y : ref) vs :
  x ∈ set_delete y vs ↔ x ≠ y ∧ x ∈ vs.
Proof. unfold set_delete. by rewrite list_elem_of_filter. Qed.

Lemma wf_delete h p g vs c :
  wf h → h !! p = Some (Store g vs) →
  wf (<[p:=Store g (set_delete c vs)]> h).
Proof.
  intros Hwf Hp. eapply wf_insert; [done..| |]; simpl.
  - intros x Hx. by apply elem_of_set_delete in Hx as [_ ?].
  - apply NoDup_filter, (wf_nodup h Hwf p _ Hp).
Qed.

Lemma detached_delete h p g vs c :
  wf h → h !! p = Some (Store g vs) → c ∈ vs →
  detached (<[p:=Store g (set_delete c vs)]> h) c.
Proof.
  intros Hwf Hp Hc j nj Hj Hcj.
  apply list_lookup_insert_Some in Hj as [(<- & <- & _)|[Hne Hj]].
  - simpl in Hcj. by apply elem_of_set_delete in Hcj as [? _].
  - apply Hne. eapply (wf_parent h Hwf); eauto.
Qed.

(** ** What a read depends on *)

Lemma subtree_le h c x : wf h → subtree h c x → c ≤ x.
Proof.
  intros Hwf. induction 1 as [|x nd y _ IH Hx Hy]; [done|].
  destruct (wf_order h Hwf x nd y Hx Hy). lia.
Qed.

(** A store outside the subtree of a detached store has all the members of
    its [values] set outside that subtree. *)
Lemma outside_children h c a nd x :
  wf h → detached h c → ¬ subtree h c a →
  h !! a = Some nd → x ∈ children nd → ¬ subtree h c x.
Proof.
  intros Hwf Hdet Ha Hnd Hx Hsub.
  inversion Hsub as [|y ny ? Hy Hny Hxy]; subst.
  - by apply (Hdet a nd).
  - assert (y = a) as -> by (eapply (wf_parent h Hwf); eauto). done.
Qed.

Lemma current_outside fuel e h1 h2 c a :
  wf h1 → detached h1 c →
  (∀ i, i < length h1 → ¬ subtree h1 c i → h2 !! i = h1 !! i) →
  a < length h1 → ¬ subtree h1 c a →
  current fuel e h2 a = current fuel e h1 a.
Proof.
  intros Hwf Hdet Hsame. revert a.
  induction fuel as [|k IH]; intros a Ha Hout; [done|].
  rewrite !current_unfold, (Hsame a Ha Hout).
  destruct (h1 !! a) as [[g vs|v t]|] eqn:Hnd; try done.
  apply foldl_or_step_ext. intros x Hx.
  destruct (wf_order h1 Hwf a _ x Hnd Hx).
  apply IH; [done|]. eapply outside_children; eauto.
Qed.

(** ** The child factories *)

Lemma fresh_not_member h p g vs :
  wf h → h !! p = Some (Store g vs) → set_add (length h) vs = vs ++ [length h].
Proof.
  intros Hwf Hp. unfold set_add. rewrite decide_False; [done|].
  intros Hin. destruct (wf_order h Hwf p _ _ Hp Hin). lia.
Qed.

Lemma scoped_returns w p g vs initial :
  wf (heap w) → heap w !! p = Some (Store g vs) →
  scoped p initial w =
  Returns (length (heap w))
    (World (env w) (with_child (heap w) p g vs (Store (GState initial) []))
       (hooks w ++ [(p, length (heap w))]) (now w)).
Proof.
  intros Hwf Hp. unfold scoped, is_store, create, values_add, bind, load,
    alloc, onDestroy, store_at, ret; simpl.
  rewrite Hp; simpl. rewrite (lookup_app_l_Some _ _ _ _ Hp).
  by rewrite (fresh_not_member _ _ _ _ Hwf Hp).
Qed.

Lemma derived_returns w p g vs from :
  wf (heap w) → heap w !! p = Some (Store g vs) →
  derived p from w =
  Returns (length (heap w))
    (World (env w) (with_child (heap w) p g vs (Store (GDerived from) []))
       (hooks w ++ [(p, length (heap w))]) (now w)).
Proof.
  intros Hwf Hp. unfold derived, is_store, create, values_add, bind, load,
    alloc, onDestroy, store_at, ret; simpl.
  rewrite Hp; simpl. rewrite (lookup_app_l_Some _ _ _ _ Hp).
  by rewrite (fresh_not_member _ _ _ _ Hwf Hp).
Qed.

Lemma timer_delay_fits delay :
  (Z.of_nat delay ≤ TIMEOUT_MAX)%Z → timer_delay delay = delay.
Proof. intros H. unfold timer_delay. apply Z.leb_le in H. by rewrite H. Qed.

Lemma timer_delay_beyond delay :
  (TIMEOUT_MAX < Z.of_nat delay)%Z → timer_delay delay = 1.
Proof. intros H. unfold timer_delay. apply Z.leb_gt in H. by rewrite H. Qed.

Lemma promised_returns w p g vs delay :
  wf (heap w) → heap w !! p = Some (Store g vs) →
  promised p delay w =
  Returns (length (heap w))
    (World (env w)
       (with_child (heap w) p g vs
          (PromisedStore false (Some (now w + timer_delay delay))))
       (hooks w ++ [(p, length (heap w))]) (now w)).
Proof.
  intros Hwf Hp. unfold promised, is_store, values_add, bind, load,
    alloc, onDestroy, store_at, ret; simpl.
  rewrite Hp; simpl. rewrite (lookup_app_l_Some _ _ _ _ Hp).
  by rewrite (fresh_not_member _ _ _ _ Hwf Hp).
Qed.

Lemma wf_with_child h p g vs nd :
  wf h → h !! p = Some (Store g vs) → children nd = [] →
  wf (with_child h p g vs nd).
Proof.
  intros Hwf Hp Hnd. unfold with_child.
  pose proof (lookup_lt_Some _ _ _ Hp) as Hlt.
  assert (wf (h ++ [nd])) as Hwf' by by apply wf_alloc.
  assert ((h ++ [nd]) !! p = Some (Store g vs)) as Hp'
    by by apply lookup_app_l_Some.
  assert (detached (h ++ [nd]) (length h)) as Hdet.
  { intros j nj Hj Hin. apply lookup_app_Some in Hj as [Hj|[_ Hj]].
    - destruct (wf_order h Hwf j _ _ Hj Hin). lia.
    - apply list_lookup_singleton_Some in Hj as [_ <-].
      rewrite Hnd in Hin. by apply not_elem_of_nil in Hin. }
  pose proof (wf_register _ p g vs (length h) Hwf' Hp') as H.
  unfold set_add in H. rewrite decide_False in H by apply (Hdet p _ Hp').
  apply H; [|done]. rewrite length_app; simpl; lia.
Qed.

(** The child is in the [values] set of its creator, and the callback that
    takes it out again is registered with [onDestroy]. *)
Lemma with_child_registered h p g vs nd :
  h !! p = Some (Store g vs) →
  with_child h p g vs nd !! p = Some (Store g (vs ++ [length h])) ∧
  with_child h p g vs nd !! length h = Some nd.
Proof.
  intros Hp. pose proof (lookup_lt_Some _ _ _ Hp) as Hlt. unfold with_child.
  split.
  - apply list_lookup_insert_eq. rewrite length_app. lia.
  - rewrite list_lookup_insert_ne by lia.
    rewrite lookup_app_r by lia. by rewrite Nat.sub_diag.
Qed.

(** ** Teardown *)

Lemma set_delete_absent (c : ref) vs : c ∉ vs → set_delete c vs = vs.
Proof.
  unfold set_delete. induction vs as [|x vs IH]; intros Hc; [done|].
  apply not_elem_of_cons in Hc as [Hne Hc].
  rewrite filter_cons_True by done. by rewrite IH.
Qed.

Lemma set_delete_length (c : ref) vs :
  NoDup vs → c ∈ vs → S (length (set_delete c vs)) = length vs.
Proof.
  unfold set_delete. induction 1 as [|x vs Hx Hnd IH]; intros Hc.
  - by apply not_elem_of_nil in Hc.
  - rewrite filter_cons. destruct (decide (x ≠ c)) as [Hne|Heq]; simpl.
    + f_equal. apply IH. apply elem_of_cons in Hc as [->|]; done.
    + assert (x = c) as -> by (destruct (decide (x = c)); tauto).
      f_equal. f_equal. by apply (set_delete_absent c vs).
Qed.

Lemma set_delete_idemp (c : ref) vs :
  set_delete c (set_delete c vs) = set_delete c vs.
Proof. unfold set_delete. apply list_filter_filter_l. auto. Qed.

Lemma values_delete_returns w p g vs c :
  heap w !! p = Some (Store g vs) →
  values_delete p c w =
  Returns tt (World (env w) (<[p:=Store g (set_delete c vs)]> (heap w))
                (hooks w) (now w)).
Proof.
  intros Hp. unfold values_delete, bind, load, store_at. by rewrite Hp.
Qed.

(** C6.  A store [c] that sits in the [values] set of [p], where [scoped],
    [derived] and [promised] put it, is taken out by the teardown callback
    [values.delete(c)]: the set loses [c] and nothing else; running the
    callback again changes nothing; and from then on every ancestor [a] of [c]
    reads the same [value] in any later state that differs only inside the
    subtree of [c], so no change of [c] reaches [a]. *)
Theorem teardown_detaches w p g vs c :
  wf (heap w) →
  heap w !! p = Some (Store g vs) →
  c ∈ vs →
  ∃ w1,
    values_delete p c w = Returns tt w1 ∧
    heap w1 !! p = Some (Store g (set_delete c vs)) ∧
    (∀ x, x ∈ set_delete c vs ↔ x ≠ c ∧ x ∈ vs) ∧
    S (length (set_delete c vs)) = length vs ∧
    values_delete p c w1 = Returns tt w1 ∧
    ∀ a, subtree (heap w) a c → a ≠ c →
      ∀ w2,
        env w2 = env w1 →
        length (heap w1) ≤ length (heap w2) →
        (∀ i, i < length (heap w1) → ¬ subtree (heap w1) c i →
              heap w2 !! i = heap w1 !! i) →
        ∃ b, get_value a w1 = Returns b w1 ∧ get_value a w2 = Returns b w2.
Proof.
  intros Hwf Hp Hc.
  pose proof (lookup_lt_Some _ _ _ Hp) as Hlt.
  eexists. split; [by apply values_delete_returns|]. simpl.
  set (h1 := <[p:=Store g (set_delete c vs)]> (heap w)).
  assert (h1 !! p = Some (Store g (set_delete c vs))) as Hp1
    by by apply list_lookup_insert_eq.
  assert (wf h1) as Hwf1 by by apply wf_delete.
  assert (detached h1 c) as Hdet by by apply detached_delete.
  assert (length h1 = length (heap w)) as Hlen by apply length_insert.
  split; [done|]. split; [intros x; apply elem_of_set_delete|].
  split; [apply set_delete_length; [apply (wf_nodup _ Hwf p _ Hp)|done]|].
  split.
  { erewrite values_delete_returns by (simpl; exact Hp1). simpl.
    rewrite set_delete_idemp. fold h1. by rewrite (list_insert_id h1 p). }
  intros a Hanc Hne w2 Henv Hle Hsame.
  pose proof (subtree_le _ _ _ Hwf Hanc) as Hac.
  destruct (wf_order _ Hwf p _ c Hp Hc) as [_ HcL].
  assert (¬ subtree h1 c a) as Hout.
  { intros Hsub. apply (subtree_le _ _ _ Hwf1) in Hsub. lia. }
  assert (a < length h1) as Ha by lia.
  destruct (current_total (length h1) (env w) h1 a Hwf1 Ha) as [b Hb];
    [lia|].
  exists b. unfold get_value; simpl. rewrite Hb. split; [done|].
  rewrite Henv; simpl.
  rewrite (current_outside _ _ h1 (heap w2) c a Hwf1 Hdet Hsame Ha Hout).
  by rewrite (current_le _ _ _ _ _ _ Hle Hb).
Qed.

(** ** Read-only stores *)

(** C5.  Assigning to [value] on a derived store throws the error of
    [readonly_error], and on a promised store the error of a property that has
    only a getter; either way the state at the throw is the state before the
    assignment, so every later read is what it would have been. *)
Theorem readonly_value_throws w n nd val :
  heap w !! n = Some nd →
  (∃ from vs, nd = Store (GDerived from) vs) ∨
  (∃ value timeout, nd = PromisedStore value timeout) →
  ∃ err,
    set_value n val w = Throws err w ∧
    err = match nd with
          | Store _ _ => ReadonlyProperty
          | PromisedStore _ _ => GetterOnly
          end.
Proof.
  intros Hn [(from & vs & ->)|(value & timeout & ->)];
    eexists; unfold set_value, bind, load, readonly_error, throw; rewrite Hn;
    eauto.
Qed.

(** ** [or] *)

(** C8.  [n.or(x)] returns what [n.value] returns, or-ed with [Boolean(x)],
    and leaves the state as it is: on a store whose [value] is false it is
    [Boolean(x)], on one whose [value] is true it is [true]. *)
Theorem or_is_value_or_boolean w n x :
  wf (heap w) →
  n < length (heap w) →
  ∃ b,
    get_value n w = Returns b w ∧
    or_ n x w = Returns (b || Boolean x) w ∧
    (b = false → or_ n x w = Returns (Boolean x) w) ∧
    (b = true → or_ n x w = Returns true w).
Proof.
  intros Hwf Hn. destruct (get_value_returns w n Hwf Hn) as [b Hb].
  exists b. split; [done|].
  assert (or_ n x w = Returns (b || Boolean x) w) as Hor.
  { destruct (lookup_lt_is_Some_2 _ _ Hn) as [nd Hnd].
    unfold or_, bind, load, ret. rewrite Hnd. destruct nd as [g vs|v t].
    - by rewrite Hb.
    - apply get_value_inv in Hb as [_ Hb].
      destruct (length (heap w)) as [|k]; [done|].
      rewrite current_unfold, Hnd in Hb. by injection Hb as ->. }
  split; [done|]. split; intros ->; by rewrite Hor.
Qed.

(** ** The promised store over time *)

Lemma update_update n (nd nd' : node Env) w :
  update n nd' (update n nd w) = update n nd' w.
Proof. unfold update; simpl. by rewrite list_insert_insert_eq. Qed.

Lemma update_id n (nd : node Env) w :
  heap w !! n = Some nd → update n nd w = w.
Proof. intros H. destruct w. unfold update; simpl in *. by rewrite list_insert_id. Qed.

Lemma update_lookup n (nd nd' : node Env) w :
  heap w !! n = Some nd → heap (update n nd' w) !! n = Some nd'.
Proof.
  intros H. simpl. apply list_lookup_insert_eq. by eapply lookup_lt_Some.
Qed.

Lemma timeout_callback_at w n v t :
  heap w !! n = Some (PromisedStore v t) →
  timeout_callback n w = Returns tt (update n (PromisedStore true t) w).
Proof. intros H. unfold timeout_callback, bind, load, store_at. by rewrite H. Qed.

Lemma cleanup_at w n v t :
  heap w !! n = Some (PromisedStore v t) →
  cleanup n w = Returns tt (update n (PromisedStore v None) w).
Proof. intros H. unfold cleanup, bind, load, store_at. by rewrite H. Qed.

Lemma expire_at w n v t :
  heap w !! n = Some (PromisedStore v t) →
  expire n w = Returns tt (update n (PromisedStore v None) w).
Proof. intros H. unfold expire, bind, load, store_at. by rewrite H. Qed.

Lemma finally_callback_at w n v t :
  heap w !! n = Some (PromisedStore v t) →
  finally_callback n w = Returns tt (update n (PromisedStore false None) w).
Proof.
  intros H. unfold finally_callback, bind, load. rewrite H.
  unfold store_at at 1.
  erewrite cleanup_at by (eapply update_lookup, H).
  by rewrite update_update.
Qed.

Lemma run_timer_at w n v t :
  heap w !! n = Some (PromisedStore v t) →
  run_timer n w =
  Returns tt (match t with
              | Some d => if d <=? now w
                          then update n (PromisedStore true None) w else w
              | None => w
              end).
Proof.
  intros H. unfold run_timer, timer_due. rewrite H.
  destruct t as [d|]; [|done]. destruct (d <=? now w); [|done].
  unfold bind. rewrite (expire_at _ _ _ _ H).
  erewrite timeout_callback_at by (eapply update_lookup, H).
  by rewrite update_update.
Qed.

Lemma run_promise_at w n v t settles_at o :
  heap w !! n = Some (PromisedStore v t) →
  run_promise settles_at o n w =
  Returns tt (if now w =? settles_at
              then update n (PromisedStore false None) w else w).
Proof.
  intros H. unfold run_promise, promise_settles.
  destruct (now w =? settles_at); [|done].
  destruct o; by rewrite (finally_callback_at _ _ _ _ H).
Qed.

(** One turn of the event loop, [ms] milliseconds after the creation, takes
    the store from what it was after [ms - 1] milliseconds to
    [promised_after ... ms]. *)
Lemma turn_at tf o w n created delay settles ms :
  settles ≠ delay →
  now w = created + ms →
  heap w !! n =
    Some (PromisedStore (bool_decide (delay < ms ≤ settles))
            (if decide (ms ≤ delay ∧ ms ≤ settles) then Some (created + delay)
             else None)) →
  turn tf (created + settles) o n w =
  Returns tt (update n (promised_after created delay settles ms) w).
Proof.
  intros Hne Hnow Hn. unfold turn, promised_after, bind.
  destruct tf.
  - rewrite (run_timer_at _ _ _ _ Hn).
    destruct (decide (ms ≤ delay ∧ ms ≤ settles)) as [Hle|Hle].
    + destruct (Nat.leb_spec (created + delay) (now w)) as [Hd|Hd].
      * erewrite run_promise_at by (eapply update_lookup, Hn). simpl.
        destruct (Nat.eqb_spec (now w) (created + settles)); [lia|].
        f_equal. f_equal. f_equal.
        -- symmetry. apply bool_decide_eq_true. lia.
        -- rewrite decide_False; [done|lia].
      * rewrite (run_promise_at _ _ _ _ _ _ Hn).
        destruct (Nat.eqb_spec (now w) (created + settles)).
        -- f_equal. f_equal. f_equal.
           ++ symmetry. apply bool_decide_eq_false. lia.
           ++ rewrite decide_False; [done|lia].
        -- rewrite <- (update_id n _ w Hn) at 1. f_equal. f_equal. f_equal.
           ++ apply bool_decide_ext. lia.
           ++ rewrite decide_True; [done|lia].
    + rewrite (run_promise_at _ _ _ _ _ _ Hn).
      destruct (Nat.eqb_spec (now w) (created + settles)).
      * f_equal. f_equal. f_equal.
        -- symmetry. apply bool_decide_eq_false. lia.
        -- rewrite decide_False; [done|lia].
      * rewrite <- (update_id n _ w Hn) at 1. f_equal. f_equal. f_equal.
        -- apply bool_decide_ext. lia.
        -- rewrite decide_False; [done|lia].
  - rewrite (run_promise_at _ _ _ _ _ _ Hn).
    destruct (Nat.eqb_spec (now w) (created + settles)) as [Hs|Hs].
    + erewrite run_timer_at by (eapply update_lookup, Hn).
      f_equal. f_equal. f_equal.
      * symmetry. apply bool_decide_eq_false. lia.
      * rewrite decide_False; [done|lia].
    + rewrite (run_timer_at _ _ _ _ Hn).
      destruct (decide (ms ≤ delay ∧ ms ≤ settles)) as [Hle|Hle].
      * destruct (Nat.leb_spec (created + delay) (now w)) as [Hd|Hd].
        -- f_equal. f_equal. f_equal.
           ++ symmetry. apply bool_decide_eq_true. lia.
           ++ rewrite decide_False; [done|lia].
        -- rewrite <- (update_id n _ w Hn) at 1. f_equal. f_equal. f_equal.
           ++ apply bool_decide_ext. lia.
           ++ rewrite decide_True; [done|lia].
      * rewrite <- (update_id n _ w Hn) at 1. f_equal. f_equal. f_equal.
        -- apply bool_decide_ext. lia.
        -- rewrite decide_False; [done|lia].
Qed.

Lemma elapse_at tf o w n created delay settles ms :
  settles ≠ delay →
  now w = created →
  heap w !! n = Some (PromisedStore false (Some (created + delay))) →
  elapse tf (created + settles) o n ms w =
  Returns tt
    (World (env w) (<[n:=promised_after created delay settles ms]> (heap w))
       (hooks w) (created + ms)).
Proof.
  intros Hne Hnow Hn. induction ms as [|k IH].
  - simpl. rewrite (turn_at tf o w n created delay settles 0 Hne).
    + unfold update. by rewrite Nat.add_0_r, Hnow.
    + lia.
    + rewrite Hn. f_equal.
  - cbn [elapse]. unfold bind at 1. rewrite IH. unfold bind, tick. simpl.
    rewrite (turn_at tf o _ n created delay settles (S k) Hne).
    + unfold update; simpl. rewrite list_insert_insert_eq.
      f_equal. f_equal. lia.
    + simpl; lia.
    + simpl. rewrite list_lookup_insert_eq by (by eapply lookup_lt_Some).
      unfold promised_after.
      rewrite (bool_decide_ext (delay ≤ k < settles) (delay < S k ≤ settles))
        by lia.
      destruct (decide (k < delay ∧ k < settles));
        [rewrite decide_True|rewrite decide_False]; done || lia.
Qed.

Lemma get_value_promised w n v t :
  heap w !! n = Some (PromisedStore v t) → get_value n w = Returns v w.
Proof.
  intros H. unfold get_value.
  pose proof (lookup_lt_Some _ _ _ H) as Hlt.
  destruct (length (heap w)) as [|k]; [lia|].
  by rewrite current_unfold, H.
Qed.

(** C2, amended.  For a [delay] that the timer can hold, [promised(p, delay)]
    returns a store whose [value] is false, and whenever the promise settles,
    fulfilled or rejected, [settles] milliseconds later: if [settles < delay],
    [value] is false after every number [ms] of milliseconds; if
    [delay < settles], [value] is true exactly when [delay ≤ ms < settles]; in
    both cases no timer is pending from the settlement on. *)
Theorem promised_timeline w p g vs delay :
  wf (heap w) →
  heap w !! p = Some (Store g vs) →
  (Z.of_nat delay ≤ TIMEOUT_MAX)%Z →
  ∃ c w0,
    promised p delay w = Returns c w0 ∧
    get_value c w0 = Returns false w0 ∧
    ∀ settles o tf,
      (settles < delay → ∀ ms, ∃ w',
          elapse tf (now w + settles) o c ms w0 = Returns tt w' ∧
          get_value c w' = Returns false w' ∧
          (settles ≤ ms → heap w' !! c = Some (PromisedStore false None))) ∧
      (delay < settles → ∀ ms, ∃ w',
          elapse tf (now w + settles) o c ms w0 = Returns tt w' ∧
          get_value c w' = Returns (bool_decide (delay ≤ ms < settles)) w' ∧
          (settles ≤ ms → heap w' !! c = Some (PromisedStore false None))).
Proof.
  intros Hwf Hp Hfits. eexists _, _. split; [by eapply promised_returns|].
  rewrite (timer_delay_fits delay Hfits).
  match goal with
  | |- get_value ?c ?x = _ ∧ _ => set (c0 := c); set (w0 := x)
  end.
  assert (heap w0 !! c0 = Some (PromisedStore false (Some (now w + delay))))
    as Hc by (by eapply with_child_registered).
  assert (c0 < length (heap w0)) as Hlt by (by eapply lookup_lt_Some).
  split; [by eapply get_value_promised|]. intros settles o tf.
  assert (∀ ms, settles ≠ delay → ∃ w',
    elapse tf (now w + settles) o c0 ms w0 = Returns tt w' ∧
    heap w' !! c0 = Some (promised_after (now w) delay settles ms)) as Hrun.
  { intros ms Hne. eexists. split; [by apply elapse_at|]. simpl.
    by apply list_lookup_insert_eq. }
  split; intros Hlt' ms; destruct (Hrun ms) as (w' & Hw' & Hn); try lia;
    exists w'; (split; [done|]); unfold promised_after in Hn.
  - rewrite bool_decide_eq_false_2 in Hn by lia. split.
    + by eapply get_value_promised.
    + intros Hms. rewrite Hn, decide_False; [done|lia].
  - split.
    + by eapply get_value_promised.
    + intros Hms. rewrite Hn, decide_False by lia.
      by rewrite bool_decide_eq_false_2 by lia.
Qed.

(** ** Every reachable heap has the shape [wf] *)

Lemma wf_update w n nd nd' :
  wf (heap w) → heap w !! n = Some nd → children nd' = children nd →
  wf (heap (update n nd' w)).
Proof.
  intros Hwf Hn Hc. simpl. eapply wf_insert; [done..| |]; rewrite Hc.
  - done.
  - by eapply (wf_nodup _ Hwf).
Qed.

Lemma run_create_wf w g : wf (heap w) → wf (heap (run (create g) w)).
Proof. intros Hwf. by apply wf_alloc. Qed.

Lemma run_scoped_wf w p initial :
  wf (heap w) → wf (heap (run (scoped p initial) w)).
Proof.
  intros Hwf. destruct (heap w !! p) as [[g vs|v t]|] eqn:Hp.
  - unfold run. rewrite (scoped_returns w p g vs initial Hwf Hp). simpl.
    by apply wf_with_child.
  - unfold run, scoped, is_store, bind, load, throw. by rewrite Hp.
  - unfold run, scoped, is_store, bind, load. by rewrite Hp.
Qed.

Lemma run_derived_wf w p from :
  wf (heap w) → wf (heap (run (derived p from) w)).
Proof.
  intros Hwf. destruct (heap w !! p) as [[g vs|v t]|] eqn:Hp.
  - unfold run. rewrite (derived_returns w p g vs from Hwf Hp). simpl.
    by apply wf_with_child.
  - unfold run, derived, is_store, bind, load, throw. by rewrite Hp.
  - unfold run, derived, is_store, bind, load. by rewrite Hp.
Qed.

Lemma run_promised_wf w p delay :
  wf (heap w) → wf (heap (run (promised p delay) w)).
Proof.
  intros Hwf. destruct (heap w !! p) as [[g vs|v t]|] eqn:Hp.
  - unfold run. rewrite (promised_returns w p g vs delay Hwf Hp). simpl.
    by apply wf_with_child.
  - unfold run, promised, is_store, bind, load, throw. by rewrite Hp.
  - unfold run, promised, is_store, bind, load. by rewrite Hp.
Qed.

Lemma run_set_value_wf w n val :
  wf (heap w) → wf (heap (run (set_value n val) w)).
Proof.
  intros Hwf. unfold run, set_value, bind, load, readonly_error, throw, store_at.
  destruct (heap w !! n) as [[[b|from] vs|v t]|] eqn:Hn; try done.
  by eapply wf_update.
Qed.

Lemma run_values_delete_wf w p c :
  wf (heap w) → wf (heap (run (values_delete p c) w)).
Proof.
  intros Hwf. unfold run, values_delete, bind, load, throw, store_at.
  destruct (heap w !! p) as [[g vs|v t]|] eqn:Hp; try done.
  simpl. by apply wf_delete.
Qed.

Lemma run_run_timer_wf w n : wf (heap w) → wf (heap (run (run_timer n) w)).
Proof.
  intros Hwf. unfold run, run_timer, timer_due.
  destruct (heap w !! n) as [[g vs|v [d|]]|] eqn:Hn; try done.
  destruct (d <=? now w); [|done]. unfold bind.
  rewrite (expire_at _ _ _ _ Hn).
  erewrite timeout_callback_at by (eapply update_lookup, Hn).
  rewrite update_update. by eapply wf_update.
Qed.

Lemma run_promise_settles_wf w o n :
  wf (heap w) → wf (heap (run (promise_settles o n) w)).
Proof.
  intros Hwf. unfold run.
  destruct (heap w !! n) as [[g vs|v t]|] eqn:Hn.
  - destruct o; unfold promise_settles, finally_callback, bind, load, ret;
      by rewrite Hn.
  - destruct o; unfold promise_settles;
      rewrite (finally_callback_at _ _ _ _ Hn); by eapply wf_update.
  - destruct o; unfold promise_settles, finally_callback, bind, load;
      by rewrite Hn.
Qed.

Lemma after_wf w ev : wf (heap w) → wf (heap (after w ev)).
Proof.
  intros Hwf. destruct ev; simpl.
  - by apply run_create_wf.
  - by apply run_create_wf.
  - by apply run_scoped_wf.
  - by apply run_derived_wf.
  - by apply run_promised_wf.
  - by apply run_set_value_wf.
  - destruct (decide _); [by apply run_values_delete_wf|done].
  - by apply run_run_timer_wf.
  - by apply run_promise_settles_wf.
  - done.
  - done.
Qed.

Lemma reachable_wf w : reachable w → wf (heap w).
Proof.
  intros (e & evs & ->).
  assert (wf (heap (World e [] [] 0))) as H by apply wf_nil.
  revert H. generalize (World e [] [] 0).
  induction evs as [|ev evs IH]; intros w H; [done|].
  simpl. by apply IH, after_wf.
Qed.

End LoadingTheory.

(** * Properties of the lockable store *)

Section LockableTheory.
Import Lockable LockableViews.

Context {T W : Type}.
Variable lock : W → bool.
Variable arg : accessor T W.
Variable behaviour : listener → LockedEvent T → list (action T W).
Implicit Types (st : state T W) (v : T) (l : listener).
Implicit Types (tr new : list (entry T W)) (acts ops : list (action T W)).
Implicit Types (s : list (option listener)) (a : action T W).
Implicit Types (write : T → state T W → result T W).

(** ** Traces *)

Lemma invocations_app tr1 tr2 :
  invocations (tr1 ++ tr2) = invocations tr1 ++ invocations tr2.
Proof. apply omap_app. Qed.

Lemma replay_app tr1 tr2 (w : W) :
  replay arg (tr1 ++ tr2) w = replay arg tr2 (replay arg tr1 w).
Proof. apply foldl_app. Qed.

Lemma calls_of_app l tr1 tr2 :
  calls_of l (tr1 ++ tr2) = calls_of l tr1 ++ calls_of l tr2.
Proof. unfold calls_of. by rewrite invocations_app, filter_app. Qed.

(** ** The registry as a set *)

Lemma elem_of_live l s : l ∈ live s ↔ Some l ∈ s.
Proof.
  unfold live. rewrite list_elem_of_omap. split.
  - intros (slot & Hin & Hl). by destruct slot; simplify_eq/=.
  - intros Hin. by exists (Some l).
Qed.

Lemma live_app s1 s2 : live (s1 ++ s2) = live s1 ++ live s2.
Proof. apply omap_app. Qed.

Lemma live_cons_None s : live (None :: s) = live s.
Proof. reflexivity. Qed.

Lemma live_cons_Some l s : live (Some l :: s) = l :: live s.
Proof. reflexivity. Qed.

Lemma live_set_delete l s : live (set_delete l s) = filter (λ x, x ≠ l) (live s).
Proof.
  unfold set_delete. induction s as [|[x|] s IH]; simpl; [done| |done].
  fold (live s). rewrite filter_cons.
  destruct (decide (Some x = Some l)) as [[= ->]|Hne].
  - rewrite decide_False by (intros H; by apply H). exact IH.
  - rewrite decide_True by congruence. simpl. fold (live s). by rewrite <- IH.
Qed.

Lemma filter_ne_absent l (ls : list nat) : l ∉ ls → filter (λ x, x ≠ l) ls = ls.
Proof.
  induction ls as [|x ls IH]; intros Hl; [done|].
  apply not_elem_of_cons in Hl as [Hne Hl].
  rewrite filter_cons_True by done. by rewrite IH.
Qed.

Lemma live_set_add l s :
  live (set_add l s) = if decide (Some l ∈ s) then live s else live s ++ [l].
Proof. unfold set_add. destruct (decide _); [done|]. by rewrite live_app. Qed.

Lemma registry_delete_length l s : length (set_delete l s) = length s.
Proof. unfold set_delete. apply length_fmap. Qed.

Lemma set_delete_absent_other l l' s :
  Some l ∉ s → Some l ∉ set_delete l' s.
Proof.
  intros Hs Hin. apply Hs. unfold set_delete in Hin.
  apply list_elem_of_fmap in Hin as (slot & Heq & Hslot).
  destruct (decide (slot = Some l')); [done|]. by subst.
Qed.

Lemma set_delete_removes l s : Some l ∉ set_delete l s.
Proof.
  unfold set_delete. intros Hin.
  apply list_elem_of_fmap in Hin as (slot & Heq & _).
  destruct (decide (slot = Some l)); [done|]. by subst.
Qed.

Lemma set_add_absent_other l l' s :
  l' ≠ l → Some l ∉ s → Some l ∉ set_add l' s.
Proof.
  intros Hne Hs. unfold set_add. destruct (decide (Some l' ∈ s)); [done|].
  intros Hin. apply elem_of_app in Hin as [Hin|Hin]; [done|].
  apply list_elem_of_singleton in Hin. congruence.
Qed.

Lemma set_delete_idemp_registry l s : set_delete l (set_delete l s) = set_delete l s.
Proof.
  unfold set_delete. rewrite <- list_fmap_compose. apply list_fmap_ext.
  intros i slot _. simpl. destruct (decide (slot = Some l)); [done|].
  by rewrite decide_False.
Qed.

(** ** The abort of a signal *)

Lemma foldl_cleanup_listeners (hs : list (nat * nat)) st :
  live (listeners (foldl (λ st' h, cleanup h.2 st') st hs))
  = filter (λ l, l ∉ hs.*2) (live (listeners st)) ∧
  aborted (foldl (λ st' h, cleanup h.2 st') st hs) = aborted st ∧
  abort_handlers (foldl (λ st' h, cleanup h.2 st') st hs) = abort_handlers st ∧
  world (foldl (λ st' h, cleanup h.2 st') st hs) = world st ∧
  trace (foldl (λ st' h, cleanup h.2 st') st hs) = trace st ∧
  created (foldl (λ st' h, cleanup h.2 st') st hs) = created st.
Proof.
  clear lock arg behaviour.
  revert st. induction hs as [|h hs IH]; intros st.
  - simpl. split; [|done]. symmetry. clear.
    induction (live (listeners st)) as [|x ls IH]; [done|].
    rewrite filter_cons_True by apply not_elem_of_nil. by rewrite IH.
  - simpl. destruct (IH (cleanup h.2 st)) as (Hl & Ha & Hh & Hw & Ht & Hc).
    split; [|done]. rewrite Hl. simpl. rewrite live_set_delete.
    rewrite list_filter_filter. apply list_filter_iff.
    intros x. rewrite not_elem_of_cons. tauto.
Qed.

Lemma abort_fresh (s : nat) st :
  s ∉ aborted st →
  live (listeners (abort s st))
  = filter (λ l, l ∉ attached s st) (live (listeners st)) ∧
  aborted (abort s st) = s :: aborted st ∧
  abort_handlers (abort s st) = filter (λ h, h.1 ≠ s) (abort_handlers st) ∧
  world (abort s st) = world st ∧
  trace (abort s st) = trace st ∧
  created (abort s st) = created st.
Proof.
  clear lock arg behaviour.
  intros Hs. unfold abort. rewrite decide_False by done.
  match goal with
  | |- context [foldl _ ?s0 ?hs] =>
      destruct (foldl_cleanup_listeners hs s0) as (Hl & Ha & Hh & Hw & Ht & Hc)
  end.
  by rewrite Hl, Ha, Hh, Hw, Ht, Hc.
Qed.

Lemma abort_again (s : nat) st : s ∈ aborted st → abort s st = st.
Proof. intros Hs. unfold abort. by rewrite decide_True. Qed.

Lemma foldl_cleanup_length (hs : list (nat * nat)) st :
  length (listeners (foldl (λ st' h, cleanup h.2 st') st hs))
  = length (listeners st).
Proof.
  revert st. induction hs as [|h hs IH]; intros st; [done|].
  simpl. rewrite IH. simpl. apply registry_delete_length.
Qed.

Lemma abort_frame (s : nat) st :
  world (abort s st) = world st ∧
  trace (abort s st) = trace st ∧
  created (abort s st) = created st ∧
  length (listeners (abort s st)) = length (listeners st).
Proof.
  clear lock arg behaviour.
  destruct (decide (s ∈ aborted st)) as [Hs|Hs].
  - by rewrite abort_again.
  - destruct (abort_fresh s st Hs) as (_ & _ & _ & Hw & Ht & Hc).
    split; [done|]. split; [done|]. split; [done|].
    unfold abort. rewrite decide_False by done.
    by rewrite foldl_cleanup_length.
Qed.

(** ** What holds after every step holds after every call

    [P] relates the state at the start of a call with the state at its end,
    be it a return or a throw.  When [P] holds across every step that the
    [allowed] actions can take, it holds across every call that finishes. *)

Section Rule.

Variable allowed : action T W → Prop.
Variable P : state T W → state T W → Prop.

Hypothesis P_refl : ∀ st, P st st.
Hypothesis P_trans : ∀ st1 st2 st3, P st1 st2 → P st2 st3 → P st1 st3.
Hypothesis P_force : ∀ v st, allowed (Force v) → P st (force arg v st).
Hypothesis P_unregister : ∀ l st, allowed (Unregister l) → P st (cleanup l st).
Hypothesis P_register :
  ∀ l st, allowed (Register l) → P st (onupdateprevented l None st).
Hypothesis P_attach :
  ∀ l (s : signal) st,
    allowed (Attach l s) → P st (onupdateprevented l (Some s) st).
Hypothesis P_cancel : ∀ (s : signal) st, allowed (Cancel s) → P st (abort s st).
Hypothesis P_change : ∀ change st, allowed (Change change) → P st (outside change st).
Hypothesis P_assign :
  ∀ v st, allowed (Write v) → lock (world st) = false → P st (assign arg v st).
Hypothesis P_call :
  ∀ l v st, allowed (Write v) → Some l ∈ listeners st → P st (call arg l v st).

Hypothesis Hallowed : ∀ l ev, Forall allowed (behaviour l ev).

Lemma run_action_rule write a st st' :
  (∀ v st1 st2, allowed (Write v) → final (write v st1) = Some st2 → P st1 st2) →
  allowed a →
  final (run_action arg write a st) = Some st' →
  P st st'.
Proof.
  intros Hw Ha. destruct a; simpl; try (intros [= <-]; auto).
  by apply Hw.
Qed.

Lemma run_actions_rule write acts st st' :
  (∀ v st1 st2, allowed (Write v) → final (write v st1) = Some st2 → P st1 st2) →
  Forall allowed acts →
  final (run_actions arg write acts st) = Some st' →
  P st st'.
Proof.
  intros Hw Hacts. revert st.
  induction Hacts as [|a acts Ha _ IH]; intros st; simpl.
  - by intros [= <-].
  - destruct (run_action arg write a st) as [st1|st1|] eqn:Hrun; simpl.
    + intros H. eapply P_trans; [|by apply IH].
      eapply run_action_rule; [done..|]. by rewrite Hrun.
    + intros [= <-]. eapply run_action_rule; [done..|]. by rewrite Hrun.
    + done.
Qed.

Lemma dispatch_rule write fuel i v st st' :
  (∀ v st1 st2, allowed (Write v) → final (write v st1) = Some st2 → P st1 st2) →
  (∀ l st1, Some l ∈ listeners st1 → P st1 (call arg l v st1)) →
  final (dispatch arg behaviour write fuel i v st) = Some st' →
  P st st'.
Proof.
  intros Hw Hcall. revert i st.
  induction fuel as [|k IH]; intros i st; [done|]. simpl.
  destruct (listeners st !! i) as [[l|]|] eqn:Hi.
  - assert (∀ st1, final (notify arg behaviour write l v st) = Some st1 →
                   P st st1) as Hnotify.
    { intros st1 H. eapply P_trans.
      - apply (Hcall l). by eapply list_elem_of_lookup_2.
      - eapply run_actions_rule; [done|apply Hallowed|exact H]. }
    destruct (notify arg behaviour write l v st) as [st1|st1|]; simpl.
    + intros H. eapply P_trans; [by apply Hnotify|by eapply IH].
    + intros [= <-]. by apply Hnotify.
    + done.
  - apply IH.
  - by intros [= <-].
Qed.

Lemma set_value_unfold fuel v st :
  set_value lock arg behaviour fuel v st =
  if lock (world st) then
    if size (listeners st) =? 0 then Returned st
    else
      dispatch arg behaviour
        (match fuel with
         | O => λ _ _, Unfinished
         | S k => set_value lock arg behaviour k
         end)
        fuel 0 v st
  else Returned (assign arg v st).
Proof. by destruct fuel. Qed.

Lemma set_value_rule fuel v st st' :
  allowed (Write v) →
  final (set_value lock arg behaviour fuel v st) = Some st' →
  P st st'.
Proof.
  revert v st st'. induction fuel as [|k IH]; intros v st st' Hv;
    rewrite set_value_unfold; destruct (lock (world st)) eqn:Hl;
    try (intros [= <-]; by apply P_assign);
    (destruct (size (listeners st) =? 0); [by intros [= <-]|]); [done|].
  apply dispatch_rule; [|by auto].
  intros v' st1 st2 Hv'. by apply IH.
Qed.

Lemma locked_rule fuel v st st' :
  (∀ l st1, Some l ∈ listeners st1 → P st1 (call arg l v st1)) →
  lock (world st) = true →
  final (set_value lock arg behaviour fuel v st) = Some st' →
  P st st'.
Proof.
  intros Hcall Hl. rewrite set_value_unfold, Hl.
  destruct (size (listeners st) =? 0); [by intros [= <-]|].
  apply dispatch_rule; [|done].
  intros v' st1 st2 Hv'. destruct fuel as [|k]; [done|]. by apply set_value_rule.
Qed.

Lemma run_ops_rule fuel ops st st' :
  Forall allowed ops →
  run_ops lock arg behaviour fuel ops st = Some st' →
  P st st'.
Proof.
  intros Hops. revert st. induction Hops as [|a ops Ha _ IH]; intros st; simpl.
  - by intros [= <-].
  - destruct (final (run_action arg (set_value lock arg behaviour fuel) a st))
      as [st1|] eqn:Hrun; [|done].
    intros H. eapply P_trans; [|by apply IH].
    eapply run_action_rule; [|done..].
    intros v' st1' st2' Hv'. by apply set_value_rule.
Qed.

End Rule.

(** ** Every event is built when its listener is called *)

Lemma traced_refl st : traced arg st st.
Proof.
  exists []. rewrite app_nil_r, Nat.add_0_r.
  split; [done|]. split; [done|]. split; [done|].
  intros k l ev H. by rewrite lookup_nil in H.
Qed.

Lemma traced_trans st1 st2 st3 :
  traced arg st1 st2 → traced arg st2 st3 → traced arg st1 st3.
Proof.
  intros (n1 & Ht1 & Hw1 & Hc1 & Hr1) (n2 & Ht2 & Hw2 & Hc2 & Hr2).
  exists (n1 ++ n2). rewrite Ht2, Ht1, app_assoc. split; [done|].
  split; [by rewrite replay_app, <- Hw1|].
  split; [rewrite invocations_app, length_app; lia|].
  intros k l ev Hk. apply lookup_app_Some in Hk as [Hk|[Hle Hk]].
  - pose proof (lookup_lt_Some _ _ _ Hk) as Hlt.
    rewrite take_app_le by lia. by apply (Hr1 k l ev).
  - rewrite take_app_ge by done.
    rewrite replay_app, invocations_app, length_app, <- Hw1.
    destruct (Hr2 _ _ _ Hk) as (Hv & Hid).
    split; [done|]. lia.
Qed.

(** A step that calls no listener and leaves the trace alone, or adds one
    entry that tells what it has done to the state outside. *)
Lemma traced_silent st st' :
  trace st' = trace st → world st' = world st → created st' = created st →
  traced arg st st'.
Proof.
  intros Ht Hw Hc. exists []. rewrite app_nil_r, Nat.add_0_r.
  split; [done|]. split; [done|]. split; [done|].
  intros k l ev H. by rewrite lookup_nil in H.
Qed.

Lemma traced_entry st st' (e : entry T W) :
  trace st' = trace st ++ [e] →
  world st' = replay arg [e] (world st) →
  created st' = created st →
  (∀ l ev, e ≠ Invoked l ev) →
  traced arg st st'.
Proof.
  intros Ht Hw Hc He. exists [e].
  split; [done|]. split; [done|]. split.
  - destruct e; simpl; rewrite ?Nat.add_0_r; try done. by destruct (He l ev).
  - intros [|k] l ev H; [|done]. injection H as ->. by destruct (He l ev).
Qed.

Lemma traced_call l v st : traced arg st (call arg l v st).
Proof.
  eexists [_]. simpl. split; [done|]. split; [done|].
  split; [by rewrite Nat.add_1_r|].
  intros [|k] l' ev H; [|done]. injection H as <- <-. simpl.
  by rewrite Nat.add_0_r.
Qed.

Lemma final_traced fuel v st st' :
  final (set_value lock arg behaviour fuel v st) = Some st' →
  traced arg st st'.
Proof.
  apply (set_value_rule (λ _, True) (traced arg)); try done.
  - apply traced_refl.
  - apply traced_trans.
  - intros x st1 _. by apply (traced_entry _ _ (AccessorSet Forced x)).
  - intros l st1 _. by apply traced_silent.
  - intros l st1 _. by apply traced_silent.
  - intros l s st1 _. by apply traced_silent.
  - intros s st1 _. destruct (abort_frame s st1) as (Hw & Ht & Hc & _).
    by apply traced_silent.
  - intros change st1 _. by apply (traced_entry _ _ (Changed change)).
  - intros x st1 _ _. by apply (traced_entry _ _ (AccessorSet Setter x)).
  - intros l x st1 _ _. apply traced_call.
  - intros l ev. apply Forall_forall. done.
Qed.

(** The events of a write carry the value of that write, or a value that a
    listener assigns to the store in turn. *)
Lemma final_newValue fuel v st st' :
  lock (world st) = true →
  final (set_value lock arg behaviour fuel v st) = Some st' →
  ∃ new, trace st' = trace st ++ new ∧
         Forall (λ e, ∀ l ev, e = Invoked l ev →
                   newValue ev = v ∨
                   ∃ l' ev', Write (newValue ev) ∈ behaviour l' ev') new.
Proof.
  set (carried (e : entry T W) :=
         ∀ l ev, e = Invoked l ev →
           newValue ev = v ∨ ∃ l' ev', Write (newValue ev) ∈ behaviour l' ev').
  assert (∀ st1 st2, trace st2 = trace st1 →
            ∃ new, trace st2 = trace st1 ++ new ∧ Forall carried new)
    as Hsilent.
  { intros st1 st2 H. exists []. by rewrite app_nil_r. }
  assert (∀ st1 st2 (e : entry T W),
            trace st2 = trace st1 ++ [e] → (∀ l ev, e ≠ Invoked l ev) →
            ∃ new, trace st2 = trace st1 ++ new ∧ Forall carried new)
    as Hentry.
  { intros st1 st2 e H He. exists [e]. split; [done|].
    constructor; [|done]. intros l ev ->. by destruct (He l ev). }
  apply (locked_rule (λ a, ∃ l' ev', a ∈ behaviour l' ev')
           (λ st1 st2, ∃ new, trace st2 = trace st1 ++ new ∧
                              Forall carried new)).
  - intros st1. by apply Hsilent.
  - intros st1 st2 st3 (n1 & H1 & F1) (n2 & H2 & F2). exists (n1 ++ n2).
    rewrite H2, H1, app_assoc. split; [done|]. by apply Forall_app.
  - intros x st1 _. by apply (Hentry _ _ (AccessorSet Forced x)).
  - intros l st1 _. by apply Hsilent.
  - intros l st1 _. by apply Hsilent.
  - intros l s st1 _. by apply Hsilent.
  - intros s st1 _. destruct (abort_frame s st1) as (_ & Ht & _).
    by apply Hsilent.
  - intros change st1 _. by apply (Hentry _ _ (Changed change)).
  - intros x st1 _ _. by apply (Hentry _ _ (AccessorSet Setter x)).
  - intros l x st1 Hx _. eexists [_]. split; [done|].
    constructor; [|done]. intros l' ev [= <- <-]. by right.
  - intros l ev. apply Forall_forall. intros a Ha. by exists l, ev.
  - intros l st1 _. eexists [_]. split; [done|].
    constructor; [|done]. intros l' ev [= <- <-]. by left.
Qed.

(** ** Listeners that do not set the value *)

Lemma final_never_sets fuel v st st' :
  never_sets behaviour →
  lock (world st) = true →
  final (set_value lock arg behaviour fuel v st) = Some st' →
  ∃ new, trace st' = trace st ++ new ∧
         Forall (λ e, ∀ place x, e ≠ AccessorSet place x) new.
Proof.
  intros Hq.
  assert (∀ st1 st2, trace st2 = trace st1 →
            ∃ new, trace st2 = trace st1 ++ new ∧
                   Forall (λ e : entry T W, ∀ place x, e ≠ AccessorSet place x)
                     new)
    as Hsilent.
  { intros st1 st2 H. exists []. by rewrite app_nil_r. }
  apply (locked_rule (λ a, ¬ is_force a ∧ ¬ is_write a)
           (λ st1 st2, ∃ new, trace st2 = trace st1 ++ new ∧
              Forall (λ e, ∀ place x, e ≠ AccessorSet place x) new)).
  - intros st1. by apply Hsilent.
  - intros st1 st2 st3 (n1 & H1 & F1) (n2 & H2 & F2). exists (n1 ++ n2).
    rewrite H2, H1, app_assoc. split; [done|]. by apply Forall_app.
  - intros x st1 [Hx _]. by destruct (Hx I).
  - intros l st1 _. by apply Hsilent.
  - intros l st1 _. by apply Hsilent.
  - intros l s st1 _. by apply Hsilent.
  - intros s st1 _. destruct (abort_frame s st1) as (_ & Ht & _).
    by apply Hsilent.
  - intros change st1 _. eexists [_]. split; [done|]. by repeat constructor.
  - intros x st1 [_ Hx]. by destruct (Hx I).
  - intros l x st1 [_ Hx]. by destruct (Hx I).
  - exact Hq.
  - intros l st1 _. eexists [_]. split; [done|]. by repeat constructor.
Qed.

Lemma final_quiet fuel v st st' :
  quiet behaviour →
  lock (world st) = true →
  final (set_value lock arg behaviour fuel v st) = Some st' →
  world st' = world st.
Proof.
  intros Hq.
  apply (locked_rule (λ a, ¬ is_force a ∧ ¬ is_write a ∧ ¬ is_change a)
           (λ st1 st2, world st2 = world st1)).
  - done.
  - intros st1 st2 st3 H1 H2. by rewrite H2.
  - intros x st1 (Hx & _). by destruct (Hx I).
  - done.
  - done.
  - done.
  - intros s st1 _. by destruct (abort_frame s st1) as (Hw & _).
  - intros change st1 (_ & _ & Hx). by destruct (Hx I).
  - intros x st1 (_ & Hx & _). by destruct (Hx I).
  - intros l x st1 (_ & Hx & _). by destruct (Hx I).
  - exact Hq.
  - done.
Qed.

(** ** The registry holds no listener twice *)

Lemma live_set_add_NoDup l s : NoDup (live s) → NoDup (live (set_add l s)).
Proof.
  intros H. rewrite live_set_add. destruct (decide _) as [|Hl]; [done|].
  apply NoDup_app. split; [done|]. split; [|apply NoDup_singleton].
  intros x Hx Hx'. apply list_elem_of_singleton in Hx' as ->.
  by apply Hl, elem_of_live.
Qed.

Lemma live_set_delete_NoDup l s : NoDup (live s) → NoDup (live (set_delete l s)).
Proof. intros H. rewrite live_set_delete. by apply NoDup_filter. Qed.

Lemma abort_NoDup (s : nat) st :
  NoDup (live (listeners st)) → NoDup (live (listeners (abort s st))).
Proof.
  intros H. destruct (decide (s ∈ aborted st)) as [Hs|Hs].
  - by rewrite abort_again.
  - destruct (abort_fresh s st Hs) as (-> & _). by apply NoDup_filter.
Qed.

Lemma run_ops_NoDup fuel ops st st' :
  run_ops lock arg behaviour fuel ops st = Some st' →
  NoDup (live (listeners st)) → NoDup (live (listeners st')).
Proof.
  apply (run_ops_rule (λ _, True)
           (λ st1 st2, NoDup (live (listeners st1)) →
                       NoDup (live (listeners st2)))).
  - done.
  - intros st1 st2 st3 H1 H2 H. by apply H2, H1.
  - done.
  - intros l st1 _. apply live_set_delete_NoDup.
  - intros l st1 _. apply live_set_add_NoDup.
  - intros l s st1 _. apply live_set_add_NoDup.
  - intros s st1 _. apply abort_NoDup.
  - done.
  - done.
  - done.
  - intros l ev. by apply Forall_forall.
  - by apply Forall_forall.
Qed.

(** ** A listener that is not in the registry *)

Lemma absent_refl l st : Some l ∉ listeners st → absent l st st.
Proof. done. Qed.

Lemma foldl_cleanup_absent l (hs : list (signal * listener)) st :
  Some l ∉ listeners st ∨ l ∈ hs.*2 →
  Some l ∉ listeners (foldl (λ st' h, cleanup h.2 st') st hs).
Proof.
  revert st. induction hs as [|h hs IH]; intros st H.
  - destruct H as [H|H]; [done|]. by apply not_elem_of_nil in H.
  - simpl. apply IH. destruct H as [H|H].
    + left. by apply set_delete_absent_other.
    + apply elem_of_cons in H as [->|H]; [|by right].
      left. apply set_delete_removes.
Qed.

Lemma abort_absent l (s : signal) st :
  Some l ∉ listeners st → Some l ∉ listeners (abort s st).
Proof.
  intros Hl. unfold abort. destruct (decide (s ∈ aborted st)); [done|].
  apply foldl_cleanup_absent. by left.
Qed.

Lemma abort_removes l (s : signal) st :
  (s, l) ∈ abort_handlers st → s ∉ aborted st →
  Some l ∉ listeners (abort s st).
Proof.
  intros Hh Hs. unfold abort. rewrite decide_False by done.
  apply foldl_cleanup_absent. right.
  apply list_elem_of_fmap. exists (s, l). split; [done|].
  by apply list_elem_of_filter.
Qed.

Section Absent.

Variable l : listener.
Hypothesis Hq : never_registers behaviour l.

Lemma stays_out_trans st1 st2 st3 :
  stays_out l st1 st2 → stays_out l st2 st3 → stays_out l st1 st3.
Proof.
  intros H1 H2 Hl. destruct (H1 Hl) as [Hl2 Hc2].
  destruct (H2 Hl2) as [Hl3 Hc3]. split; [done|]. by rewrite Hc3.
Qed.

Lemma stays_out_silent st1 st2 :
  (Some l ∉ listeners st1 → Some l ∉ listeners st2) →
  calls_of l (trace st2) = calls_of l (trace st1) →
  stays_out l st1 st2.
Proof. intros H1 H2 Hl. split; [by apply H1|done]. Qed.

Lemma run_ops_absent fuel ops st st' :
  Forall (λ a, ¬ registers l a) ops →
  run_ops lock arg behaviour fuel ops st = Some st' →
  Some l ∉ listeners st →
  absent l st st'.
Proof.
  intros Hops.
  apply (run_ops_rule (λ a, ¬ registers l a) (stays_out l)).
  - by intros st1 Hl.
  - apply stays_out_trans.
  - intros x st1 _. apply stays_out_silent; [done|]. simpl.
    by rewrite calls_of_app, app_nil_r.
  - intros l' st1 _. apply stays_out_silent; [|done].
    apply set_delete_absent_other.
  - intros l' st1 Hl'. apply stays_out_silent; [|done].
    apply set_add_absent_other. intros ->. apply Hl'. by left.
  - intros l' s st1 Hl'. apply stays_out_silent; [|done].
    apply set_add_absent_other. intros ->. apply Hl'. right. by exists s.
  - intros s st1 _. apply stays_out_silent; [apply abort_absent|].
    by destruct (abort_frame s st1) as (_ & -> & _).
  - intros change st1 _. apply stays_out_silent; [done|]. simpl.
    by rewrite calls_of_app, app_nil_r.
  - intros x st1 _ _. apply stays_out_silent; [done|]. simpl.
    by rewrite calls_of_app, app_nil_r.
  - intros l' x st1 _ Hin Hl. split; [done|]. simpl.
    rewrite calls_of_app. unfold calls_of at 2. simpl.
    rewrite filter_cons_False; [by rewrite filter_nil, app_nil_r|].
    simpl. intros ->. by apply Hl.
  - exact Hq.
  - exact Hops.
Qed.

End Absent.

(** ** A handler stays attached until its signal is aborted *)

Lemma run_ops_attached fuel ops (s : signal) l st st' :
  never_cancels behaviour s →
  Forall (λ a, a ≠ Cancel s) ops →
  run_ops lock arg behaviour fuel ops st = Some st' →
  (s, l) ∈ abort_handlers st ∧ (s ∉ aborted st) →
  (s, l) ∈ abort_handlers st' ∧ (s ∉ aborted st').
Proof.
  intros Hq Hops.
  apply (run_ops_rule (λ a, a ≠ Cancel s)
           (λ st1 st2, (s, l) ∈ abort_handlers st1 ∧ (s ∉ aborted st1) →
                       (s, l) ∈ abort_handlers st2 ∧ (s ∉ aborted st2))).
  - done.
  - intros st1 st2 st3 H1 H2 H. by apply H2, H1.
  - done.
  - done.
  - done.
  - intros l' s' st1 _ [Hh Ha]. split; [|done]. simpl.
    apply elem_of_app. by left.
  - intros s' st1 Hs' [Hh Ha].
    destruct (decide (s' ∈ aborted st1)) as [Hin|Hin].
    + by rewrite abort_again.
    + destruct (abort_fresh s' st1 Hin) as (_ & -> & -> & _). split.
      * apply list_elem_of_filter. split; [|done]. simpl. congruence.
      * apply not_elem_of_cons. split; [congruence|done].
  - done.
  - done.
  - done.
  - exact Hq.
  - exact Hops.
Qed.

(** ** Listeners that only call [force] or change the state outside *)

Lemma effect_app acts1 acts2 (w : W) :
  effect arg (acts1 ++ acts2) w = effect arg acts2 (effect arg acts1 w).
Proof. apply foldl_app. Qed.

Lemma run_actions_orderly write acts st :
  Forall (λ a, is_force a ∨ is_change a) acts →
  ∃ sets,
    run_actions arg write acts st =
    Returned (State (effect arg acts (world st)) (listeners st)
                (abort_handlers st) (aborted st) (created st)
                (trace st ++ sets)) ∧
    invocations sets = [].
Proof.
  intros H. revert st. induction H as [|a acts Ha _ IH]; intros st.
  - exists []. destruct st; simpl. by rewrite app_nil_r.
  - destruct a as [x| | | | | |change|]; try (by destruct Ha); simpl.
    + destruct (IH (force arg x st)) as (sets & -> & Hs).
      exists (AccessorSet Forced x :: sets). simpl.
      by rewrite <- app_assoc.
    + destruct (IH (outside change st)) as (sets & -> & Hs).
      exists (Changed change :: sets). simpl.
      by rewrite <- app_assoc.
Qed.

Lemma dispatch_deliveries write fuel i v st :
  orderly behaviour →
  length (listeners st) - i < fuel →
  ∃ st' new,
    dispatch arg behaviour write fuel i v st = Returned st' ∧
    trace st' = trace st ++ new ∧
    invocations new =
      deliveries arg behaviour v (live (drop i (listeners st))) (world st)
        (created st) ∧
    listeners st' = listeners st ∧
    created st' = created st + length (live (drop i (listeners st))).
Proof.
  intros Hq. revert i st. induction fuel as [|k IH]; intros i st Hk; [lia|].
  simpl. destruct (listeners st !! i) as [[l|]|] eqn:Hi.
  - pose proof (lookup_lt_Some _ _ _ Hi) as Hlt.
    rewrite (drop_S _ _ _ Hi), live_cons_Some. cbn [deliveries length].
    unfold notify.
    destruct (run_actions_orderly write (behaviour l (event_for arg v st))
                (call arg l v st) (Hq _ _)) as (sets & -> & Hsets).
    cbn [world listeners abort_handlers aborted created trace call].
    match goal with |- context [dispatch _ _ _ k (S i) v ?s] => set (st2 := s) end.
    destruct (IH (S i) st2) as (st' & new & Hd & Ht & Hinv & Hl & Hc);
      [simpl; lia|].
    exists st', ([Invoked l (event_for arg v st)] ++ sets ++ new).
    split; [done|]. split; [rewrite Ht; simpl; by rewrite <- !app_assoc|].
    split; [|split; [done|rewrite Hc; simpl; lia]].
    rewrite !invocations_app, Hsets, Hinv. done.
  - pose proof (lookup_lt_Some _ _ _ Hi) as Hlt.
    rewrite (drop_S _ _ _ Hi), live_cons_None. apply IH. lia.
  - apply lookup_ge_None in Hi. rewrite drop_ge by done.
    exists st, []. by rewrite app_nil_r, Nat.add_0_r.
Qed.

Lemma deliveries_listeners v ls (w : W) next :
  (deliveries arg behaviour v ls w next).*1 = ls.
Proof.
  revert w next. induction ls as [|l ls IH]; intros w next; [done|].
  simpl. by rewrite IH.
Qed.

Lemma deliveries_ids v ls (w : W) next :
  (λ c, event_id c.2) <$> deliveries arg behaviour v ls w next
  = seq next (length ls).
Proof.
  revert w next. induction ls as [|l ls IH]; intros w next; [done|].
  simpl. by rewrite IH.
Qed.

Lemma deliveries_newValue v ls (w : W) next :
  Forall (λ c, newValue c.2 = v) (deliveries arg behaviour v ls w next).
Proof.
  revert w next. induction ls as [|l ls IH]; intros w next; constructor;
    [done|apply IH].
Qed.

Lemma effect_forced acts (w : W) :
  Forall is_force acts →
  effect arg acts w = foldl (λ w x, accessor_set arg Forced x w) w (forced acts).
Proof.
  intros H. revert w. induction H as [|a acts Ha _ IH]; intros w; [done|].
  destruct a; try done. simpl. apply IH.
Qed.

Lemma deliveries_value v ls (w : W) next :
  leave_value arg behaviour →
  Forall (λ c, value c.2 = accessor_get arg w)
    (deliveries arg behaviour v ls w next).
Proof.
  intros Hq. revert w next. induction ls as [|l ls IH]; intros w next;
    constructor; [done|].
  eapply Forall_impl; [apply IH|]. intros c Hc. by rewrite Hc, Hq.
Qed.

Lemma no_listener s : size s = 0 → live s = [].
Proof. unfold size. intros H. by apply nil_length_inv in H. Qed.

Lemma set_value_deliveries v st :
  locked lock st = true →
  orderly behaviour →
  ∃ st' new,
    set_value lock arg behaviour (S (length (listeners st))) v st
    = Returned st' ∧
    trace st' = trace st ++ new ∧
    invocations new =
      deliveries arg behaviour v (live (listeners st)) (world st) (created st) ∧
    created st' = created st + size (listeners st).
Proof.
  unfold locked. intros Hl Hq. rewrite set_value_unfold, Hl.
  destruct (Nat.eqb_spec (size (listeners st)) 0) as [Hz|Hz].
  - exists st, []. rewrite Hz, app_nil_r, Nat.add_0_r.
    by rewrite (no_listener _ Hz).
  - destruct (dispatch_deliveries (set_value lock arg behaviour (length (listeners st)))
                (S (length (listeners st))) 0 v st Hq)
      as (st' & new & Hd & Ht & Hinv & _ & Hc); [lia|].
    rewrite drop_0 in Hinv, Hc. by exists st', new.
Qed.

(** ** Listeners that neither register nor assign: the loop ends *)

Lemma run_actions_finishes write acts st :
  Forall (λ a, ¬ is_write a) acts →
  is_Some (final (run_actions arg write acts st)).
Proof.
  intros H. revert st. induction H as [|a acts Ha _ IH]; intros st;
    [by eexists|].
  simpl. destruct a; simpl; try apply IH; [by destruct (Ha I)|by eexists].
Qed.

Lemma run_actions_length write acts st st' :
  Forall (λ a, (∀ l, ¬ registers l a) ∧ ¬ is_write a) acts →
  final (run_actions arg write acts st) = Some st' →
  length (listeners st') = length (listeners st).
Proof.
  intros Hacts.
  apply (run_actions_rule (λ a, (∀ l, ¬ registers l a) ∧ ¬ is_write a)
           (λ st1 st2, length (listeners st2) = length (listeners st1))).
  - done.
  - intros st1 st2 st3 H1 H2. by rewrite H2.
  - done.
  - intros l st1 _. apply registry_delete_length.
  - intros l st1 [Hl _]. destruct (Hl l). by left.
  - intros l s0 st1 [Hl _]. destruct (Hl l). right. by exists s0.
  - intros s0 st1 _. by destruct (abort_frame s0 st1) as (_ & _ & _ & Hlen).
  - done.
  - intros x st1 st2 [_ Hx]. by destruct (Hx I).
  - exact Hacts.
Qed.

Lemma dispatch_finishes write fuel i v st :
  never_register behaviour →
  never_writes behaviour →
  length (listeners st) - i < fuel →
  is_Some (final (dispatch arg behaviour write fuel i v st)).
Proof.
  intros Hr Hw. revert i st. induction fuel as [|k IH]; intros i st Hk; [lia|].
  simpl. destruct (listeners st !! i) as [[l|]|] eqn:Hi; [| |by eexists];
    pose proof (lookup_lt_Some _ _ _ Hi) as Hlt; [|apply IH; lia].
  assert (Forall (λ a, (∀ l, ¬ registers l a) ∧ ¬ is_write a)
            (behaviour l (event_for arg v st))) as Hacts.
  { apply Forall_forall. intros a Ha. split.
    - intros l'. eapply Forall_forall in Ha; [exact Ha|apply (Hr l' l)].
    - eapply Forall_forall in Ha; [exact Ha|apply (Hw l)]. }
  unfold notify.
  destruct (run_actions_finishes write (behaviour l (event_for arg v st))
              (call arg l v st)) as [st1 Hst1].
  { eapply Forall_impl; [exact Hacts|]. by intros a [_ Ha]. }
  pose proof (run_actions_length write _ _ _ Hacts Hst1) as Hlen.
  destruct (run_actions arg write _ _) as [st2|st2|]; [|by eexists|done].
  injection Hst1 as ->. apply IH. simpl in Hlen. lia.
Qed.

(** C3, amended.  When [lock()] is true, [store.value = v] does not store
    [v]: with no listener registered it returns with nothing changed, and
    otherwise it only notifies the listeners.  The state outside changes by
    what the listeners do while they are notified and by nothing else: the
    store calls [accessor.set] only where a listener makes it, through
    [force] or through an assignment to the store, so when the listeners do
    neither, the store makes no call of [accessor.set] during the write, even
    if they open the lock; when they do not change the state outside either,
    the outside state after the write is the one before it and [store.value]
    reads the same value, whether the write returns or a listener throws.
    Unless a listener registers listeners or assigns to the store, the write
    comes to an end. *)
Theorem locked_write_never_sets v st :
  locked lock st = true →
  (size (listeners st) = 0 →
   ∀ fuel, set_value lock arg behaviour fuel v st = Returned st) ∧
  (∀ fuel st',
      final (set_value lock arg behaviour fuel v st) = Some st' →
      ∃ new,
        trace st' = trace st ++ new ∧
        world st' = replay arg new (world st) ∧
        (never_sets behaviour →
         Forall (λ e, ∀ place x, e ≠ AccessorSet place x) new) ∧
        (quiet behaviour →
         world st' = world st ∧ get_value arg st' = get_value arg st)) ∧
  (never_register behaviour → never_writes behaviour →
   is_Some (final (set_value lock arg behaviour
                     (S (length (listeners st))) v st))).
Proof.
  unfold locked. intros Hl. split; [|split].
  - intros Hz fuel. by rewrite set_value_unfold, Hl, Hz.
  - intros fuel st' H.
    destruct (final_traced fuel v st st' H) as (new & Ht & Hw & _).
    exists new. split; [done|]. split; [done|]. split.
    + intros Hq.
      destruct (final_never_sets fuel v st st' Hq Hl H) as (new' & Ht' & Hn).
      rewrite Ht in Ht'. by apply app_inv_head in Ht' as <-.
    + intros Hq. pose proof (final_quiet fuel v st st' Hq Hl H) as Hsame.
      split; [done|]. unfold get_value. by rewrite Hsame.
  - intros Hr Hw. rewrite set_value_unfold, Hl.
    destruct (size (listeners st) =? 0); [by eexists|].
    apply dispatch_finishes; [done..|lia].
Qed.

(** C4, amended.  When [lock()] is true and no listener is registered,
    [store.value = v] returns with nothing changed.  With listeners that,
    while they run, only call [force] or change the state outside (they do
    not touch the registry, abort no signal, do not assign to the store and do
    not throw), it calls every registered listener once, in the order of
    registration, each with an event of its own: as many events are built as
    there are listeners, each carries [newValue = v] and, as [value], the
    [accessor.get()] of the moment of the call; for the first listener that is
    the value of the moment of the write, and for all of them when what the
    listeners do leaves [accessor.get()] as it is. *)
Theorem locked_write_notifies_each_listener v st :
  locked lock st = true →
  (size (listeners st) = 0 →
   ∀ fuel, set_value lock arg behaviour fuel v st = Returned st) ∧
  (orderly behaviour →
   ∃ st' new,
     set_value lock arg behaviour (S (length (listeners st))) v st
     = Returned st' ∧
     trace st' = trace st ++ new ∧
     (invocations new).*1 = live (listeners st) ∧
     (λ c, event_id c.2) <$> invocations new
       = seq (created st) (size (listeners st)) ∧
     created st' = created st + size (listeners st) ∧
     Forall (λ c, newValue c.2 = v) (invocations new) ∧
     (∀ k l ev, new !! k = Some (Invoked l ev) →
                value ev = accessor_get arg (replay arg (take k new) (world st))) ∧
     (∀ c, head (invocations new) = Some c →
           value c.2 = accessor_get arg (world st)) ∧
     (leave_value arg behaviour →
      Forall (λ c, value c.2 = accessor_get arg (world st)) (invocations new))).
Proof.
  intros Hl. split.
  - intros Hz fuel. unfold locked in Hl. by rewrite set_value_unfold, Hl, Hz.
  - intros Hq.
    destruct (set_value_deliveries v st Hl Hq)
      as (st' & new & H & Ht & Hinv & Hc).
    exists st', new. rewrite Hinv.
    split; [done|]. split; [done|].
    split; [apply deliveries_listeners|].
    split; [apply deliveries_ids|]. split; [done|].
    split; [apply deliveries_newValue|]. split; [|split].
    + destruct (final_traced (S (length (listeners st))) v st st')
        as (new' & Ht' & _ & _ & Hr); [by rewrite H|].
      rewrite Ht in Ht'. apply app_inv_head in Ht' as <-.
      intros k l ev Hk. by destruct (Hr k l ev Hk).
    + intros c. destruct (live (listeners st)); [done|]. by intros [= <-].
    + apply deliveries_value.
Qed.

(** ** [force] *)

(** C7.  [store.force] is the function [accessor.set] itself, which is then
    called on the store.  With an accessor written with methods, as
    [method_accessor], the call of [force(v)] is made and leaves [v] on the
    store object: the [current] of the accessor is what it was, and
    [store.value] reads what it read before, not [v].  The setter, which
    calls [accessor.set(v)] on the accessor, stores [v]. *)
Theorem force_misses_method_accessor v (st : state T (T * option T)) :
  trace (force method_accessor v st) = trace st ++ [AccessorSet Forced v] ∧
  world (force method_accessor v st) = ((world st).1, Some v) ∧
  get_value method_accessor (force method_accessor v st)
  = get_value method_accessor st ∧
  get_value method_accessor (assign method_accessor v st) = v.
Proof. split; [done|]. split; [done|]. split; reflexivity. Qed.

(** C10.  In one locked write every listener call hands over an event of its
    own (its identity is the number of events built before it), whose [value]
    is [accessor.get()] in the state of the moment of the call: the state that
    the [accessor.set] calls and the changes made earlier in the write have
    left; its [newValue] is the value of the write, or else the value that a
    listener assigns to the store in turn.  With listeners that only call
    [force] the calls are those of [deliveries], and of two listeners in a
    row the second one reads the outside state as the [force] calls of the
    first have left it. *)
Theorem event_value_is_read_per_listener v st :
  locked lock st = true →
  (∀ fuel st',
      final (set_value lock arg behaviour fuel v st) = Some st' →
      ∃ new,
        trace st' = trace st ++ new ∧
        ∀ k l ev,
          new !! k = Some (Invoked l ev) →
          value ev = accessor_get arg (replay arg (take k new) (world st)) ∧
          (newValue ev = v ∨
           ∃ l' ev', Write (newValue ev) ∈ behaviour l' ev') ∧
          event_id ev = created st + length (invocations (take k new))) ∧
  (only_forces behaviour →
   ∃ st' new,
     set_value lock arg behaviour (S (length (listeners st))) v st
     = Returned st' ∧
     trace st' = trace st ++ new ∧
     invocations new =
       deliveries arg behaviour v (live (listeners st)) (world st)
         (created st) ∧
     ∀ l1 l2 rest,
       live (listeners st) = l1 :: l2 :: rest →
       ∃ ev1 ev2 more,
         invocations new = (l1, ev1) :: (l2, ev2) :: more ∧
         value ev1 = accessor_get arg (world st) ∧
         value ev2 =
           accessor_get arg
             (foldl (λ w x, accessor_set arg Forced x w) (world st)
                (forced (behaviour l1 ev1))) ∧
         event_id ev2 ≠ event_id ev1).
Proof.
  intros Hl. split.
  - intros fuel st' H.
    destruct (final_traced fuel v st st' H) as (new & Ht & _ & _ & Hr).
    exists new. split; [done|]. intros k l ev Hk.
    destruct (Hr k l ev Hk) as [Hv Hid]. split; [done|]. split; [|done].
    destruct (final_newValue fuel v st st' Hl H) as (new' & Ht' & Hn).
    rewrite Ht in Ht'. apply app_inv_head in Ht' as <-.
    eapply Forall_forall in Hn; [by apply (Hn l ev)|].
    by eapply list_elem_of_lookup_2.
  - intros Hq.
    assert (orderly behaviour) as Ho.
    { intros l ev. eapply Forall_impl; [apply (Hq l ev)|]. by left. }
    destruct (set_value_deliveries v st Hl Ho)
      as (st' & new & H & Ht & Hinv & Hc).
    exists st', new. split; [done|]. split; [done|]. split; [done|].
    intros l1 l2 rest Hlive. rewrite Hinv, Hlive. simpl.
    eexists _, _, _. split; [done|]. simpl.
    split; [done|]. split; [by rewrite effect_forced by apply Hq|]. lia.
Qed.

(** C9.  Once the unregister function of [l] has been called, or a signal
    that [l] was registered with, and that nobody has aborted before or
    since, has been aborted, [l] is not in the registry; and whatever is done
    with the store afterwards, short of registering [l] again, adds no call
    of [l] to the trace. *)
Theorem removed_listener_is_never_called l st st1 ops fuel st2 :
  never_registers behaviour l →
  st1 = cleanup l st ∨
  (∃ (s : signal) st0 before fuel0,
      (s ∉ aborted st0) ∧
      never_cancels behaviour s ∧
      Forall (λ a, a ≠ Cancel s) before ∧
      run_ops lock arg behaviour fuel0 before
        (onupdateprevented l (Some s) st0) = Some st ∧
      st1 = abort s st) →
  Forall (λ a, ¬ registers l a) ops →
  run_ops lock arg behaviour fuel ops st1 = Some st2 →
  (Some l ∉ listeners st1) ∧
  (Some l ∉ listeners st2) ∧
  calls_of l (trace st2) = calls_of l (trace st1).
Proof.
  intros Hq Hrem Hops Hrun.
  assert (Some l ∉ listeners st1) as Hl.
  { destruct Hrem as [->|(s & st0 & before & fuel0 & Hs & Hc & Hb & Hst & ->)].
    - apply set_delete_removes.
    - destruct (run_ops_attached fuel0 before s l _ st Hc Hb Hst)
        as [Hh Ha]; [|by apply abort_removes].
      split; [|done]. simpl. apply elem_of_app. right.
      by apply list_elem_of_singleton. }
  split; [done|]. by apply (run_ops_absent l Hq fuel ops st1 st2).
Qed.

(** ** More about [force] *)

(** [store.force(v)] calls [accessor.set(v)] whatever [lock()] returns, and
    that is the only call it makes: no listener is called, no event is built,
    the registry is as before.  When [accessor.set], called on the store,
    stores what [accessor.get] reads, [store.value] then reads [v]: so it is
    for an accessor given as an object with a [value] property, and for a
    [get]/[set] pair that does not use [this], when reading gives back what
    was written. *)
Lemma force_is_unconditional v st :
  world (force arg v st) = accessor_set arg Forced v (world st) ∧
  trace (force arg v st) = trace st ++ [AccessorSet Forced v] ∧
  invocations (trace (force arg v st)) = invocations (trace st) ∧
  created (force arg v st) = created st ∧
  listeners (force arg v st) = listeners st ∧
  ((∀ x w, accessor_get arg (accessor_set arg Forced x w) = x) →
   get_value arg (force arg v st) = v) ∧
  (∀ (property : W → T) (put : T → W → W),
      arg = Value property put → (∀ x w, property (put x w) = x) →
      get_value arg (force arg v st) = v) ∧
  (∀ (get : W → T) (set : T → W → W),
      arg = GetSet get (λ _, set) → (∀ x w, get (set x w) = x) →
      get_value arg (force arg v st) = v).
Proof.
  unfold get_value, force; simpl. rewrite invocations_app, app_nil_r.
  split; [done|]. split; [done|]. split; [done|]. split; [done|].
  split; [done|]. split; [|split].
  - intros Hlaw. by rewrite Hlaw.
  - intros property put -> Hlaw. simpl. by rewrite Hlaw.
  - intros get set -> Hlaw. simpl. by rewrite Hlaw.
Qed.

(** ** Registration *)

(** X9.  Registering a listener that is registered already changes nothing;
    registering a new one puts it last; and unregistering it again leaves
    the listeners that were there, in their order. *)
Theorem registration_round_trip l sig st :
  (Some l ∈ listeners st →
   live (listeners (onupdateprevented l sig st)) = live (listeners st)) ∧
  ((Some l ∉ listeners st) →
   live (listeners (onupdateprevented l sig st)) = live (listeners st) ++ [l] ∧
   live (listeners (cleanup l (onupdateprevented l sig st)))
   = live (listeners st)).
Proof.
  simpl. rewrite live_set_delete, live_set_add. split; intros Hl.
  - by rewrite decide_True.
  - rewrite decide_False by done. split; [done|].
    rewrite filter_app, filter_cons_False by (intros H; by apply H).
    rewrite filter_nil, app_nil_r. apply filter_ne_absent.
    by rewrite elem_of_live.
Qed.

(** ** Abort signals *)

(** X10.  The listeners [attached] to a signal are those that
    [onupdateprevented] was given together with that signal, in the order of
    the calls: none when the store is made, one more with each such call,
    and the unregister function takes none away.  The abort of a signal that
    was not aborted before unregisters exactly these listeners, the one
    registered last with the signal included, keeps the others in their
    order, calls nobody and leaves the value alone; a second abort changes
    nothing.  A listener registered with a signal that is aborted already is
    not unregistered by that signal. *)
Theorem abort_unregisters_attached (s : nat) st :
  (∀ (w : W) signals, attached s (from (T := T) w signals) = []) ∧
  (∀ l sig, attached s (onupdateprevented l sig st)
            = attached s st ++ (if decide (sig = Some s) then [l] else [])) ∧
  (∀ l, attached s (cleanup l st) = attached s st) ∧
  ((s ∉ aborted st) →
   live (listeners (abort s st))
   = filter (λ l, l ∉ attached s st) (live (listeners st)) ∧
   world (abort s st) = world st ∧
   trace (abort s st) = trace st ∧
   attached s (abort s st) = [] ∧
   abort s (abort s st) = abort s st ∧
   ∀ l, Some l ∉ listeners (abort s (onupdateprevented l (Some s) st))) ∧
  (s ∈ aborted st →
   ∀ l, abort s (onupdateprevented l (Some s) st)
        = onupdateprevented l (Some s) st ∧
        Some l ∈ listeners (abort s (onupdateprevented l (Some s) st))).
Proof.
  clear lock arg behaviour.
  split; [done|]. split; [|split; [done|split]].
  - intros l [s'|]; simpl; [|by rewrite app_nil_r]. unfold attached. simpl.
    rewrite filter_app, fmap_app. f_equal.
    destruct (decide (Some s' = Some s)) as [[= ->]|Hne].
    + by rewrite filter_cons_True.
    + rewrite filter_cons_False; [done|]. simpl. congruence.
  - intros Hs.
    destruct (abort_fresh s st Hs) as (Hl & Ha & Hh & Hw & Ht & Hc).
    split; [exact Hl|]. split; [exact Hw|]. split; [exact Ht|]. split; [|split].
    + unfold attached. rewrite Hh, list_filter_filter.
      match goal with
      | |- (filter ?P ?l).*2 = [] => assert (filter P l = []) as ->
      end; [|done].
      clear. induction (abort_handlers st) as [|h hs IH]; [done|].
      rewrite filter_cons_False by tauto. exact IH.
    + apply abort_again. rewrite Ha. left.
    + intros l. apply abort_removes; [|done]. simpl.
      apply elem_of_app. right. by apply list_elem_of_singleton.
  - intros Hs l. rewrite abort_again by done.
    split; [done|]. simpl. unfold set_add.
    destruct (decide (Some l ∈ listeners st)); [done|].
    apply elem_of_app. right. by apply list_elem_of_singleton.
Qed.

(** ** Through the gate *)

(** X11.  With an accessor whose [get] returns what [set] stored: when
    [lock()] is false, [store.value = v] returns and a read after it returns
    [v]; when [lock()] is true and the listeners neither call [force], nor
    assign to the store, nor change the state outside, a read after the write
    returns what it returned before, whether the write has returned or a
    listener has thrown. *)
Theorem read_after_gated_write fuel v st :
  (∀ x w, accessor_get arg (accessor_set arg Setter x w) = x) →
  quiet behaviour →
  (locked lock st = false →
   ∃ st', set_value lock arg behaviour fuel v st = Returned st' ∧
          get_value arg st' = v) ∧
  (locked lock st = true →
   ∀ st', final (set_value lock arg behaviour fuel v st) = Some st' →
          get_value arg st' = get_value arg st).
Proof.
  unfold locked. intros Hlaw Hq. split; intros Hl.
  - exists (assign arg v st). rewrite set_value_unfold, Hl. split; [done|].
    unfold get_value. simpl. apply Hlaw.
  - intros st' H. unfold get_value.
    by rewrite (final_quiet fuel v st st' Hq Hl H).
Qed.

(** X12.  Whatever is done with a store made by [from], by its users and by
    the listeners while they run, no listener is in the registry twice. *)
Theorem registry_holds_no_listener_twice (w : W) signals ops fuel st :
  run_ops lock arg behaviour fuel ops (from w signals) = Some st →
  NoDup (live (listeners st)).
Proof.
  intros Hrun. eapply run_ops_NoDup; [exact Hrun|]. simpl. constructor.
Qed.

(** ** Listeners that unregister themselves *)

Lemma run_actions_self write l acts st :
  Forall (λ a, is_force a ∨ a = Unregister l) acts →
  ∃ st2 sets,
    run_actions arg write acts st = Returned st2 ∧
    trace st2 = trace st ++ sets ∧
    invocations sets = [] ∧
    ((listeners st2 = listeners st ∧ Unregister l ∉ acts) ∨
     (listeners st2 = set_delete l (listeners st) ∧ Unregister l ∈ acts)).
Proof.
  intros H. revert st. induction H as [|a acts Ha _ IH]; intros st.
  - exists st, []. rewrite app_nil_r. split; [done|]. split; [done|].
    split; [done|]. left. split; [done|]. apply not_elem_of_nil.
  - destruct Ha as [Ha| ->].
    + destruct a as [x| | | | | | |]; try done. simpl.
      destruct (IH (force arg x st)) as (st2 & sets & -> & Ht & Hs & Hl).
      exists st2, (AccessorSet Forced x :: sets). split; [done|].
      split; [rewrite Ht; simpl; by rewrite <- app_assoc|]. split; [done|].
      destruct Hl as [[Hl Hn]|[Hl Hn]]; [left|right]; (split; [done|]);
        rewrite ?not_elem_of_cons, ?elem_of_cons; auto.
    + simpl.
      destruct (IH (cleanup l st)) as (st2 & sets & -> & Ht & Hs & Hl).
      exists st2, sets. split; [done|]. split; [done|]. split; [done|].
      right. split; [|left].
      destruct Hl as [[Hl _]|[Hl _]]; rewrite Hl; simpl;
        by rewrite ?set_delete_idemp_registry.
Qed.

Lemma drop_set_delete_absent l s i :
  l ∉ live (drop i s) → drop i (set_delete l s) = drop i s.
Proof.
  intros Hl. unfold set_delete. rewrite <- fmap_drop.
  rewrite elem_of_live in Hl.
  induction (drop i s) as [|slot r IH]; [done|].
  apply not_elem_of_cons in Hl as [Hne Hl]. rewrite fmap_cons.
  rewrite decide_False by done. f_equal. by apply IH.
Qed.

Lemma dispatch_absent write l fuel i v st st' :
  (∀ l' ev, Forall (λ a, ¬ registers l a ∧ ¬ is_write a) (behaviour l' ev)) →
  final (dispatch arg behaviour write fuel i v st) = Some st' →
  stays_out l st st'.
Proof.
  intros Hq.
  apply (dispatch_rule (λ a, ¬ registers l a ∧ ¬ is_write a) (stays_out l)).
  - by intros st1 Hl.
  - apply stays_out_trans.
  - intros x st1 _. apply stays_out_silent; [done|]. simpl.
    by rewrite calls_of_app, app_nil_r.
  - intros l' st1 _. apply stays_out_silent; [|done].
    apply set_delete_absent_other.
  - intros l' st1 [Hl' _]. apply stays_out_silent; [|done].
    apply set_add_absent_other. intros ->. apply Hl'. by left.
  - intros l' s0 st1 [Hl' _]. apply stays_out_silent; [|done].
    apply set_add_absent_other. intros ->. apply Hl'. right. by exists s0.
  - intros s0 st1 _. apply stays_out_silent; [apply abort_absent|].
    by destruct (abort_frame s0 st1) as (_ & -> & _).
  - intros change st1 _. apply stays_out_silent; [done|]. simpl.
    by rewrite calls_of_app, app_nil_r.
  - exact Hq.
  - intros x st1 st2 [_ Hx]. by destruct (Hx I).
  - intros l' st1 Hin Hl. split; [done|]. simpl.
    rewrite calls_of_app. unfold calls_of at 2. simpl.
    rewrite filter_cons_False; [by rewrite filter_nil, app_nil_r|].
    simpl. intros ->. by apply Hl.
Qed.

Lemma self_only_stays_out l :
  self_only behaviour →
  ∀ l' ev, Forall (λ a, ¬ registers l a ∧ ¬ is_write a) (behaviour l' ev).
Proof.
  intros Hq l' ev. eapply Forall_impl; [apply (Hq l' ev)|].
  intros a [Ha| ->].
  - destruct a; try done. split; [by intros [?|[? ?]]|by intros H].
  - split; [by intros [?|[? ?]]|by intros H].
Qed.

Lemma dispatch_once write fuel i v st :
  self_only behaviour →
  NoDup (live (drop i (listeners st))) →
  length (listeners st) - i < fuel →
  ∃ st' new,
    dispatch arg behaviour write fuel i v st = Returned st' ∧
    trace st' = trace st ++ new ∧
    (invocations new).*1 = live (drop i (listeners st)) ∧
    ∀ l ev, (l, ev) ∈ invocations new → Unregister l ∈ behaviour l ev →
            Some l ∉ listeners st'.
Proof.
  intros Hq. revert i st. induction fuel as [|k IH]; intros i st Hnd Hk; [lia|].
  simpl. destruct (listeners st !! i) as [[l|]|] eqn:Hi.
  - pose proof (lookup_lt_Some _ _ _ Hi) as Hlt.
    rewrite (drop_S _ _ _ Hi), live_cons_Some in Hnd |- *.
    apply NoDup_cons in Hnd as [Hl Hnd].
    set (ev := event_for arg v st). unfold notify. fold ev.
    destruct (run_actions_self write l (behaviour l ev) (call arg l v st)
                (Hq l ev)) as (st2 & sets & -> & Ht2 & Hsets & Hl2).
    assert (drop (S i) (listeners st2) = drop (S i) (listeners st) ∧
            length (listeners st2) = length (listeners st) ∧
            (Unregister l ∈ behaviour l ev → Some l ∉ listeners st2))
      as (Hdrop & Hlen & Hgone).
    { destruct Hl2 as [[Hl2 Hn]|[Hl2 Hn]]; rewrite Hl2; simpl.
      - done.
      - split; [by apply drop_set_delete_absent|].
        split; [apply registry_delete_length|].
        intros _. apply set_delete_removes. }
    destruct (IH (S i) st2) as (st' & new & Hd & Ht & Hinv & Hun).
    { by rewrite Hdrop. }
    { lia. }
    exists st', ([Invoked l ev] ++ sets ++ new).
    split; [done|]. split.
    { rewrite Ht, Ht2. simpl. by rewrite <- !app_assoc. }
    rewrite !invocations_app, Hsets. simpl. split.
    { f_equal. rewrite <- Hdrop. exact Hinv. }
    intros l' ev' Hin Hact. apply elem_of_cons in Hin as [[= -> ->]|Hin].
    + assert (absent l st2 st') as [? _]; [|done].
      eapply (dispatch_absent write l k (S i) v st2 st');
        [by apply self_only_stays_out|by rewrite Hd|by apply Hgone].
    + by eapply Hun.
  - pose proof (lookup_lt_Some _ _ _ Hi) as Hlt.
    rewrite (drop_S _ _ _ Hi), live_cons_None in Hnd |- *. apply IH; [done|lia].
  - apply lookup_ge_None in Hi. rewrite drop_ge by done.
    exists st, []. rewrite app_nil_r. repeat split; try done.
    intros l ev H. by apply not_elem_of_nil in H.
Qed.

(** X13.  Listeners may unregister themselves while they are called: the
    locked write still calls every registered listener once, in the order of
    registration, and a listener that has unregistered itself is not in the
    registry afterwards. *)
Theorem self_unregistering_listeners v st :
  locked lock st = true →
  self_only behaviour →
  NoDup (live (listeners st)) →
  ∃ st' new,
    set_value lock arg behaviour (S (length (listeners st))) v st
    = Returned st' ∧
    trace st' = trace st ++ new ∧
    (invocations new).*1 = live (listeners st) ∧
    ∀ l ev, (l, ev) ∈ invocations new → Unregister l ∈ behaviour l ev →
            Some l ∉ listeners st'.
Proof.
  unfold locked. intros Hl Hq Hnd. rewrite set_value_unfold, Hl.
  destruct (Nat.eqb_spec (size (listeners st)) 0) as [Hz|Hz].
  - exists st, []. rewrite app_nil_r, (no_listener _ Hz).
    repeat split; try done. intros l ev H. by apply not_elem_of_nil in H.
  - destruct (dispatch_once (set_value lock arg behaviour (length (listeners st)))
                (S (length (listeners st))) 0 v st Hq)
      as (st' & new & Hd & Ht & Hinv & Hun); [by rewrite drop_0|lia|].
    rewrite drop_0 in Hinv. by exists st', new.
Qed.

(** ** A listener that registers itself again *)

Lemma only_listener l s :
  live s = [l] →
  ∃ A B, s = A ++ Some l :: B ∧ Forall (λ x, x = None) A ∧
         Forall (λ x, x = None) B.
Proof.
  induction s as [|[x|] s IH]; intros H; [done| |].
  - rewrite live_cons_Some in H. injection H as -> Hs.
    exists [], s. split; [done|]. split; [constructor|].
    apply Forall_forall. intros [y|] Hy; [|done].
    apply elem_of_live in Hy. rewrite Hs in Hy. by apply not_elem_of_nil in Hy.
  - rewrite live_cons_None in H. destruct (IH H) as (A & B & -> & HA & HB).
    exists (None :: A), B. split; [done|]. split; [by constructor|done].
Qed.

Lemma set_delete_nones l (A : list (option nat)) :
  Forall (λ x, x = None) A → set_delete l A = A.
Proof.
  unfold set_delete. induction 1 as [|x A -> _ IH]; [done|].
  rewrite fmap_cons, decide_False by done. f_equal. exact IH.
Qed.

Lemma dispatch_resubscribes write l fuel i v st A B :
  resubscribes behaviour l →
  listeners st = A ++ Some l :: B →
  Forall (λ x, x = None) A → Forall (λ x, x = None) B →
  i ≤ length A →
  dispatch arg behaviour write fuel i v st = Unfinished.
Proof.
  intros Hq. revert i st A B.
  induction fuel as [|k IH]; intros i st A B Hls HA HB Hi; [done|].
  simpl. rewrite Hls.
  destruct (decide (i < length A)) as [Hlt|Hge].
  - rewrite lookup_app_l by done.
    destruct (lookup_lt_is_Some_2 A i Hlt) as [slot Hslot]. rewrite Hslot.
    pose proof (proj1 (Forall_forall _ _) HA) as HA'.
    rewrite (HA' slot) by (by eapply list_elem_of_lookup_2).
    eapply IH; [done..|lia].
  - assert (i = length A) as -> by lia.
    rewrite list_lookup_middle by done.
    unfold notify. rewrite Hq. simpl.
    eapply (IH _ _ (A ++ None :: B) []); [| |constructor|].
    + simpl. rewrite Hls.
      assert (set_delete l (A ++ Some l :: B) = A ++ None :: B) as ->.
      { pose proof (set_delete_nones l A HA) as EA.
        pose proof (set_delete_nones l B HB) as EB.
        unfold set_delete in *.
        rewrite fmap_app, fmap_cons, decide_True by done. by rewrite EA, EB. }
      unfold set_add. rewrite decide_False; [by rewrite <- app_assoc|].
      intros Hin. apply elem_of_app in Hin as [Hin|Hin].
      * by pose proof (proj1 (Forall_forall _ _) HA _ Hin).
      * apply elem_of_cons in Hin as [?|Hin]; [done|].
        by pose proof (proj1 (Forall_forall _ _) HB _ Hin).
    + apply Forall_app. split; [done|]. by constructor.
    + rewrite length_app. simpl. lia.
Qed.

(** X14.  A listener that unregisters itself and registers itself again while
    it is called keeps a locked write from ever returning: the iteration
    over the listeners comes to the re-added entry again and again. *)
Theorem resubscribing_listener_never_returns l v st :
  locked lock st = true →
  live (listeners st) = [l] →
  resubscribes behaviour l →
  ∀ fuel, set_value lock arg behaviour fuel v st = Unfinished.
Proof.
  unfold locked. intros Hl Hlive Hq fuel. rewrite set_value_unfold, Hl.
  unfold size. fold (live (listeners st)). rewrite Hlive. simpl.
  destruct (only_listener l _ Hlive) as (A & B & Hls & HA & HB).
  eapply dispatch_resubscribes; [done..|lia].
Qed.

End LockableTheory.


(** * The theorems at work on the examples *)

Section Examples.
Import Loading.

Lemma example_world_wf : wf (heap example_world).
Proof. apply reachable_wf. by eexists _, _. Qed.

Lemma value_is_or_of_children_witness :
  wf (heap example_world) ∧
  heap example_world !! 0 = Some (Store (GState false) [1; 2]) ∧
  ∃ kids : list bool,
    Forall2 (λ c b, get_value c example_world = Returns b example_world)
      [1; 2] kids ∧
    get_value 0 example_world =
    Returns (run_getter (env example_world) (GState false) || existsb id kids)
      example_world.
Proof.
  split; [apply example_world_wf|]. split; [reflexivity|].
  apply value_is_or_of_children; [apply example_world_wf|reflexivity].
Defined.

Lemma promised_timeline_witness :
  wf (heap example_world) ∧
  heap example_world !! 0 = Some (Store (GState false) [1; 2]) ∧
  (Z.of_nat 50 ≤ TIMEOUT_MAX)%Z ∧
  ∃ c w0,
    promised 0 50 example_world = Returns c w0 ∧
    get_value c w0 = Returns false w0 ∧
    ∀ settles o tf,
      (settles < 50 → ∀ ms, ∃ w',
          elapse tf (now example_world + settles) o c ms w0 = Returns tt w' ∧
          get_value c w' = Returns false w' ∧
          (settles ≤ ms → heap w' !! c = Some (PromisedStore false None))) ∧
      (50 < settles → ∀ ms, ∃ w',
          elapse tf (now example_world + settles) o c ms w0 = Returns tt w' ∧
          get_value c w' = Returns (bool_decide (50 ≤ ms < settles)) w' ∧
          (settles ≤ ms → heap w' !! c = Some (PromisedStore false None))).
Proof.
  assert (Z.of_nat 50 ≤ TIMEOUT_MAX)%Z as H by (unfold TIMEOUT_MAX; lia).
  split; [apply example_world_wf|]. split; [reflexivity|]. split; [exact H|].
  exact (promised_timeline example_world 0 (GState false) [1; 2] 50
           example_world_wf eq_refl H).
Defined.

(** The claim C2 as it is written fails for a delay of [2^31] ms, which the
    timer cannot hold: with a promise that settles after 100 ms, long before
    such a delay, the store is on after 25 ms. *)
Lemma timeline_for_every_delay_fails :
  ¬ timeline_for_every_delay example_world 0 (Z.to_nat (2 ^ 31)) 100.
Proof.
  intros H. destruct (H Fulfilled true) as (c & w0 & Hp & _ & Hfast & _).
  assert (100 < Z.to_nat (2 ^ 31)) as Hlt by lia.
  destruct (Hfast Hlt 25) as (w' & He & Hg). clear H Hfast Hlt.
  rewrite (promised_returns example_world 0 (GState false) [1; 2] _
             example_world_wf eq_refl) in Hp.
  rewrite timer_delay_beyond in Hp
    by (rewrite Z2Nat.id by lia; unfold TIMEOUT_MAX; lia).
  injection Hp as <- <-. vm_compute in He. injection He as <-.
  vm_compute in Hg. discriminate Hg.
Qed.

Lemma readonly_value_throws_witness :
  heap example_world !! 3 = Some (Store (GDerived (λ e, e)) []) ∧
  ((∃ from vs, Store (GDerived (λ e : bool, e)) [] = Store (GDerived from) vs) ∨
   (∃ value timeout,
       Store (GDerived (λ e : bool, e)) [] = PromisedStore value timeout)) ∧
  ∃ err,
    set_value 3 true example_world = Throws err example_world ∧
    err = ReadonlyProperty.
Proof.
  assert ((∃ from vs,
              Store (GDerived (λ e : bool, e)) [] = Store (GDerived from) vs) ∨
          (∃ value timeout,
              Store (GDerived (λ e : bool, e)) [] = PromisedStore value timeout))
    as H by (left; eexists _, _; reflexivity).
  split; [reflexivity|]. split; [exact H|].
  exact (readonly_value_throws example_world 3 _ true eq_refl H).
Defined.

Lemma teardown_detaches_witness :
  wf (heap example_world) ∧
  heap example_world !! 0 = Some (Store (GState false) [1; 2]) ∧
  1 ∈ [1; 2] ∧
  ∃ w1,
    values_delete 0 1 example_world = Returns tt w1 ∧
    heap w1 !! 0 = Some (Store (GState false) (set_delete 1 [1; 2])) ∧
    (∀ x, x ∈ set_delete 1 [1; 2] ↔ x ≠ 1 ∧ x ∈ [1; 2]) ∧
    S (length (set_delete 1 [1; 2])) = length [1; 2] ∧
    values_delete 0 1 w1 = Returns tt w1 ∧
    ∀ a, subtree (heap example_world) a 1 → a ≠ 1 →
      ∀ w2,
        env w2 = env w1 →
        length (heap w1) ≤ length (heap w2) →
        (∀ i, i < length (heap w1) → ¬ subtree (heap w1) 1 i →
              heap w2 !! i = heap w1 !! i) →
        ∃ b, get_value a w1 = Returns b w1 ∧ get_value a w2 = Returns b w2.
Proof.
  assert (1 ∈ [1; 2]) as H by left.
  split; [apply example_world_wf|]. split; [reflexivity|]. split; [exact H|].
  exact (teardown_detaches example_world 0 (GState false) [1; 2] 1
           example_world_wf eq_refl H).
Defined.

Lemma or_is_value_or_boolean_witness :
  wf (heap example_world) ∧
  2 < length (heap example_world) ∧
  ∃ b,
    get_value 2 example_world = Returns b example_world ∧
    or_ 2 (Str "x") example_world = Returns (b || Boolean (Str "x")) example_world ∧
    (b = false → or_ 2 (Str "x") example_world
                 = Returns (Boolean (Str "x")) example_world) ∧
    (b = true → or_ 2 (Str "x") example_world = Returns true example_world).
Proof.
  assert (2 < length (heap example_world)) as H by (vm_compute; lia).
  split; [apply example_world_wf|]. split; [exact H|].
  exact (or_is_value_or_boolean example_world 2 (Str "x") example_world_wf H).
Defined.

End Examples.

Section LockableExamples.
Import Lockable LockableViews.

Lemma passive_quiet : quiet passive.
Proof. intros l ev. constructor. Qed.

Lemma passive_never_sets : never_sets passive.
Proof. intros l ev. constructor. Qed.

Lemma passive_never_writes : never_writes passive.
Proof. intros l ev. constructor. Qed.

Lemma passive_never_register : never_register passive.
Proof. intros l l' ev. constructor. Qed.

Lemma passive_never_cancels (s : nat) : never_cancels passive s.
Proof. intros l ev. constructor. Qed.

Lemma passive_orderly : orderly passive.
Proof. intros l ev. constructor. Qed.

Lemma passive_leave_value : leave_value lockable_accessor passive.
Proof. intros l ev w. reflexivity. Qed.

Lemma overriding_only_forces : only_forces overriding.
Proof.
  intros l ev. unfold overriding. destruct (l =? 0); repeat constructor.
Qed.

Lemma overriding_orderly : orderly overriding.
Proof.
  intros l ev. eapply Forall_impl; [apply overriding_only_forces|]. by left.
Qed.

Lemma overriding_never_writes : never_writes overriding.
Proof.
  intros l ev. eapply Forall_impl; [apply overriding_only_forces|].
  intros a Ha Hw. by destruct a.
Qed.

Lemma once_self_only : self_only once.
Proof.
  intros l ev. unfold once. destruct (l =? 0) eqn:E; [|constructor].
  apply Nat.eqb_eq in E as ->. constructor; [by right|constructor].
Qed.

Lemma example_ops_leave_1 :
  Forall (λ a : action string (bool * string), ¬ registers 1 a) example_ops.
Proof. repeat constructor; by intros [?|[? ?]]. Qed.

(** On the store without listeners the locked write returns at once; on the
    store of the example, whose listeners only look, every part of the
    theorem applies. *)
Lemma locked_write_never_sets_witness :
  locked example_lock (lockable true "A"%string) = true ∧
  size (listeners (lockable (T := string) true "A"%string)) = 0 ∧
  (∀ fuel,
      set_value example_lock lockable_accessor passive fuel "B"%string
        (lockable true "A"%string)
      = Returned (lockable true "A"%string)) ∧
  locked example_lock example_store = true ∧
  never_sets passive ∧ quiet passive ∧
  never_register passive ∧ never_writes passive ∧
  (∀ fuel st',
      final (set_value example_lock lockable_accessor passive fuel "B"%string
               example_store) = Some st' →
      ∃ new,
        trace st' = trace example_store ++ new ∧
        world st' = replay lockable_accessor new (world example_store) ∧
        Forall (λ e, ∀ place x, e ≠ AccessorSet place x) new ∧
        world st' = world example_store ∧
        get_value lockable_accessor st'
        = get_value lockable_accessor example_store) ∧
  is_Some (final (set_value example_lock lockable_accessor passive
                    (S (length (listeners example_store))) "B"%string
                    example_store)).
Proof.
  destruct (locked_write_never_sets example_lock lockable_accessor passive
              "B"%string (lockable true "A"%string) eq_refl) as (Hnone & _).
  destruct (locked_write_never_sets example_lock lockable_accessor passive
              "B"%string example_store eq_refl) as (_ & Hany & Hends).
  split; [reflexivity|]. split; [reflexivity|]. split; [exact (Hnone eq_refl)|].
  split; [reflexivity|]. split; [exact passive_never_sets|].
  split; [exact passive_quiet|]. split; [exact passive_never_register|].
  split; [exact passive_never_writes|]. split.
  - intros fuel st' H. destruct (Hany fuel st' H) as (new & Ht & Hw & Hs & Hq).
    exists new. split; [exact Ht|]. split; [exact Hw|].
    split; [exact (Hs passive_never_sets)|]. exact (Hq passive_quiet).
  - exact (Hends passive_never_register passive_never_writes).
Defined.

(** The claim C3 as it is written fails on a store with a listener that calls
    [force]: the write of ["B"] is rejected, and [store.value], which read
    ["A"] before, reads ["C"] after it. *)
Lemma rejected_write_changes_nothing_fails :
  ¬ rejected_write_changes_nothing example_lock lockable_accessor overriding
      "B"%string example_store.
Proof.
  intros H. destruct (H eq_refl 3 _ eq_refl) as (_ & _ & Hget).
  discriminate Hget.
Qed.

(** The claim C4 as it is written fails on a store with two listeners: the
    loop builds an event for each of them, two in all. *)
Lemma one_event_per_attempt_fails :
  ¬ one_event_per_attempt example_lock lockable_accessor passive
      "B"%string example_store.
Proof.
  intros (st' & new & ev & Hset & _ & Hcreated & _).
  vm_compute in Hset. injection Hset as <-. discriminate Hcreated.
Qed.

(** Without listeners nothing happens; the two listeners of the example are
    called once each, with the value of the moment of the write when they
    only look, and with what the first has forced when it calls [force]. *)
Lemma locked_write_notifies_each_listener_witness :
  locked example_lock (lockable true "A"%string) = true ∧
  size (listeners (lockable (T := string) true "A"%string)) = 0 ∧
  (∀ fuel,
      set_value example_lock lockable_accessor passive fuel "B"%string
        (lockable true "A"%string)
      = Returned (lockable true "A"%string)) ∧
  locked example_lock example_store = true ∧
  orderly passive ∧ leave_value lockable_accessor passive ∧
  orderly overriding ∧
  (∃ st' new,
     set_value example_lock lockable_accessor passive
       (S (length (listeners example_store))) "B"%string example_store
     = Returned st' ∧
     trace st' = trace example_store ++ new ∧
     (invocations new).*1 = live (listeners example_store) ∧
     Forall (λ c, value c.2
                  = accessor_get lockable_accessor (world example_store))
       (invocations new)) ∧
  (∃ st' new,
     set_value example_lock lockable_accessor overriding
       (S (length (listeners example_store))) "B"%string example_store
     = Returned st' ∧
     trace st' = trace example_store ++ new ∧
     (invocations new).*1 = live (listeners example_store) ∧
     (λ c, event_id c.2) <$> invocations new
       = seq (created example_store) (size (listeners example_store)) ∧
     created st' = created example_store + size (listeners example_store) ∧
     Forall (λ c, newValue c.2 = "B"%string) (invocations new) ∧
     (∀ k l ev, new !! k = Some (Invoked l ev) →
                value ev = accessor_get lockable_accessor
                             (replay lockable_accessor (take k new)
                                (world example_store))) ∧
     (∀ c, head (invocations new) = Some c →
           value c.2 = accessor_get lockable_accessor (world example_store))).
Proof.
  destruct (locked_write_notifies_each_listener example_lock lockable_accessor
              passive "B"%string (lockable true "A"%string) eq_refl)
    as (Hnone & _).
  destruct (locked_write_notifies_each_listener example_lock lockable_accessor
              passive "B"%string example_store eq_refl) as (_ & Hlook).
  destruct (locked_write_notifies_each_listener example_lock lockable_accessor
              overriding "B"%string example_store eq_refl) as (_ & Hforce).
  split; [reflexivity|]. split; [reflexivity|]. split; [exact (Hnone eq_refl)|].
  split; [reflexivity|]. split; [exact passive_orderly|].
  split; [exact passive_leave_value|]. split; [exact overriding_orderly|].
  split.
  - destruct (Hlook passive_orderly)
      as (st' & new & H & Ht & Hl & _ & _ & _ & _ & _ & Hq).
    exists st', new. split; [exact H|]. split; [exact Ht|].
    split; [exact Hl|]. exact (Hq passive_leave_value).
  - destruct (Hforce overriding_orderly)
      as (st' & new & H & Ht & Hl & Hid & Hc & Hn & Hv & Hh & _).
    exists st', new. split; [exact H|]. split; [exact Ht|].
    split; [exact Hl|]. split; [exact Hid|]. split; [exact Hc|].
    split; [exact Hn|]. split; [exact Hv|]. exact Hh.
Defined.

(** The listener [1] of the example is removed by its unregister function,
    and, registered with the signal [7], by the abort of that signal after a
    locked write. *)
Lemma removed_listener_is_never_called_witness :
  never_registers passive 1 ∧
  Forall (λ a : action string (bool * string), ¬ registers 1 a) example_ops ∧
  run_ops example_lock lockable_accessor passive 3 example_ops
    (cleanup 1 example_store) = Some example_store_later ∧
  ((Some 1 ∉ listeners (cleanup 1 example_store)) ∧
   (Some 1 ∉ listeners example_store_later) ∧
   calls_of 1 (trace example_store_later)
   = calls_of 1 (trace (cleanup 1 example_store))) ∧
  (7 ∉ aborted (onupdateprevented 0 None (lockable true "A"%string))) ∧
  never_cancels passive 7 ∧
  Forall (λ a : action string (bool * string), a ≠ Cancel 7)
    [Write "B"%string] ∧
  ∃ st st2,
    run_ops example_lock lockable_accessor passive 3 [Write "B"%string]
      example_store_signal = Some st ∧
    run_ops example_lock lockable_accessor passive 3 example_ops (abort 7 st)
    = Some st2 ∧
    (Some 1 ∉ listeners (abort 7 st)) ∧
    (Some 1 ∉ listeners st2) ∧
    calls_of 1 (trace st2) = calls_of 1 (trace (abort 7 st)).
Proof.
  assert (7 ∉ aborted (onupdateprevented 0 None
                         (lockable (T := string) true "A"%string))) as Hs
    by (apply (bool_decide_unpack _); vm_compute; exact I).
  assert (Forall (λ a : action string (bool * string), a ≠ Cancel 7)
            [Write "B"%string]) as Hb by (repeat constructor; discriminate).
  split; [exact (passive_never_register 1)|].
  split; [exact example_ops_leave_1|]. split; [reflexivity|]. split.
  - exact (removed_listener_is_never_called example_lock lockable_accessor
             passive 1 example_store (cleanup 1 example_store) example_ops 3
             example_store_later (passive_never_register 1)
             (or_introl eq_refl) example_ops_leave_1 eq_refl).
  - split; [exact Hs|]. split; [exact (passive_never_cancels 7)|].
    split; [exact Hb|].
    destruct (run_ops example_lock lockable_accessor passive 3
                [Write "B"%string] example_store_signal) as [st|] eqn:Hst;
      [|vm_compute in Hst; discriminate Hst].
    destruct (run_ops example_lock lockable_accessor passive 3 example_ops
                (abort 7 st)) as [st2|] eqn:Hst2.
    + exists st, st2. split; [reflexivity|]. split; [exact Hst2|].
      exact (removed_listener_is_never_called example_lock lockable_accessor
               passive 1 st (abort 7 st) example_ops 3 st2
               (passive_never_register 1)
               (or_intror
                  (ex_intro _ 7
                     (ex_intro _ (onupdateprevented 0 None
                                    (lockable true "A"%string))
                        (ex_intro _ [Write "B"%string]
                           (ex_intro _ 3
                              (conj Hs
                                 (conj (passive_never_cancels 7)
                                    (conj Hb (conj Hst eq_refl)))))))))
               example_ops_leave_1 Hst2).
    + vm_compute in Hst. injection Hst as <-. vm_compute in Hst2.
      discriminate Hst2.
Defined.

Lemma event_value_is_read_per_listener_witness :
  locked example_lock example_store = true ∧
  only_forces overriding ∧ never_writes overriding ∧
  (∀ fuel st',
      final (set_value example_lock lockable_accessor overriding fuel
               "B"%string example_store) = Some st' →
      ∃ new,
        trace st' = trace example_store ++ new ∧
        ∀ k l ev,
          new !! k = Some (Invoked l ev) →
          value ev = accessor_get lockable_accessor
                       (replay lockable_accessor (take k new)
                          (world example_store)) ∧
          newValue ev = "B"%string ∧
          event_id ev
          = created example_store + length (invocations (take k new))) ∧
  (∃ st' new,
     set_value example_lock lockable_accessor overriding
       (S (length (listeners example_store))) "B"%string example_store
     = Returned st' ∧
     trace st' = trace example_store ++ new ∧
     invocations new =
       deliveries lockable_accessor overriding "B"%string
         (live (listeners example_store)) (world example_store)
         (created example_store) ∧
     ∀ l1 l2 rest,
       live (listeners example_store) = l1 :: l2 :: rest →
       ∃ ev1 ev2 more,
         invocations new = (l1, ev1) :: (l2, ev2) :: more ∧
         value ev1 = accessor_get lockable_accessor (world example_store) ∧
         value ev2 =
           accessor_get lockable_accessor
             (foldl (λ w x, accessor_set lockable_accessor Forced x w)
                (world example_store) (forced (overriding l1 ev1))) ∧
         event_id ev2 ≠ event_id ev1).
Proof.
  destruct (event_value_is_read_per_listener example_lock lockable_accessor
              overriding "B"%string example_store eq_refl) as (Hany & Hforce).
  split; [reflexivity|]. split; [exact overriding_only_forces|].
  split; [exact overriding_never_writes|]. split.
  - intros fuel st' H. destruct (Hany fuel st' H) as (new & Ht & Hcalls).
    exists new. split; [exact Ht|]. intros k l ev Hk.
    destruct (Hcalls k l ev Hk) as (Hv & Hn & Hid).
    split; [exact Hv|]. split; [|exact Hid].
    destruct Hn as [Hn|(l' & ev' & Hn)]; [exact Hn|].
    pose proof (proj1 (Forall_forall _ _) (overriding_never_writes l' ev')
                  _ Hn) as Hw.
    destruct (Hw I).
  - exact (Hforce overriding_only_forces).
Defined.

Lemma registration_round_trip_witness :
  (Some 2 ∉ listeners example_store) ∧
  live (listeners (onupdateprevented 2 None example_store))
  = live (listeners example_store) ++ [2] ∧
  live (listeners (cleanup 2 (onupdateprevented 2 None example_store)))
  = live (listeners example_store).
Proof.
  assert (Some 2 ∉ listeners example_store) as H
    by (apply (bool_decide_unpack _); vm_compute; exact I).
  split; [exact H|].
  exact (proj2 (registration_round_trip 2 None example_store) H).
Defined.

(** The signal [7] of the example, not aborted, takes listener [1] out; on a
    store made when the signal was aborted already, it takes nobody out. *)
Lemma abort_unregisters_attached_witness :
  (7 ∉ aborted example_store_signal) ∧
  (live (listeners (abort 7 example_store_signal))
   = filter (λ l, l ∉ attached 7 example_store_signal)
       (live (listeners example_store_signal)) ∧
   world (abort 7 example_store_signal) = world example_store_signal ∧
   trace (abort 7 example_store_signal) = trace example_store_signal ∧
   attached 7 (abort 7 example_store_signal) = [] ∧
   abort 7 (abort 7 example_store_signal) = abort 7 example_store_signal ∧
   ∀ l, Some l ∉ listeners
                   (abort 7 (onupdateprevented l (Some 7) example_store_signal))) ∧
  7 ∈ aborted (from (T := string) (true, "A"%string) [7]) ∧
  ∀ l, abort 7 (onupdateprevented l (Some 7)
                  (from (T := string) (true, "A"%string) [7]))
       = onupdateprevented l (Some 7) (from (true, "A"%string) [7]) ∧
       Some l ∈ listeners
                  (abort 7 (onupdateprevented l (Some 7)
                              (from (T := string) (true, "A"%string) [7]))).
Proof.
  assert (7 ∉ aborted example_store_signal) as H
    by (apply (bool_decide_unpack _); vm_compute; exact I).
  assert (7 ∈ aborted (from (T := string) (true, "A"%string) [7])) as H'
    by left.
  split; [exact H|]. split.
  - exact (proj1 (proj2 (proj2 (proj2
             (abort_unregisters_attached 7 example_store_signal)))) H).
  - split; [exact H'|].
    exact (proj2 (proj2 (proj2 (proj2
             (abort_unregisters_attached 7
                (from (T := string) (true, "A"%string) [7]))))) H').
Defined.

(** Unlocked, the write is read back; locked, with listeners that only look,
    the old value is. *)
Lemma read_after_gated_write_witness :
  (∀ (x : string) (w : bool * string),
      accessor_get lockable_accessor
        (accessor_set lockable_accessor Setter x w) = x) ∧
  quiet passive ∧
  locked example_lock (lockable false "A"%string) = false ∧
  (∃ st', set_value example_lock lockable_accessor passive 3 "B"%string
            (lockable false "A"%string) = Returned st' ∧
          get_value lockable_accessor st' = "B"%string) ∧
  locked example_lock example_store = true ∧
  ∀ st', final (set_value example_lock lockable_accessor passive 3 "B"%string
                  example_store) = Some st' →
         get_value lockable_accessor st'
         = get_value lockable_accessor example_store.
Proof.
  assert (∀ (x : string) (w : bool * string),
             accessor_get lockable_accessor
               (accessor_set lockable_accessor Setter x w) = x) as Hlaw
    by (intros x w; reflexivity).
  split; [exact Hlaw|]. split; [exact passive_quiet|].
  split; [reflexivity|]. split.
  - exact (proj1 (read_after_gated_write example_lock lockable_accessor
                    passive 3 "B"%string (lockable false "A"%string)
                    Hlaw passive_quiet) eq_refl).
  - split; [reflexivity|].
    exact (proj2 (read_after_gated_write example_lock lockable_accessor
                    passive 3 "B"%string example_store Hlaw passive_quiet)
             eq_refl).
Defined.

Lemma registry_holds_no_listener_twice_witness :
  run_ops example_lock lockable_accessor unlocking 3
    [Register 0; Register 1; Attach 0 7; Write "B"%string; Register 1]
    (from (true, "A"%string) [])
  = Some (default example_store
            (run_ops example_lock lockable_accessor unlocking 3
               [Register 0; Register 1; Attach 0 7; Write "B"%string;
                Register 1]
               (from (true, "A"%string) []))) ∧
  NoDup (live (listeners
                 (default example_store
                    (run_ops example_lock lockable_accessor unlocking 3
                       [Register 0; Register 1; Attach 0 7; Write "B"%string;
                        Register 1]
                       (from (true, "A"%string) []))))).
Proof.
  assert (run_ops example_lock lockable_accessor unlocking 3
            [Register 0; Register 1; Attach 0 7; Write "B"%string; Register 1]
            (from (true, "A"%string) [])
          = Some (default example_store
                    (run_ops example_lock lockable_accessor unlocking 3
                       [Register 0; Register 1; Attach 0 7; Write "B"%string;
                        Register 1]
                       (from (true, "A"%string) []))))
    as H by (vm_compute; reflexivity).
  split; [exact H|].
  exact (registry_holds_no_listener_twice example_lock lockable_accessor
           unlocking (true, "A"%string) [] _ 3 _ H).
Defined.

Lemma self_unregistering_listeners_witness :
  locked example_lock example_store = true ∧
  self_only once ∧
  NoDup (live (listeners example_store)) ∧
  ∃ st' new,
    set_value example_lock lockable_accessor once
      (S (length (listeners example_store))) "B"%string example_store
    = Returned st' ∧
    trace st' = trace example_store ++ new ∧
    (invocations new).*1 = live (listeners example_store) ∧
    ∀ l ev, (l, ev) ∈ invocations new → Unregister l ∈ once l ev →
            Some l ∉ listeners st'.
Proof.
  assert (NoDup (live (listeners example_store))) as H
    by (apply (bool_decide_unpack _); vm_compute; exact I).
  split; [reflexivity|]. split; [exact once_self_only|]. split; [exact H|].
  exact (self_unregistering_listeners example_lock lockable_accessor once
           "B"%string example_store eq_refl once_self_only H).
Defined.

Lemma resubscribing_listener_never_returns_witness :
  locked example_lock (onupdateprevented 0 None (lockable true "A"%string))
  = true ∧
  live (listeners (onupdateprevented 0 None (lockable true "A"%string)))
  = [0] ∧
  resubscribes restless 0 ∧
  ∀ fuel,
    set_value example_lock lockable_accessor restless fuel "B"%string
      (onupdateprevented 0 None (lockable true "A"%string)) = Unfinished.
Proof.
  assert (resubscribes restless 0) as H by (intros ev; reflexivity).
  split; [reflexivity|]. split; [reflexivity|]. split; [exact H|].
  exact (resubscribing_listener_never_returns example_lock lockable_accessor
           restless 0 "B"%string
           (onupdateprevented 0 None (lockable true "A"%string))
           eq_refl eq_refl H).
Defined.

End LockableExamples.


(** * Runs of the examples *)

Section Runs.
Import Loading.

(** The root of the example is off itself and reads on, through its scoped
    child. *)
Example root_reads_children :
  get_value 0 example_world = Returns true example_world.
Proof. reflexivity. Qed.

(** Once the scoped child and the flag outside are off, the next read of the
    root is off: the read is computed from the state of the moment. *)
Example root_follows_children :
  let w := foldl after example_world [SetValue 1 false; EnvChanges false] in
  get_value 0 w = Returns false w.
Proof. reflexivity. Qed.

(** After the teardown of the scoped child, switching it on does not reach the
    root. *)
Example torn_down_child_is_not_read :
  let w := foldl after example_world
             [SetValue 1 false; EnvChanges false; Destroy 0 1; SetValue 1 true]
  in
  get_value 1 w = Returns true w ∧ get_value 0 w = Returns false w.
Proof. split; reflexivity. Qed.

(** A promised store with a delay of 50 ms whose promise settles after 10 ms
    stays off; when the promise settles after 100 ms it is off at 49 ms, on at
    50 ms and at 99 ms, and off at 100 ms. *)
Example promised_fast :
  ∀ ms, ms ∈ [0; 9; 10; 49; 50; 51; 200] →
    bind (elapse true 10 Fulfilled 2 ms) (λ _, get_value 2) example_world
    = Returns false (run (elapse true 10 Fulfilled 2 ms) example_world).
Proof.
  intros ms H.
  repeat (apply elem_of_cons in H as [->|H]; [vm_compute; reflexivity|]).
  by apply not_elem_of_nil in H.
Qed.

Example promised_slow :
  (λ ms, match bind (elapse false 100 Rejected 2 ms) (λ _, get_value 2)
                 example_world with
         | Returns b _ => Some b
         | _ => None
         end) <$> [0; 49; 50; 99; 100; 150]
  = Some <$> [false; false; true; true; false; false].
Proof. vm_compute. reflexivity. Qed.

(** Writes to read-only stores throw. *)
Example derived_is_readonly :
  set_value 3 true example_world = Throws ReadonlyProperty example_world.
Proof. reflexivity. Qed.

Example promised_is_readonly :
  set_value 2 true example_world = Throws GetterOnly example_world.
Proof. reflexivity. Qed.

Example or_coerces :
  or_ 2 (Str "") example_world = Returns false example_world ∧
  or_ 2 (Number 7) example_world = Returns true example_world ∧
  or_ 0 Undefined example_world = Returns true example_world.
Proof. repeat split. Qed.

End Runs.

Section LockableRuns.
Import Lockable.

(** The locked store holding ["A"]: a write of ["B"] leaves ["A"] in place and
    one listener gets one event; [force("B")] then stores ["B"] and calls no
    listener. *)
Example locked_write_then_force :
  let st := onupdateprevented 0 None (lockable true "A"%string) in
  ∃ st',
    set_value example_lock lockable_accessor passive 2 "B"%string st
    = Returned st' ∧
    get_value lockable_accessor st' = "A"%string ∧
    trace st' = [Invoked 0 {| event_id := 0; value := "A"%string;
                              newValue := "B"%string |}] ∧
    get_value lockable_accessor (force lockable_accessor "B"%string st')
      = "B"%string ∧
    invocations (trace (force lockable_accessor "B"%string st'))
      = invocations (trace st').
Proof. eexists. repeat split. Qed.

(** Unlocked, the write goes through and no listener is called. *)
Example unlocked_write :
  let st := onupdateprevented 0 None (lockable false "A"%string) in
  ∃ st',
    set_value example_lock lockable_accessor passive 2 "B"%string st
    = Returned st' ∧
    get_value lockable_accessor st' = "B"%string ∧
    trace st' = [AccessorSet Setter "B"%string].
Proof. eexists. repeat split. Qed.

(** Two listeners, the first of which calls [force("C")]: the second one is
    handed ["C"] as the current value, in a second event. *)
Example second_listener_sees_force :
  ∃ st',
    set_value example_lock lockable_accessor overriding 3 "B"%string
      example_store = Returned st' ∧
    invocations (trace st')
    = [(0, {| event_id := 0; value := "A"%string; newValue := "B"%string |});
       (1, {| event_id := 1; value := "C"%string; newValue := "B"%string |})].
Proof. eexists. split; reflexivity. Qed.

(** A listener that unregisters the next one keeps it from being called in
    the same write: the iteration skips the slot that has been emptied. *)
Example unregistered_during_the_loop :
  ∃ st',
    set_value example_lock lockable_accessor meddling 3 "B"%string
      example_store = Returned st' ∧
    (invocations (trace st')).*1 = [0] ∧
    listeners st' = [Some 0; None].
Proof. eexists. repeat split. Qed.

(** The first listener opens the lock and assigns ["C"]: the rejected write
    of ["B"] leaves ["C"] in the store, stored by the setter and not by
    [force]; the second listener is handed ["C"], and throws, which ends the
    write. *)
Example listener_unlocks_and_assigns :
  ∃ st',
    set_value example_lock lockable_accessor unlocking 3 "B"%string
      example_store = Threw st' ∧
    get_value lockable_accessor st' = "C"%string ∧
    trace st'
    = [Invoked 0 {| event_id := 0; value := "A"%string;
                    newValue := "B"%string |};
       Changed (λ w, (false, w.2));
       AccessorSet Setter "C"%string;
       Invoked 1 {| event_id := 1; value := "C"%string;
                    newValue := "B"%string |}].
Proof. eexists. repeat split. Qed.

(** A listener that throws keeps the listeners after it from being called. *)
Example throwing_listener_ends_the_loop :
  let st := onupdateprevented 0 None
              (onupdateprevented 1 None (lockable true "A"%string)) in
  ∃ st',
    set_value example_lock lockable_accessor unlocking 3 "B"%string st
    = Threw st' ∧
    (invocations (trace st')).*1 = [1].
Proof. eexists. repeat split. Qed.

(** The abort of the signal unregisters the listener that was registered with
    it; a signal that was aborted before the registration never does. *)
Example abort_unregisters :
  listeners (abort 7 example_store_signal) = [Some 0; None] ∧
  listeners (abort 7 (onupdateprevented 1 (Some 7)
                        (from (T := string) (true, "A"%string) [7])))
  = [Some 1].
Proof. split; reflexivity. Qed.

(** On the store with the accessor written with methods, [force("D")] leaves
    ["A"] to be read, while an unlocked write of ["D"] is read back. *)
Example force_on_method_accessor :
  get_value method_accessor
    (force method_accessor "D"%string example_method_store) = "A"%string ∧
  ¬ force_stores method_accessor "D"%string example_method_store ∧
  set_value (λ _, false) method_accessor (λ _ _, []) 0 "D"%string
    example_method_store
  = Returned (assign method_accessor "D"%string example_method_store) ∧
  get_value method_accessor
    (assign method_accessor "D"%string example_method_store) = "D"%string.
Proof. split; [done|]. split; [by intros H|]. split; reflexivity. Qed.

End LockableRuns.


(** * More about the loading-state tree *)

Section LoadingMore.
Import Loading LoadingViews.

Context {Env : Type}.
Implicit Types (h : list (node Env)) (w : world Env) (e : Env).
Implicit Types (n p c : nat) (vs : list nat) (g : getter Env).

(** ** Subtrees *)

Lemma subtree_trans h a b x : subtree h a b → subtree h b x → subtree h a x.
Proof.
  intros Hab. induction 1 as [|x nd y _ IH Hx Hy]; [done|].
  by eapply subtree_child.
Qed.

Lemma subtree_head h n nd c x :
  h !! n = Some nd → c ∈ children nd → subtree h c x → subtree h n x.
Proof.
  intros Hn Hc. apply subtree_trans.
  eapply subtree_child; [apply subtree_root|done..].
Qed.

Lemma subtree_inv h n x :
  subtree h n x →
  x = n ∨ ∃ nd c, h !! n = Some nd ∧ c ∈ children nd ∧ subtree h c x.
Proof.
  induction 1 as [|x nd y _ IH Hx Hy]; [by left|]. right.
  destruct IH as [->|(nd' & c & Hn & Hc & Hsub)].
  - exists nd, y. split; [done|]. split; [done|]. apply subtree_root.
  - exists nd', c. split; [done|]. split; [done|]. by eapply subtree_child.
Qed.

(** A read looks at the subtree of the store and at nothing else. *)
Lemma current_subtree_ext fuel e h1 h2 a :
  (∀ x, subtree h1 a x → h2 !! x = h1 !! x) →
  current fuel e h2 a = current fuel e h1 a.
Proof.
  revert a. induction fuel as [|k IH]; intros a Hsame; [done|].
  rewrite !current_unfold, (Hsame a (subtree_root h1 a)).
  destruct (h1 !! a) as [[g vs|v t]|] eqn:Hnd; try done.
  apply foldl_or_step_ext. intros c Hc. apply IH.
  intros x Hx. apply Hsame. by eapply subtree_head.
Qed.

(** ** A store is on exactly when a store of its subtree is on by itself *)

Lemma current_on_iff fuel e h n :
  wf h → n < length h → length h - n ≤ fuel →
  ∃ b, current fuel e h n = Some b ∧
       (b = true ↔
        ∃ x nd, subtree h n x ∧ h !! x = Some nd ∧ own e nd = true).
Proof.
  intros Hwf. revert n. induction fuel as [|k IH]; intros n Hn Hk; [lia|].
  rewrite current_unfold.
  destruct (lookup_lt_is_Some_2 h n Hn) as [nd Hnd]. rewrite Hnd.
  destruct nd as [g vs|v t].
  - set (kid c := default false (current k e h c)).
    assert (∀ c, c ∈ vs →
              current k e h c = Some (kid c) ∧
              (kid c = true ↔
               ∃ x nd, subtree h c x ∧ h !! x = Some nd ∧ own e nd = true))
      as Hkids.
    { intros c Hc. destruct (wf_order h Hwf n _ c Hnd Hc) as [Hnc HcL].
      destruct (IH c HcL) as (b & Hb & Hiff); [lia|].
      unfold kid. by rewrite Hb. }
    exists (run_getter e g || existsb id (kid <$> vs)). split.
    { apply foldl_or_step, Forall2_fmap_r, Forall_Forall2_diag, Forall_forall.
      intros c Hc. apply (Hkids c Hc). }
    rewrite orb_true_iff, existsb_exists. split.
    + intros [Hown|(b & Hin & Hb)].
      * exists n, (Store g vs). split; [apply subtree_root|done].
      * apply list_elem_of_In, list_elem_of_fmap in Hin as (c & -> & Hc).
        unfold id in Hb. apply (Hkids c Hc) in Hb as (x & nd & Hsub & Hx & Ho).
        exists x, nd. split; [by eapply subtree_head|done].
    + intros (x & nd & Hsub & Hx & Ho).
      apply subtree_inv in Hsub as [->|(nd' & c & Hn' & Hc & Hsub)].
      * left. rewrite Hnd in Hx. by injection Hx as <-.
      * right. rewrite Hnd in Hn'. injection Hn' as <-. simpl in Hc.
        exists (kid c). split.
        -- apply list_elem_of_In, list_elem_of_fmap. by exists c.
        -- apply (Hkids c Hc). by exists x, nd.
  - exists v. split; [done|]. split.
    + intros ->. exists n, (PromisedStore true t).
      split; [apply subtree_root|done].
    + intros (x & nd & Hsub & Hx & Ho).
      apply subtree_inv in Hsub as [->|(nd' & c & Hn' & Hc & _)].
      * rewrite Hnd in Hx. by injection Hx as <-.
      * rewrite Hnd in Hn'. injection Hn' as <-.
        by apply not_elem_of_nil in Hc.
Qed.

(** X1.  [store.value] is true exactly when some store of the subtree, the
    store itself or a store reached through [values] sets at any depth, is on
    by itself. *)
Theorem value_on_iff_subtree_on w n :
  wf (heap w) →
  n < length (heap w) →
  ∃ b,
    get_value n w = Returns b w ∧
    (b = true ↔
     ∃ x nd, subtree (heap w) n x ∧ heap w !! x = Some nd ∧
             own (env w) nd = true).
Proof.
  intros Hwf Hn.
  destruct (current_on_iff (length (heap w)) (env w) (heap w) n Hwf Hn)
    as (b & Hb & Hiff); [lia|].
  exists b. unfold get_value. by rewrite Hb.
Qed.

(** ** Writing a store *)

Lemma set_value_returns w n b0 vs v :
  heap w !! n = Some (Store (GState b0) vs) →
  set_value n v w = Returns tt (update n (Store (GState v) vs) w).
Proof. intros Hn. unfold set_value, bind, load, store_at. by rewrite Hn. Qed.

(** The values of the members of a [values] set, read with enough fuel. *)
Lemma children_values k e h n g vs :
  wf h → h !! n = Some (Store g vs) → length h ≤ S k →
  ∃ kids,
    Forall2 (λ c b, current k e h c = Some b) vs kids ∧
    Forall2 (λ c b, current (length h) e h c = Some b) vs kids.
Proof.
  intros Hwf Hn Hk.
  exists ((λ c, default false (current k e h c)) <$> vs).
  assert (∀ c, c ∈ vs → ∃ b, current k e h c = Some b ∧
                              current (length h) e h c = Some b) as H.
  { intros c Hc. destruct (wf_order h Hwf n _ c Hn Hc) as [Hnc HcL].
    destruct (current_total (Nat.min k (length h)) e h c Hwf HcL) as [b Hb];
      [lia|].
    exists b. split; (eapply current_le; [|exact Hb]); lia. }
  split; apply Forall2_fmap_r, Forall_Forall2_diag, Forall_forall;
    intros c Hc; destruct (H c Hc) as (b & Hb1 & Hb2); simpl;
    by rewrite ?Hb2, ?Hb1.
Qed.

(** X2.  After [store.value = v] on a writable store, [store.value] reads [v]
    or-ed with the values that the members of its [values] set had before the
    write. *)
Theorem read_after_write w n b0 vs v :
  wf (heap w) →
  heap w !! n = Some (Store (GState b0) vs) →
  ∃ w' kids,
    set_value n v w = Returns tt w' ∧
    Forall2 (λ c b, get_value c w = Returns b w) vs kids ∧
    get_value n w' = Returns (v || existsb id kids) w'.
Proof.
  intros Hwf Hn. pose proof (lookup_lt_Some _ _ _ Hn) as Hlt.
  destruct (length (heap w)) as [|k] eqn:HL; [lia|].
  destruct (children_values k (env w) (heap w) n _ vs Hwf Hn) as (kids & Hk & HkL);
    [lia|].
  eexists _, kids. split; [by eapply set_value_returns|]. split.
  - eapply Forall2_impl; [exact HkL|]. intros c b Hb. unfold get_value.
    by rewrite Hb.
  - unfold get_value. simpl. rewrite length_insert, HL, current_unfold.
    rewrite list_lookup_insert_eq by lia.
    erewrite foldl_or_step; [done|].
    apply Forall2_same_length_lookup. split; [by eapply Forall2_length|].
    intros i c b Hc Hb.
    rewrite current_subtree_ext with (h1 := heap w).
    + eapply Forall2_lookup_lr in Hk; eauto.
    + intros x Hx. apply list_lookup_insert_ne.
      apply (subtree_le _ _ _ Hwf) in Hx.
      destruct (wf_order _ Hwf n _ c Hn) as [? _];
        [by eapply list_elem_of_lookup_2|]. lia.
Qed.

(** X3.  [store.value = v] is seen by the store and its ancestors only: a
    store that does not have the written store in its subtree reads the same
    before and after the write. *)
Theorem write_reaches_only_ancestors w n b0 vs v :
  wf (heap w) →
  heap w !! n = Some (Store (GState b0) vs) →
  ∃ w',
    set_value n v w = Returns tt w' ∧
    ∀ a, a < length (heap w) → ¬ subtree (heap w) a n →
         ∃ b, get_value a w = Returns b w ∧ get_value a w' = Returns b w'.
Proof.
  intros Hwf Hn. eexists. split; [by eapply set_value_returns|].
  intros a Ha Hout. destruct (get_value_returns w a Hwf Ha) as [b Hb].
  exists b. split; [done|]. apply get_value_inv in Hb as [_ Hb].
  unfold get_value. simpl. rewrite length_insert.
  rewrite current_subtree_ext with (h1 := heap w); [by rewrite Hb|].
  intros x Hx. apply list_lookup_insert_ne. by intros ->.
Qed.

(** ** A new child in the aggregate *)

Lemma current_childless fuel e h c nd :
  h !! c = Some nd → children nd = [] →
  current (S fuel) e h c = Some (own e nd).
Proof.
  intros Hc Hnd. rewrite current_unfold, Hc.
  destruct nd as [g vs|v t]; [|done]. simpl in Hnd. by subst.
Qed.

(** After a child factory, the parent reads what it read before, or-ed with
    what the new store contributes; stores that were there before are read as
    before. *)
Lemma current_with_child e h p g vs nd b :
  wf h → h !! p = Some (Store g vs) → children nd = [] →
  current (length h) e h p = Some b →
  current (S (length h)) e (with_child h p g vs nd) (length h)
    = Some (own e nd) ∧
  current (S (length h)) e (with_child h p g vs nd) p
    = Some (b || own e nd).
Proof.
  intros Hwf Hp Hnd Hb. pose proof (lookup_lt_Some _ _ _ Hp) as Hlt.
  destruct (with_child_registered h p g vs nd Hp) as [Hp' Hc'].
  split; [by apply current_childless|].
  assert (∃ k, length h = S k) as [k HL] by (exists (pred (length h)); lia).
  rewrite HL in Hb. rewrite current_unfold in Hb. rewrite Hp in Hb.
  rewrite current_unfold, Hp', foldl_app.
  assert (foldl (or_step (current (length h) e (with_child h p g vs nd)))
            (Some (run_getter e g)) vs = Some b) as ->.
  { eapply foldl_or_step_mono; [|exact Hb]. intros c x Hc Hx.
    destruct (wf_order h Hwf p _ c Hp Hc) as [Hpc HcL].
    rewrite current_subtree_ext with (h1 := h);
      [rewrite HL; by apply current_S|].
    intros y Hy. pose proof (subtree_le _ _ _ Hwf Hy) as Hcy.
    assert (y < length h) as HyL.
    { clear -Hwf Hy HcL. induction Hy as [|y nd' z _ IH Hy' Hz]; [done|].
      by destruct (wf_order h Hwf y _ z Hy' Hz). }
    unfold with_child. rewrite list_lookup_insert_ne by lia.
    by apply lookup_app_l. }
  simpl. destruct b; [done|]. simpl. rewrite HL at 1.
  by apply current_childless.
Qed.

(** X4.  A child factory puts the new store into the aggregate at once: after
    [c = p.scoped(initial)], [c.value] reads [initial] and [p.value] reads
    what it read before or-ed with [initial]; after [p.derived(from)] the
    same holds with [from()]; after [p.promised(promise, delay)] the child
    is off and [p.value] reads what it read before. *)
Theorem child_joins_aggregate w p g vs b :
  wf (heap w) →
  heap w !! p = Some (Store g vs) →
  get_value p w = Returns b w →
  (∀ initial, ∃ c w',
      scoped p initial w = Returns c w' ∧
      get_value c w' = Returns initial w' ∧
      get_value p w' = Returns (b || initial) w') ∧
  (∀ from, ∃ c w',
      derived p from w = Returns c w' ∧
      get_value c w' = Returns (from (env w)) w' ∧
      get_value p w' = Returns (b || from (env w)) w') ∧
  (∀ delay, ∃ c w',
      promised p delay w = Returns c w' ∧
      get_value c w' = Returns false w' ∧
      get_value p w' = Returns b w').
Proof.
  intros Hwf Hp Hb. apply get_value_inv in Hb as [_ Hb].
  assert (∀ nd, children nd = [] →
            let h' := with_child (heap w) p g vs nd in
            length h' = S (length (heap w)) ∧
            current (length h') (env w) h' (length (heap w))
              = Some (own (env w) nd) ∧
            current (length h') (env w) h' p
              = Some (b || own (env w) nd)) as H.
  { intros nd Hnd h'.
    assert (length h' = S (length (heap w))) as HL.
    { unfold h', with_child. rewrite length_insert, length_app. simpl. lia. }
    rewrite HL. split; [done|]. by apply current_with_child. }
  split; [|split].
  - intros initial. eexists _, _. split; [by apply scoped_returns|].
    destruct (H (Store (GState initial) [])) as (HL & Hc & Hp'); [done|].
    unfold get_value; simpl. by rewrite Hc, Hp'.
  - intros from. eexists _, _. split; [by apply derived_returns|].
    destruct (H (Store (GDerived from) [])) as (HL & Hc & Hp'); [done|].
    unfold get_value; simpl. by rewrite Hc, Hp'.
  - intros delay. eexists _, _. split; [by apply promised_returns|].
    destruct (H (PromisedStore false (Some (now w + timer_delay delay))))
      as (HL & Hc & Hp'); [done|].
    unfold get_value; simpl. rewrite Hc, Hp'. simpl.
    by rewrite orb_false_r.
Qed.

(** ** A child that comes and goes *)

Lemma subtree_lt h a x : wf h → a < length h → subtree h a x → x < length h.
Proof.
  intros Hwf Ha. induction 1 as [|x nd y _ IH Hx Hy]; [done|].
  by destruct (wf_order h Hwf x _ y Hx Hy).
Qed.

Lemma set_delete_last (c : nat) vs : c ∉ vs → set_delete c (vs ++ [c]) = vs.
Proof.
  intros Hc. unfold set_delete. rewrite filter_app.
  rewrite filter_cons_False by (intros H; by apply H).
  rewrite filter_nil, app_nil_r. by apply (set_delete_absent c vs).
Qed.

Lemma teardown_of_new_child w p g vs nd hooks' :
  wf (heap w) → heap w !! p = Some (Store g vs) →
  run (values_delete p (length (heap w)))
    (World (env w) (with_child (heap w) p g vs nd) hooks' (now w))
  = World (env w) (heap w ++ [nd]) hooks' (now w).
Proof.
  intros Hwf Hp. pose proof (lookup_lt_Some _ _ _ Hp) as Hlt.
  destruct (with_child_registered (heap w) p g vs nd Hp) as [Hp' _].
  unfold run. erewrite values_delete_returns by exact Hp'. simpl.
  rewrite set_delete_last.
  - unfold with_child. rewrite list_insert_insert_eq.
    rewrite list_insert_id; [done|]. by apply lookup_app_l_Some.
  - intros Hin. destruct (wf_order _ Hwf p _ _ Hp Hin). lia.
Qed.

Lemma current_alloc e h nd a b :
  wf h → a < length h →
  current (length h) e h a = Some b →
  current (length (h ++ [nd])) e (h ++ [nd]) a = Some b.
Proof.
  intros Hwf Ha Hb. rewrite current_subtree_ext with (h1 := h).
  - eapply current_le; [|exact Hb]. rewrite length_app. lia.
  - intros x Hx. apply lookup_app_l. by eapply subtree_lt.
Qed.

(** X5.  Creating a child with [scoped], [derived] or [promised] registers
    with [onDestroy] the callback that undoes the registration: once it has
    run, the [values] set of the parent is what it was before the child was
    made, and every store that was there before reads what it read then,
    whatever the child's value is. *)
Theorem create_then_teardown_restores w p g vs ev :
  wf (heap w) →
  heap w !! p = Some (Store g vs) →
  creates_child p ev →
  (p, length (heap w)) ∈ hooks (after w ev) ∧
  heap (after (after w ev) (Destroy p (length (heap w)))) !! p
    = Some (Store g vs) ∧
  ∀ a, a < length (heap w) →
       ∃ b, get_value a w = Returns b w ∧
            get_value a (after (after w ev) (Destroy p (length (heap w))))
            = Returns b (after (after w ev) (Destroy p (length (heap w)))).
Proof.
  intros Hwf Hp Hev.
  assert (∃ nd, after w ev =
                World (env w) (with_child (heap w) p g vs nd)
                  (hooks w ++ [(p, length (heap w))]) (now w)) as [nd Hw1].
  { destruct Hev as [[x ->]|[[x ->]|[x ->]]]; simpl; unfold run.
    - rewrite (scoped_returns w p g vs x Hwf Hp). by eexists.
    - rewrite (derived_returns w p g vs x Hwf Hp). by eexists.
    - rewrite (promised_returns w p g vs x Hwf Hp). by eexists. }
  rewrite Hw1. cbn [after hooks].
  assert ((p, length (heap w)) ∈ hooks w ++ [(p, length (heap w))]) as Hin.
  { apply elem_of_app. right. apply list_elem_of_singleton. done. }
  split; [done|]. rewrite decide_True by done.
  rewrite (teardown_of_new_child w p g vs nd _ Hwf Hp). simpl.
  split; [by apply lookup_app_l_Some|].
  intros a Ha. destruct (get_value_returns w a Hwf Ha) as [b Hb].
  exists b. split; [done|]. apply get_value_inv in Hb as [_ Hb].
  unfold get_value. simpl. by rewrite (current_alloc _ _ nd a b Hwf Ha Hb).
Qed.

(** ** The parent of a promised store *)

Lemma with_child_update h p g vs nd nd' :
  h !! p = Some (Store g vs) →
  <[length h:=nd']> (with_child h p g vs nd) = with_child h p g vs nd'.
Proof.
  intros Hp. pose proof (lookup_lt_Some _ _ _ Hp) as Hlt. unfold with_child.
  rewrite list_insert_insert_ne by lia. f_equal.
  rewrite insert_app_r_alt by lia. by rewrite Nat.sub_diag.
Qed.

(** X7.  For a [delay] that the timer can hold and a promise that does not
    settle in the turn of the timer, a store with a promised child reads,
    after the turn of each millisecond [ms], what it read before the child was
    made, or-ed with whether the timer has fired and the promise is still
    pending: the pending promise shows in the parent from [delay] until the
    settlement, and not at all when the promise settles first. *)
Theorem parent_shows_pending_promise w p g vs b delay :
  wf (heap w) →
  heap w !! p = Some (Store g vs) →
  get_value p w = Returns b w →
  (Z.of_nat delay ≤ TIMEOUT_MAX)%Z →
  ∃ c w0,
    promised p delay w = Returns c w0 ∧
    ∀ tf o settles ms,
      settles ≠ delay →
      ∃ w',
        elapse tf (now w + settles) o c ms w0 = Returns tt w' ∧
        get_value p w' = Returns (b || bool_decide (delay ≤ ms < settles)) w'.
Proof.
  intros Hwf Hp Hb Hfits. apply get_value_inv in Hb as [_ Hb].
  eexists _, _. split; [by eapply promised_returns|].
  rewrite (timer_delay_fits delay Hfits).
  intros tf o settles ms Hne.
  destruct (with_child_registered (heap w) p g vs
              (PromisedStore false (Some (now w + delay))) Hp) as [_ Hc].
  eexists. split; [by apply elapse_at|].
  unfold get_value. simpl. rewrite (with_child_update _ _ _ _ _ _ Hp).
  destruct (current_with_child (env w) (heap w) p g vs
              (promised_after (now w) delay settles ms) b Hwf Hp eq_refl Hb)
    as [_ Hp'].
  assert (length (with_child (heap w) p g vs
                    (promised_after (now w) delay settles ms))
          = S (length (heap w))) as ->.
  { unfold with_child. rewrite length_insert, length_app. simpl. lia. }
  by rewrite Hp'.
Qed.

(** ** A settled promised store *)

Lemma after_keeps_settled w c ev :
  heap w !! c = Some (PromisedStore false None) →
  heap (after w ev) !! c = Some (PromisedStore false None).
Proof.
  intros Hc.
  assert (∀ n g vs nd', heap w !! n = Some (Store g vs) →
            <[n:=nd']> (heap w) !! c = Some (PromisedStore false None))
    as Hupd.
  { intros n g vs nd' Hn. rewrite list_lookup_insert_ne; [done|].
    intros ->. congruence. }
  assert (∀ p g add nd, heap w !! p = Some (Store g add.1) →
            <[p:=Store g add.2]> (heap w ++ [nd]) !! c
            = Some (PromisedStore false None)) as Hnew.
  { intros p g add nd Hp. rewrite list_lookup_insert_ne by congruence.
    by apply lookup_app_l_Some. }
  destruct ev as [b|f|p b|p f|p d|n v|p x|n|o n| |e]; simpl; unfold run.
  - by apply lookup_app_l_Some.
  - by apply lookup_app_l_Some.
  - unfold scoped, is_store, create, values_add, bind, load, alloc, onDestroy,
      store_at, ret, throw; simpl.
    destruct (heap w !! p) as [[g vs|v t]|] eqn:Hp; simpl; try done.
    rewrite (lookup_app_l_Some _ _ _ _ Hp). simpl.
    by apply (Hnew p g (vs, set_add (length (heap w)) vs)).
  - unfold derived, is_store, create, values_add, bind, load, alloc, onDestroy,
      store_at, ret, throw; simpl.
    destruct (heap w !! p) as [[g vs|v t]|] eqn:Hp; simpl; try done.
    rewrite (lookup_app_l_Some _ _ _ _ Hp). simpl.
    by apply (Hnew p g (vs, set_add (length (heap w)) vs)).
  - unfold promised, is_store, values_add, bind, load, alloc, onDestroy,
      store_at, ret, throw; simpl.
    destruct (heap w !! p) as [[g vs|v t]|] eqn:Hp; simpl; try done.
    rewrite (lookup_app_l_Some _ _ _ _ Hp). simpl.
    by apply (Hnew p g (vs, set_add (length (heap w)) vs)).
  - unfold set_value, bind, load, readonly_error, throw, store_at.
    destruct (heap w !! n) as [[[b|f] vs|v' t]|] eqn:Hn; simpl; try done.
    by eapply Hupd.
  - destruct (decide _); [|done].
    unfold values_delete, bind, load, throw, store_at.
    destruct (heap w !! p) as [[g vs|v t]|] eqn:Hp; simpl; try done.
    by eapply Hupd.
  - destruct (heap w !! n) as [[g vs|v t]|] eqn:Hn.
    + unfold run_timer, timer_due. by rewrite Hn.
    + rewrite (run_timer_at _ _ _ _ Hn). destruct t as [d|]; [|done].
      destruct (d <=? now w); [|done]. simpl.
      rewrite list_lookup_insert_ne; [done|]. intros ->. congruence.
    + unfold run_timer, timer_due. by rewrite Hn.
  - assert (finally_callback n w = Returns tt w ∨
            finally_callback n w
            = Returns tt (update n (PromisedStore false None) w) ∨
            finally_callback n w = Stuck) as H.
    { destruct (heap w !! n) as [[g vs|v t]|] eqn:Hn.
      - left. unfold finally_callback, bind, load, ret. by rewrite Hn.
      - right. left. by eapply finally_callback_at.
      - right. right. unfold finally_callback, bind, load. by rewrite Hn. }
    assert (promise_settles o n w = finally_callback n w) as ->
      by by destruct o.
    destruct H as [->|[->| ->]]; try done. simpl.
    destruct (decide (n = c)) as [->|Hne].
    + apply list_lookup_insert_eq. by eapply lookup_lt_Some.
    + by rewrite list_lookup_insert_ne.
  - done.
  - done.
Qed.

(** X8.  A promised store whose promise has settled is off for good: no call
    of the library and nothing the host does, a late timer or a second
    settlement included, turns it on again or arms a timer. *)
Theorem settled_stays_off w c evs :
  heap w !! c = Some (PromisedStore false None) →
  heap (foldl after w evs) !! c = Some (PromisedStore false None) ∧
  get_value c (foldl after w evs) = Returns false (foldl after w evs).
Proof.
  intros Hc.
  assert (heap (foldl after w evs) !! c = Some (PromisedStore false None)) as H.
  { revert w Hc. induction evs as [|ev evs IH]; intros w Hc; [done|].
    simpl. by apply IH, after_keeps_settled. }
  split; [done|]. by eapply get_value_promised.
Qed.

End LoadingMore.


(** * The intersection observer component *)

Section ObserverTheory.
Import Observer.

Context {Options : Type}.
Implicit Types (c : component Options) (p : props Options).
Implicit Types (o : IntersectionObserver Options) (s : list nat).

Lemma observer_set_add_NoDup x s : NoDup s → NoDup (set_add x s).
Proof.
  intros H. unfold set_add. destruct (decide _) as [|Hx]; [done|].
  apply NoDup_app. split; [done|]. split; [|apply NoDup_singleton].
  intros y Hy Hy'. by apply list_elem_of_singleton in Hy' as ->.
Qed.

(** Observing the elements of a set one after the other gives the observer
    that set as its targets. *)
Lemma observe_all o s :
  NoDup (targets o ++ s) →
  targets (foldl (λ o' el, io_observe el o') o s) = targets o ++ s ∧
  root (foldl (λ o' el, io_observe el o') o s) = root o ∧
  options (foldl (λ o' el, io_observe el o') o s) = options o.
Proof.
  revert o. induction s as [|x s IH]; intros o Hnd.
  - by rewrite app_nil_r.
  - simpl. destruct (IH (io_observe x o)) as (Ht & Hr & Ho).
    + simpl. unfold set_add. rewrite decide_False.
      * by rewrite <- app_assoc.
      * apply NoDup_app in Hnd as (_ & Hd & _). intros Hx.
        apply (Hd x Hx). left.
    + rewrite Ht. simpl. unfold set_add. rewrite decide_False.
      * by rewrite <- app_assoc.
      * apply NoDup_app in Hnd as (_ & Hd & _). intros Hx.
        apply (Hd x Hx). left.
Qed.

Lemma effect_result p c :
  NoDup (observing c) →
  effect p c =
  {| observing := observing c;
     observer :=
       (λ r, {| root := r; options := prop_options p;
                targets := observing c |}) <$> root_else_ref p |}.
Proof.
  intros Hnd. unfold effect, effect_body, root_or_ref, root_else_ref, teardown.
  simpl. destruct (prop_root p) as [r|]; simpl.
  - destruct (observe_all {| root := r; options := prop_options p;
                             targets := [] |} (observing c) Hnd)
      as (Ht & Hr & Ho).
    f_equal. f_equal.
    destruct (foldl _ _ _) as [r' o' t']. simpl in *. by subst.
  - destruct (prop_ref p) as [r|]; simpl; [|done].
    destruct (observe_all {| root := r; options := prop_options p;
                             targets := [] |} (observing c) Hnd)
      as (Ht & Hr & Ho).
    f_equal. f_equal.
    destruct (foldl _ _ _) as [r' o' t']. simpl in *. by subst.
Qed.

(** [watched c]: no element is in [observing] twice, and an observer, when
    there is one, has exactly the elements of [observing] as its targets. *)
Lemma run_watched c op :
  (NoDup (observing c) ∧ ∀ o, observer c = Some o → targets o = observing c) →
  NoDup (observing (run c op)) ∧
  ∀ o, observer (run c op) = Some o → targets o = observing (run c op).
Proof.
  intros [Hnd Ho]. destruct op as [p| |node|node]; simpl.
  - rewrite effect_result by done. simpl. split; [done|].
    intros o. destruct (root_else_ref p); [|done]. by intros [= <-].
  - done.
  - split; [by apply observer_set_add_NoDup|].
    intros o. destruct (observer c) as [o'|]; [|done]. intros [= <-].
    simpl. by rewrite (Ho o').
  - unfold destroy. destruct (observer c) as [o'|] eqn:Hc; simpl.
    + split; [by apply NoDup_filter|]. intros o [= <-]. simpl.
      by rewrite (Ho o').
    + split; [done|]. intros o. by rewrite Hc.
Qed.

Lemma foldl_run_watched c ops :
  (NoDup (observing c) ∧ ∀ o, observer c = Some o → targets o = observing c) →
  NoDup (observing (foldl run c ops)) ∧
  ∀ o, observer (foldl run c ops) = Some o →
       targets o = observing (foldl run c ops).
Proof.
  revert c. induction ops as [|op ops IH]; intros c H; [done|].
  simpl. by apply IH, run_watched.
Qed.



(** X16.  The [destroy] of the action takes the element out of [observing]
    and out of the observer's targets when there is an observer.  When there
    is none it does nothing at all: the element stays in [observing], and the
    next observer that the effect makes watches it again. *)
Theorem destroy_needs_an_observer ops node :
  let c := foldl run (mount (Options := Options)) ops in
  (∀ o, observer c = Some o →
        (node ∉ observing (destroy node c)) ∧
        ∃ o', observer (destroy node c) = Some o' ∧ node ∉ targets o') ∧
  (observer c = None →
   destroy node c = c ∧
   (node ∈ observing c →
    ∀ p r, root_else_ref p = Some r →
           ∃ o, observer (effect p (destroy node c)) = Some o ∧
                node ∈ targets o)).
Proof.
  intros c.
  destruct (foldl_run_watched (mount (Options := Options)) ops) as [Hnd Ho].
  { split; [constructor|done]. }
  fold c in Hnd, Ho. split.
  - intros o Hc. unfold destroy. rewrite Hc. simpl.
    assert (∀ s, node ∉ set_delete node s) as Hdel.
    { intros s Hin. apply list_elem_of_filter in Hin as [Hne _]. by apply Hne. }
    split; [apply Hdel|]. eexists. split; [done|]. apply Hdel.
  - intros Hc. assert (destroy node c = c) as ->.
    { unfold destroy. by rewrite Hc. }
    split; [done|]. intros Hin p r Hr.
    rewrite effect_result by done. simpl. rewrite Hr. simpl.
    by eexists.
Qed.

End ObserverTheory.

(** * Properties of [wrapSnippet], [MaybeSnippet] and [componentize] *)

Section SnippetTheory.

Import Snippets.

Context {Anchor V R : Type}.

Implicit Types (snippet : Snippet Anchor V R) (params : list V).

Lemma read_as_args b params : read <$> as_args b params = params.
Proof.
  destruct b; simpl; induction params as [|v params IH]; simpl;
    try done; by f_equal.
Qed.

Lemma wrapSnippet_as_args b snippet params anchor (args : list (arg V)) :
  wrapSnippet b snippet params anchor args
  = snippet anchor (as_args b params ++ args).
Proof. by destruct b. Qed.

Lemma as_args_app b params1 params2 :
  as_args b (params1 ++ params2) = as_args b params1 ++ as_args b params2.
Proof. destruct b; simpl; apply fmap_app. Qed.

Lemma createRenderSnippet_wrapSnippet b snippet params anchor :
  createRenderSnippet b snippet params anchor
  = wrapSnippet b snippet params anchor [].
Proof. destruct b; simpl; by rewrite app_nil_r. Qed.

Lemma is_getter_as_args b params :
  Forall (λ a, is_getter a = b) (as_args b params).
Proof.
  destruct b; simpl; induction params as [|v params IH]; simpl;
    by constructor.
Qed.

(** X17.  A wrapped snippet calls the snippet it wraps once, at the same
    anchor, with the predefined parameters in front of the arguments it is
    called with: in the browser every one of them as a function that returns
    the parameter, on the server every one of them as the parameter itself.
    So wrapping twice is wrapping once with the parameters of the inner wrap
    first, and wrapping with no parameter changes nothing. *)
Theorem wrapSnippet_prepends_and_composes b snippet params more :
  (∃ front, read <$> front = params ∧
            Forall (λ a, is_getter a = b) front ∧
            ∀ anchor args, wrapSnippet b snippet params anchor args
                           = snippet anchor (front ++ args)) ∧
  (∀ anchor args,
     wrapSnippet b (wrapSnippet b snippet params) more anchor args
     = wrapSnippet b snippet (params ++ more) anchor args) ∧
  (∀ anchor args, wrapSnippet b snippet [] anchor args = snippet anchor args).
Proof.
  split; [|split].
  - exists (as_args b params). split; [apply read_as_args|]. split.
    + apply is_getter_as_args.
    + intros. apply wrapSnippet_as_args.
  - intros. rewrite !wrapSnippet_as_args, as_args_app. by rewrite app_assoc.
  - intros. rewrite wrapSnippet_as_args. by destruct b.
Qed.

(** X18.  [MaybeSnippet] renders nothing exactly when [value] and [children]
    are both null or undefined.  A [value] that is a snippet or a string, the
    empty string too, is rendered and [children] is ignored: a snippet as
    [wrapSnippet] would call it with [params] and no further argument, a
    string through the text snippet whatever [params] is.  Only when [value]
    is null or undefined is [children] rendered, in the same way. *)
Theorem maybe_snippet_value_before_children (of_string : string → V)
    (_renderValue : Snippet Anchor V R) b value children params anchor :
  let shown v := render of_string _renderValue b v IsUndefined params anchor in
  (render of_string _renderValue b value children params anchor = None
   ↔ nullish value ∧ nullish children) ∧
  (¬ nullish value →
   render of_string _renderValue b value children params anchor
   = shown value) ∧
  (nullish value →
   render of_string _renderValue b value children params anchor
   = shown children) ∧
  (∀ s, shown (IsSnippet s) = Some (wrapSnippet b s params anchor [])) ∧
  (∀ text, ∃ a, read a = of_string text ∧
                shown (IsString text) = Some (_renderValue anchor [a])).
Proof.
  unfold nullish, render, renderer. simpl.
  split; [|split; [|split; [|split]]].
  - destruct value, children; simpl; split; try done;
      try (by intros [[?|?] [?|?]]); intros _; split; eauto.
  - intros Hv. destruct value; simpl; try done; exfalso; apply Hv; eauto.
  - intros [->| ->]; simpl; by destruct children.
  - intros s. by rewrite createRenderSnippet_wrapSnippet.
  - intros text. destruct b; simpl; eexists; split; try reflexivity; done.
Qed.

End SnippetTheory.

Section ComponentizeTheory.

Import Componentize.

Context {Anchor V Ctx R : Type}.

Lemma stripped_lookup (params : gmap string V) k :
  delete "$$legacy" (delete "$$events" (delete "$$slots" params)) !! k
  = if bool_decide (k ∈ reserved) then None else params !! k.
Proof.
  unfold reserved. case_bool_decide as Hk.
  - rewrite !elem_of_cons, elem_of_nil in Hk.
    destruct Hk as [->|[->|[->|[]]]].
    + rewrite !lookup_delete_ne by done. apply lookup_delete_eq.
    + rewrite lookup_delete_ne by done. apply lookup_delete_eq.
    + apply lookup_delete_eq.
  - rewrite !elem_of_cons, elem_of_nil in Hk.
    rewrite !lookup_delete_ne; [done|..]; intros <-; apply Hk; eauto.
Qed.

(** X19.  The component made by [componentize] renders the snippet once, at
    the anchor it is given, with the contexts of the place of rendering and
    with the props it is given less the keys [$$slots], [$$events] and
    [$$legacy]: every other prop reaches the snippet unchanged, the three
    never do, and props without them are passed as they are. *)
Theorem componentize_passes_props_less_reserved (contexts : Ctx)
    (snippet : Snippet (Anchor := Anchor) (V := V) (R := R)) anchor params :
  ∃ passed,
    componentize contexts snippet anchor params = snippet anchor passed contexts ∧
    (∀ k, passed !! k
          = if bool_decide (k ∈ reserved) then None else params !! k) ∧
    ((∀ k, k ∈ reserved → params !! k = None) → passed = params).
Proof.
  exists (delete "$$legacy" (delete "$$events" (delete "$$slots" params))).
  split; [reflexivity|]. split; [apply stripped_lookup|].
  intros Hfree. apply map_eq. intros k. rewrite stripped_lookup.
  case_bool_decide as Hk; [by rewrite Hfree|done].
Qed.

End ComponentizeTheory.

(** * The further properties on the examples *)

Section LoadingMoreExamples.
Import Loading LoadingViews.

Lemma example_world_root :
  heap example_world !! 0 = Some (Store (GState false) [1; 2]).
Proof. reflexivity. Qed.

Lemma example_world_root_on :
  get_value 0 example_world = Returns true example_world.
Proof. vm_compute. reflexivity. Qed.

Lemma value_on_iff_subtree_on_witness :
  wf (heap example_world) ∧
  0 < length (heap example_world) ∧
  ∃ b,
    get_value 0 example_world = Returns b example_world ∧
    (b = true ↔
     ∃ x nd, subtree (heap example_world) 0 x ∧
             heap example_world !! x = Some nd ∧
             own (env example_world) nd = true).
Proof.
  assert (0 < length (heap example_world)) as H by (vm_compute; lia).
  split; [apply example_world_wf|]. split; [exact H|].
  exact (value_on_iff_subtree_on example_world 0 example_world_wf H).
Defined.

Lemma read_after_write_witness :
  wf (heap example_world) ∧
  heap example_world !! 0 = Some (Store (GState false) [1; 2]) ∧
  ∃ w' kids,
    set_value 0 true example_world = Returns tt w' ∧
    Forall2 (λ c b, get_value c example_world = Returns b example_world)
      [1; 2] kids ∧
    get_value 0 w' = Returns (true || existsb id kids) w'.
Proof.
  split; [apply example_world_wf|]. split; [exact example_world_root|].
  exact (read_after_write example_world 0 false [1; 2] true
           example_world_wf example_world_root).
Defined.

Lemma write_reaches_only_ancestors_witness :
  wf (heap example_world) ∧
  heap example_world !! 0 = Some (Store (GState false) [1; 2]) ∧
  ∃ w',
    set_value 0 true example_world = Returns tt w' ∧
    ∀ a, a < length (heap example_world) →
         ¬ subtree (heap example_world) a 0 →
         ∃ b, get_value a example_world = Returns b example_world ∧
              get_value a w' = Returns b w'.
Proof.
  split; [apply example_world_wf|]. split; [exact example_world_root|].
  exact (write_reaches_only_ancestors example_world 0 false [1; 2] true
           example_world_wf example_world_root).
Defined.

Lemma child_joins_aggregate_witness :
  wf (heap example_world) ∧
  heap example_world !! 0 = Some (Store (GState false) [1; 2]) ∧
  get_value 0 example_world = Returns true example_world ∧
  (∀ initial, ∃ c w',
      scoped 0 initial example_world = Returns c w' ∧
      get_value c w' = Returns initial w' ∧
      get_value 0 w' = Returns (true || initial) w') ∧
  (∀ from, ∃ c w',
      derived 0 from example_world = Returns c w' ∧
      get_value c w' = Returns (from (env example_world)) w' ∧
      get_value 0 w' = Returns (true || from (env example_world)) w') ∧
  (∀ delay, ∃ c w',
      promised 0 delay example_world = Returns c w' ∧
      get_value c w' = Returns false w' ∧
      get_value 0 w' = Returns true w').
Proof.
  split; [apply example_world_wf|]. split; [exact example_world_root|].
  split; [exact example_world_root_on|].
  exact (child_joins_aggregate example_world 0 (GState false) [1; 2] true
           example_world_wf example_world_root example_world_root_on).
Defined.

Lemma create_then_teardown_restores_witness :
  wf (heap example_world) ∧
  heap example_world !! 0 = Some (Store (GState false) [1; 2]) ∧
  creates_child 0 (Scoped 0 true : event bool) ∧
  (0, length (heap example_world))
    ∈ hooks (after example_world (Scoped 0 true)) ∧
  heap (after (after example_world (Scoped 0 true))
          (Destroy 0 (length (heap example_world)))) !! 0
    = Some (Store (GState false) [1; 2]) ∧
  ∀ a, a < length (heap example_world) →
       ∃ b, get_value a example_world = Returns b example_world ∧
            get_value a (after (after example_world (Scoped 0 true))
                           (Destroy 0 (length (heap example_world))))
            = Returns b (after (after example_world (Scoped 0 true))
                           (Destroy 0 (length (heap example_world)))).
Proof.
  assert (creates_child 0 (Scoped 0 true : event bool)) as H
    by (left; exists true; reflexivity).
  split; [apply example_world_wf|]. split; [exact example_world_root|].
  split; [exact H|].
  exact (create_then_teardown_restores example_world 0 (GState false) [1; 2]
           (Scoped 0 true) example_world_wf example_world_root H).
Defined.

Lemma parent_shows_pending_promise_witness :
  wf (heap example_world) ∧
  heap example_world !! 3 = Some (Store (GDerived (λ e, e)) []) ∧
  get_value 3 (after example_world (EnvChanges false))
  = Returns false (after example_world (EnvChanges false)) ∧
  (Z.of_nat 30 ≤ TIMEOUT_MAX)%Z ∧
  ∃ c w0,
    promised 3 30 (after example_world (EnvChanges false)) = Returns c w0 ∧
    ∀ tf o settles ms,
      settles ≠ 30 →
      ∃ w',
        elapse tf (now example_world + settles) o c ms w0 = Returns tt w' ∧
        get_value 3 w'
        = Returns (false || bool_decide (30 ≤ ms < settles)) w'.
Proof.
  assert (get_value 3 (after example_world (EnvChanges false))
          = Returns false (after example_world (EnvChanges false))) as H
    by (vm_compute; reflexivity).
  assert (Z.of_nat 30 ≤ TIMEOUT_MAX)%Z as Hfits by (unfold TIMEOUT_MAX; lia).
  split; [apply example_world_wf|]. split; [reflexivity|]. split; [exact H|].
  split; [exact Hfits|].
  exact (parent_shows_pending_promise (after example_world (EnvChanges false))
           3 (GDerived (λ e, e)) [] false 30 example_world_wf eq_refl H Hfits).
Defined.

Lemma settled_stays_off_witness :
  heap (after example_world (PromiseSettles Fulfilled 2)) !! 2
  = Some (PromisedStore false None) ∧
  heap (foldl after (after example_world (PromiseSettles Fulfilled 2))
          [TimerFires 2; Tick; PromiseSettles Rejected 2; SetValue 0 true])
    !! 2 = Some (PromisedStore false None) ∧
  get_value 2
    (foldl after (after example_world (PromiseSettles Fulfilled 2))
       [TimerFires 2; Tick; PromiseSettles Rejected 2; SetValue 0 true])
  = Returns false
      (foldl after (after example_world (PromiseSettles Fulfilled 2))
         [TimerFires 2; Tick; PromiseSettles Rejected 2; SetValue 0 true]).
Proof.
  assert (heap (after example_world (PromiseSettles Fulfilled 2)) !! 2
          = Some (PromisedStore false None)) as H by (vm_compute; reflexivity).
  split; [exact H|].
  exact (settled_stays_off (after example_world (PromiseSettles Fulfilled 2)) 2
           [TimerFires 2; Tick; PromiseSettles Rejected 2; SetValue 0 true] H).
Defined.

End LoadingMoreExamples.


Section ObserverExamples.
Import Observer.


Lemma destroy_needs_an_observer_witness :
  let c := foldl run (mount (Options := unit)) [Observe 1] in
  observer c = None ∧
  1 ∈ observing c ∧
  destroy 1 c = c ∧
  ∀ p r, root_else_ref p = Some r →
         ∃ o, observer (effect p (destroy 1 c)) = Some o ∧ 1 ∈ targets o.
Proof.
  intros c.
  assert (observer c = None) as H1 by reflexivity.
  assert (1 ∈ observing c) as H2 by (vm_compute; left).
  split; [exact H1|]. split; [exact H2|].
  destruct (proj2 (destroy_needs_an_observer [Observe 1] 1) H1) as [E F].
  split; [exact E|exact (F H2)].
Defined.

End ObserverExamples.

Section SnippetExamples.
Import Snippets Componentize.

Lemma maybe_snippet_value_before_children_witness :
  let text : Snippets.Snippet unit string (list string) :=
    λ _ args, read <$> args in
  (¬ nullish (IsString "" : SnippetOrString unit string (list string))) ∧
  render id text true (IsString "") (IsString "x") [] tt
  = render id text true (IsString "") IsUndefined [] tt.
Proof.
  intros text.
  assert (¬ nullish (IsString "" : SnippetOrString unit string (list string)))
    as H by (intros [H|H]; discriminate H).
  split; [exact H|].
  exact (proj1 (proj2 (maybe_snippet_value_before_children id text true
                         (IsString "") (IsString "x") [] tt)) H).
Defined.

Lemma componentize_passes_props_less_reserved_witness :
  let params : gmap string nat := {[ "open"%string := 1 ]} in
  (∀ k, k ∈ reserved → params !! k = None) ∧
  ∃ passed,
    componentize tt (λ (_ : unit) ps (_ : unit), ps) tt params = passed ∧
    passed = params.
Proof.
  intros params.
  assert (∀ k, k ∈ reserved → params !! k = None) as H.
  { intros k Hk. unfold reserved in Hk.
    rewrite !elem_of_cons, elem_of_nil in Hk.
    destruct Hk as [->|[->|[->|[]]]]; reflexivity. }
  split; [exact H|].
  destruct (componentize_passes_props_less_reserved tt
              (λ (_ : unit) ps (_ : unit), ps) tt params)
    as (passed & E & _ & F).
  exists passed. split; [exact E|exact (F H)].
Defined.

End SnippetExamples.

